(** * A shallow embedding of [parser.py]

    The program is a scanner ([Lexer]), a family of expression classes with
    [calculate] and [__str__], and a recursive-descent [Parser] that pulls
    tokens from the scanner through a one-token lookahead slot.

    Conventions of the embedding.
    - A Python [str] is a Rocq [string]; a character of type [ascii] is read
      as the code point of the same number (0..255).  Text with code points
      above 255 is outside the model.
    - A token is a Python [str] or [None]: [option string].
    - Methods that mutate [self] are state-passing functions in the monad
      [M St A]; a raised exception is the outcome [Raise e].
    - Python integers are unbounded: [Z].  The conversions between
      integers and decimal strings, [int] and [str], are bounded as the
      interpreter bounds them: by [int_max_str_digits] digits.  The depth
      of the interpreter's call stack is not part of the model.
    - [while] loops and the recursion of the parser are bounded by a fuel
      argument; [OutOfFuel] is the outcome of a run that was given too
      little.  The entry points compute a fuel that is shown to suffice. *)

From Stdlib Require Import String Ascii List ZArith Lia Bool Arith.
From Stdlib Require Import DecimalString DecimalZ DecimalPos DecimalFacts.
Import ListNotations.

#[local] Open Scope string_scope.

(** ** Exceptions and outcomes *)

Inductive exn : Type :=
| LexicalError (msg : string)
| SyntaxError (msg : string)
| AttributeError (msg : string)
| ValueError (msg : string)
| IndexError (msg : string)
| AssertionError.

Inductive result (A : Type) : Type :=
| Ok (a : A)
| Raise (e : exn)
| OutOfFuel.

Arguments Ok {A} a.
Arguments Raise {A} e.
Arguments OutOfFuel {A}.

Definition M (St A : Type) : Type := St -> result (A * St).

Definition ret {St A} (a : A) : M St A := fun s => Ok (a, s).

Definition bind {St A B} (c : M St A) (k : A -> M St B) : M St B :=
  fun s =>
    match c s with
    | Ok (a, s') => k a s'
    | Raise e => Raise e
    | OutOfFuel => OutOfFuel
    end.

Definition raise {St A} (e : exn) : M St A := fun _ => Raise e.
Definition timeout {St A} : M St A := fun _ => OutOfFuel.

(** An object constructor whose [__init__] may fail an [assert]. *)
Definition new {St A} (r : result A) : M St A :=
  fun s =>
    match r with
    | Ok a => Ok (a, s)
    | Raise e => Raise e
    | OutOfFuel => OutOfFuel
    end.

Declare Scope monad_scope.
Delimit Scope monad_scope with monad.
Notation "x <- c ;; k" := (bind c (fun x => k))
  (at level 61, c at next level, right associativity) : monad_scope.
Notation "c ;; k" := (bind c (fun _ => k))
  (at level 61, right associativity) : monad_scope.
#[local] Open Scope monad_scope.

(** ** Characters and the string methods the program uses *)

(** The ten characters [0]..[9]. *)
Definition is_decimal (c : ascii) : bool :=
  ((48 <=? nat_of_ascii c) && (nat_of_ascii c <=? 57))%nat.

(** [str.isdigit] on one character.  Python's test is the Unicode one
    (Numeric_Type Digit or Decimal): among the code points 0..255 it holds
    for [0]..[9] and for the superscripts U+00B2, U+00B3 and U+00B9. *)
Definition chr_isdigit (c : ascii) : bool :=
  is_decimal c || existsb (Ascii.eqb c) ["178"; "179"; "185"]%char.

Fixpoint all_chars (f : ascii -> bool) (s : string) : bool :=
  match s with
  | EmptyString => true
  | String c s' => f c && all_chars f s'
  end.

(** [str.isdigit]: at least one character, and every character a digit. *)
Definition str_isdigit (s : string) : bool :=
  match s with
  | EmptyString => false
  | _ => all_chars chr_isdigit s
  end.

(** [tok.isdigit()] where [tok] may be [None]. *)
Definition isdigit {St} (tok : option string) : M St bool :=
  match tok with
  | Some s => ret (str_isdigit s)
  | None => raise (AttributeError "'NoneType' object has no attribute 'isdigit'")
  end.

(** [tok == s] and [tok in (s1, s2, ...)]; [None] equals no string. *)
Definition tok_eq (tok : option string) (s : string) : bool :=
  match tok with
  | Some t => String.eqb t s
  | None => false
  end.

Definition tok_in (tok : option string) (l : list string) : bool :=
  existsb (tok_eq tok) l.

(** [str(tok)] as an f-string prints it. *)
Definition tok_str (tok : option string) : string :=
  match tok with
  | Some t => t
  | None => "None"
  end.

Definition chr (c : ascii) : string := String c EmptyString.

(** ** int() and str() on integers *)

Definition digit_value (c : ascii) : Z := Z.of_nat (nat_of_ascii c) - 48.

Fixpoint int_loop (acc : Z) (s : string) : Z :=
  match s with
  | EmptyString => acc
  | String c s' => int_loop (10 * acc + digit_value c) s'
  end.

(** [sys.get_int_max_str_digits()] as the interpreter starts (CPython 3.11
    and later): the largest number of digits that [int] converts from a
    string and that [str] converts to one. *)
Definition int_max_str_digits : nat := 4300.

(** A count, as the messages print it. *)
Definition str_nat (n : nat) : string := NilZero.string_of_uint (Nat.to_uint n).

(** [int(s)] for a string [s] that passed [str.isdigit]: a [ValueError]
    when a character is not one of [0]..[9]; a [ValueError] when there are
    more than [int_max_str_digits] digits, leading zeros counted; and the
    base-10 value otherwise (leading zeros allowed).  The string is
    validated before its digits are counted, as CPython 3.12 does.  The
    program applies [int] to nothing else (see [Integer_new]). *)
Definition int (s : string) : result Z :=
  match s with
  | EmptyString => Raise (ValueError "invalid literal for int() with base 10: ''")
  | _ =>
      if all_chars is_decimal s then
        if (int_max_str_digits <? String.length s)%nat then
          Raise (ValueError
                   ("Exceeds the limit (" ++ str_nat int_max_str_digits
                    ++ " digits) for integer string conversion: value has "
                    ++ str_nat (String.length s)
                    ++ " digits; use sys.set_int_max_str_digits() to increase the limit"))
        else Ok (int_loop 0 s)
      else Raise (ValueError ("invalid literal for int() with base 10: '" ++ s ++ "'"))
  end.

(** The decimal numeral of [n]: no leading zeros, [-] for a negative
    number. *)
Definition decimal_string (n : Z) : string := NilZero.string_of_int (Z.to_int n).

(** [str(n)]: the decimal numeral of [n], and a [ValueError] when it has
    more than [int_max_str_digits] digits (the sign is not counted). *)
Definition str (n : Z) : result string :=
  if (int_max_str_digits <? String.length (decimal_string (Z.abs n)))%nat then
    Raise (ValueError
             ("Exceeds the limit (" ++ str_nat int_max_str_digits
              ++ " digits) for integer string conversion; "
              ++ "use sys.set_int_max_str_digits() to increase the limit"))
  else Ok (decimal_string n).

(** ** The scanner *)

Module Lexer.

Record t : Type := mk { source : string; index : nat }.

Definition ALLOWED_SYMBOLS : list string :=
  ["<"; ">"; "="; "+"; "-"; "*"; "("; ")"].

Definition __init__ (source : string) : t := mk source 0.

(** [self.source[self.index]] *)
Definition current_char : M t ascii :=
  fun self =>
    match String.get (index self) (source self) with
    | Some c => Ok (c, self)
    | None => Raise (IndexError "string index out of range")
    end.

(** [self.index += 1] *)
Definition advance : M t unit :=
  fun self => Ok (tt, mk (source self) (index self + 1)).

(** [self.index < len(self.source)] *)
Definition in_range : M t bool :=
  fun self => Ok ((index self <? String.length (source self))%nat, self).

Definition is_digit : M t bool :=
  c <- current_char ;; ret (chr_isdigit c).

Definition is_symbol : M t bool :=
  c <- current_char ;; ret (existsb (String.eqb (chr c)) ALLOWED_SYMBOLS).

(** The loop [while self.index < len(self.source) and self.is_digit()] of
    [next_number], entered with the current value of [number]; [fuel]
    bounds its iterations. *)
Fixpoint next_number_loop (fuel : nat) (number : string) : M t string :=
  match fuel with
  | O => timeout
  | S fuel' =>
      b <- in_range ;;
      if b then
        d <- is_digit ;;
        if d then
          c <- current_char ;;
          advance ;;
          next_number_loop fuel' (number ++ chr c)
        else ret number
      else ret number
  end.

(** Characters left to scan; each loop iteration but the last uses one. *)
Definition remaining (self : t) : nat :=
  String.length (source self) - index self.

Definition next_number : M t string :=
  fun self => next_number_loop (S (remaining self)) EmptyString self.

Definition next_symbol : M t string :=
  c <- current_char ;;
  advance ;;
  ret (chr c).

(** The loop [while self.index < len(self.source)] of [next_token]; leaving
    it is [return None]. *)
Fixpoint next_token_loop (fuel : nat) : M t (option string) :=
  match fuel with
  | O => timeout
  | S fuel' =>
      b <- in_range ;;
      if b then
        d <- is_digit ;;
        if d then
          n <- next_number ;; ret (Some n)
        else
          s <- is_symbol ;;
          if s then
            tok <- next_symbol ;; ret (Some tok)
          else
            c <- current_char ;;
            if Ascii.eqb c " " then
              advance ;;
              next_token_loop fuel'
            else
              raise (LexicalError ("Invalid symbol: " ++ chr c))
      else ret None
  end.

Definition next_token : M t (option string) :=
  fun self => next_token_loop (S (remaining self)) self.

End Lexer.

(** ** The expression classes *)

(** One constructor per concrete class; the children are stored as the
    attributes [left], [right], [expression] and [number] of the source.
    The class hierarchy is recovered by the [isinstance_*] tests, and the
    [assert]s of the [__init__] methods by the [*_new] functions. *)
Inductive Expression : Type :=
| Integer (number : string)
| Parenthesized (expression : Expression)
| Less (left right : Expression)
| Greater (left right : Expression)
| Equal (left right : Expression)
| SingleRelation (left : Expression)
| AddTerm (left right : Expression)
| SubTerm (left right : Expression)
| SingleTerm (left : Expression)
| Factor (left right : Expression)
| SingleFactor (left : Expression).

Definition isinstance_Primary (e : Expression) : bool :=
  match e with
  | Integer _ | Parenthesized _ => true
  | _ => false
  end.

Definition isinstance_Relation (e : Expression) : bool :=
  match e with
  | Less _ _ | Greater _ _ | Equal _ _ | SingleRelation _ => true
  | _ => false
  end.

Definition isinstance_Term (e : Expression) : bool :=
  match e with
  | AddTerm _ _ | SubTerm _ _ | SingleTerm _ => true
  | _ => false
  end.

Definition isinstance_Factor (e : Expression) : bool :=
  match e with
  | Factor _ _ | SingleFactor _ => true
  | _ => false
  end.

(** [assert b] followed by the construction of the object [a]. *)
Definition asserting {A} (b : bool) (a : A) : result A :=
  if b then Ok a else Raise AssertionError.

Definition Integer_new (number : string) : result Expression :=
  asserting (str_isdigit number) (Integer number).

(** [assert isinstance(self.expression, Expression)] holds of every value
    of the type. *)
Definition Parenthesized_new (expression : Expression) : result Expression :=
  asserting true (Parenthesized expression).

(** [Relation.__init__]: the left operand is a [Term], and so is the right
    one when there is one. *)
Definition Relation_init (left : Expression) (right : option Expression) : bool :=
  isinstance_Term left
  && match right with None => true | Some r => isinstance_Term r end.

Definition Less_new (left right : Expression) : result Expression :=
  asserting (Relation_init left (Some right)) (Less left right).

Definition Greater_new (left right : Expression) : result Expression :=
  asserting (Relation_init left (Some right)) (Greater left right).

Definition Equal_new (left right : Expression) : result Expression :=
  asserting (Relation_init left (Some right)) (Equal left right).

Definition SingleRelation_new (term : Expression) : result Expression :=
  asserting (isinstance_Term term && Relation_init term None)
    (SingleRelation term).

Definition Term_init (left : Expression) (right : option Expression) : bool :=
  (isinstance_Term left || isinstance_Factor left)
  && match right with None => true | Some r => isinstance_Factor r end.

Definition AddTerm_new (left right : Expression) : result Expression :=
  asserting (Term_init left (Some right)) (AddTerm left right).

Definition SubTerm_new (left right : Expression) : result Expression :=
  asserting (Term_init left (Some right)) (SubTerm left right).

Definition SingleTerm_new (factor : Expression) : result Expression :=
  asserting (isinstance_Factor factor && Term_init factor None)
    (SingleTerm factor).

Definition Factor_init (left : Expression) (right : option Expression) : bool :=
  (isinstance_Factor left || isinstance_Primary left)
  && match right with None => true | Some r => isinstance_Primary r end.

Definition Factor_new (left right : Expression) : result Expression :=
  asserting (Factor_init left (Some right)) (Factor left right).

Definition SingleFactor_new (primary : Expression) : result Expression :=
  asserting (isinstance_Primary primary && Factor_init primary None)
    (SingleFactor primary).

(** Sequencing of two evaluations that may raise. *)
Definition bind_result {A B} (r : result A) (k : A -> result B) : result B :=
  match r with
  | Ok a => k a
  | Raise e => Raise e
  | OutOfFuel => OutOfFuel
  end.

Definition binary (op : Z -> Z -> Z) (l r : result Z) : result Z :=
  bind_result l (fun a => bind_result r (fun b => Ok (op a b))).

Definition flag (b : bool) : Z := if b then 1%Z else 0%Z.

(** [calculate]: the left operand is evaluated before the right one. *)
Fixpoint calculate (e : Expression) : result Z :=
  match e with
  | Integer number => int number
  | Parenthesized expression => calculate expression
  | Less l r => binary (fun a b => flag (a <? b)%Z) (calculate l) (calculate r)
  | Greater l r => binary (fun a b => flag (a >? b)%Z) (calculate l) (calculate r)
  | Equal l r => binary (fun a b => flag (a =? b)%Z) (calculate l) (calculate r)
  | SingleRelation l => calculate l
  | AddTerm l r => binary Z.add (calculate l) (calculate r)
  | SubTerm l r => binary Z.sub (calculate l) (calculate r)
  | SingleTerm l => calculate l
  | Factor l r => binary Z.mul (calculate l) (calculate r)
  | SingleFactor l => calculate l
  end.

(** [__str__], the rendering of a tree. *)
Fixpoint __str__ (e : Expression) : string :=
  match e with
  | Integer number => "Integer(" ++ number ++ ")"
  | Parenthesized expression => "Parenthesized(" ++ __str__ expression ++ ")"
  | Less l r => "Less(" ++ __str__ l ++ "," ++ __str__ r ++ ")"
  | Greater l r => "Greater(" ++ __str__ l ++ "," ++ __str__ r ++ ")"
  | Equal l r => "Equal(" ++ __str__ l ++ "," ++ __str__ r ++ ")"
  | SingleRelation l => "SingleRelation(" ++ __str__ l ++ ")"
  | AddTerm l r => "AddTerm(" ++ __str__ l ++ "," ++ __str__ r ++ ")"
  | SubTerm l r => "SubTerm(" ++ __str__ l ++ "," ++ __str__ r ++ ")"
  | SingleTerm l => "SingleTerm(" ++ __str__ l ++ ")"
  | Factor l r => "Factor(" ++ __str__ l ++ "," ++ __str__ r ++ ")"
  | SingleFactor l => "SingleFactor(" ++ __str__ l ++ ")"
  end.

(** ** The parser *)

Module Parser.

Record t : Type :=
  mk { expression_string : string; lexer : Lexer.t; token : option string }.

Definition __init__ (expression_string : string) : t :=
  mk expression_string (Lexer.__init__ expression_string) None.

Definition current_token : M t (option string) :=
  fun self => Ok (token self, self).

(** [self.token = self.lexer.next_token(); return self.token] *)
Definition next_token : M t (option string) :=
  fun self =>
    match Lexer.next_token (lexer self) with
    | Ok (tok, lx) => Ok (tok, mk (expression_string self) lx tok)
    | Raise e => Raise e
    | OutOfFuel => OutOfFuel
    end.

(** The four grammar rules and the two [while] loops, by recursion on a
    common [fuel] that every call and every loop iteration decrements. *)
Fixpoint parse (fuel : nat) : M t Expression :=
  match fuel with
  | O => timeout
  | S fuel' => parse_relation fuel'
  end

with parse_relation (fuel : nat) : M t Expression :=
  match fuel with
  | O => timeout
  | S fuel' =>
      left <- parse_term fuel' ;;
      token <- current_token ;;
      if tok_eq token "<" then
        right <- parse_term fuel' ;;
        new (Less_new left right)
      else if tok_eq token ">" then
        right <- parse_term fuel' ;;
        new (Greater_new left right)
      else if tok_eq token "=" then
        right <- parse_term fuel' ;;
        new (Equal_new left right)
      else
        new (SingleRelation_new left)
  end

with parse_term (fuel : nat) : M t Expression :=
  match fuel with
  | O => timeout
  | S fuel' =>
      left <- parse_factor fuel' ;;
      token <- current_token ;;
      parse_term_while fuel' left None token
  end

(** The [while token in ('+', '-')] loop of [parse_term] and what follows
    it, entered with the current values of the three local variables. *)
with parse_term_while (fuel : nat) (left : Expression)
       (right : option Expression) (token : option string) : M t Expression :=
  match fuel with
  | O => timeout
  | S fuel' =>
      if tok_in token ["+"; "-"] then
        right' <- parse_factor fuel' ;;
        left' <- (if tok_eq token "+" then new (AddTerm_new left right')
                  else if tok_eq token "-" then new (SubTerm_new left right')
                  else ret left) ;;
        token' <- current_token ;;
        parse_term_while fuel' left' (Some right') token'
      else
        match right with
        | None => new (SingleTerm_new left)
        | Some _ => ret left
        end
  end

with parse_factor (fuel : nat) : M t Expression :=
  match fuel with
  | O => timeout
  | S fuel' =>
      left <- parse_primary fuel' ;;
      token <- next_token ;;
      parse_factor_while fuel' left None token
  end

(** The [while token == '*'] loop of [parse_factor] and what follows it. *)
with parse_factor_while (fuel : nat) (left : Expression)
       (right : option Expression) (token : option string) : M t Expression :=
  match fuel with
  | O => timeout
  | S fuel' =>
      if tok_eq token "*" then
        right' <- parse_primary fuel' ;;
        left' <- new (Factor_new left right') ;;
        token' <- next_token ;;
        parse_factor_while fuel' left' (Some right') token'
      else
        match right with
        | None => new (SingleFactor_new left)
        | Some _ => ret left
        end
  end

with parse_primary (fuel : nat) : M t Expression :=
  match fuel with
  | O => timeout
  | S fuel' =>
      token <- next_token ;;
      d <- isdigit token ;;
      if d then
        new (Integer_new (tok_str token))
      else if tok_eq token "(" then
        expression <- parse fuel' ;;
        token' <- current_token ;;
        if negb (tok_eq token' ")") then
          raise (SyntaxError ("Expected ')', got '" ++ tok_str token' ++ "'"))
        else
          new (Parenthesized_new expression)
      else
        raise (SyntaxError
                 ("Expected integer or parenthesis, got '" ++ tok_str token ++ "'"))
  end.

(** Fuel for a whole input: six calls per character at most, and the
    calls that find the input exhausted. *)
Definition fuel_for (expression_string : string) : nat :=
  6 * String.length expression_string + 6.

End Parser.

(** ** What [main] does with a line of input *)

(** [Parser(expression_string).parse()] *)
Definition parse_string (expression_string : string) : result Expression :=
  match Parser.parse (Parser.fuel_for expression_string)
          (Parser.__init__ expression_string) with
  | Ok (tree, _) => Ok tree
  | Raise e => Raise e
  | OutOfFuel => OutOfFuel
  end.

(** The text printed after [Expression:]. *)
Definition render (expression_string : string) : result string :=
  bind_result (parse_string expression_string) (fun tree => Ok (__str__ tree)).

(** The number printed after [Result:]. *)
Definition evaluate (expression_string : string) : result Z :=
  bind_result (parse_string expression_string) calculate.

(** [main] itself. *)

(** The newline that [print] writes. *)
Definition newline : string := String "010" EmptyString.

(** [main], for the line that [input] returns: what its two calls of
    [print] have written, and how it ends.  [print] writes its arguments
    one after the other, a space between them, and converts each with
    [str] only when its turn comes: when [str(result)] raises, [Result:]
    and the space have been written.  The prompt is written by [input],
    to the standard output or, when the program runs on a terminal, to the
    standard error; it is not part of what [print] writes. *)
Definition main (expression_string : string) : string * result unit :=
  match parse_string expression_string with
  | Ok expression_tree =>
      let out := "Expression: " ++ __str__ expression_tree ++ newline in
      match calculate expression_tree with
      | Ok result =>
          match str result with
          | Ok digits => (out ++ "Result: " ++ digits ++ newline, Ok tt)
          | Raise e => (out ++ "Result: ", Raise e)
          | OutOfFuel => (out ++ "Result: ", OutOfFuel)
          end
      | Raise e => (out, Raise e)
      | OutOfFuel => (out, OutOfFuel)
      end
  | Raise e => (EmptyString, Raise e)
  | OutOfFuel => (EmptyString, OutOfFuel)
  end.

(** * Vocabulary of the properties *)

#[local] Open Scope nat_scope.

(** ** Texts *)

(** A numeral: a non-empty run of the characters [0]..[9]. *)
Definition numeral (d : string) : Prop :=
  d <> EmptyString /\ all_chars is_decimal d = true.

(** The value of a numeral, digit by digit: the digit [c] in front of [k]
    more digits counts [c * 10 ^ k]. *)
Fixpoint decimal_value (d : string) : Z :=
  match d with
  | EmptyString => 0
  | String c d' =>
      digit_value c * 10 ^ Z.of_nat (String.length d') + decimal_value d'
  end.

(** A run of digits that [int] converts: not longer than the limit. *)
Definition within_limit (d : string) : Prop :=
  String.length d <= int_max_str_digits.

(** [c * n]: the character [c], [n] times. *)
Fixpoint replicate (n : nat) (c : ascii) : string :=
  match n with
  | O => EmptyString
  | S n' => String c (replicate n' c)
  end.

(** [m] is at the start of [s]; [m] occurs somewhere in [s]. *)
Fixpoint starts_with (m s : string) : bool :=
  match m, s with
  | EmptyString, _ => true
  | String a m', String b s' => Ascii.eqb a b && starts_with m' s'
  | String _ _, EmptyString => false
  end.

Fixpoint occurs (m s : string) : bool :=
  starts_with m s
  || match s with
     | EmptyString => false
     | String _ s' => occurs m s'
     end.

(** The digits at the start of a text, and what follows them. *)
Fixpoint take_digits (s : string) : string :=
  match s with
  | String c s' =>
      if chr_isdigit c then String c (take_digits s') else EmptyString
  | EmptyString => EmptyString
  end.

Fixpoint drop_digits (s : string) : string :=
  match s with
  | String c s' => if chr_isdigit c then drop_digits s' else s
  | EmptyString => EmptyString
  end.

(** A chain of additions and subtractions after a first numeral:
    its text, the tree the left fold builds from it, and its value. *)
Inductive addop : Type := Plus | Minus.

Definition addop_text (o : addop) : string :=
  match o with Plus => "+" | Minus => "-" end.

Definition addop_node (o : addop) : Expression -> Expression -> Expression :=
  match o with Plus => AddTerm | Minus => SubTerm end.

Definition addop_fun (o : addop) : Z -> Z -> Z :=
  match o with Plus => Z.add | Minus => Z.sub end.

Fixpoint chain_text (items : list (addop * string)) : string :=
  match items with
  | [] => EmptyString
  | (o, a) :: items' => addop_text o ++ a ++ chain_text items'
  end.

Definition chain_tree (items : list (addop * string)) (left : Expression)
  : Expression :=
  fold_left (fun l '(o, a) => addop_node o l (SingleFactor (Integer a)))
    items left.

Definition chain_value (items : list (addop * string)) (v : Z) : Z :=
  fold_left (fun v '(o, a) => addop_fun o v (decimal_value a)) items v.

Definition numerals (items : list (addop * string)) : Prop :=
  Forall (fun i => numeral (snd i)) items.

Definition limited (items : list (addop * string)) : Prop :=
  Forall (fun i => within_limit (snd i)) items.

(** ** The scanner *)

(** The unread text starts with a character that is not a digit, or is
    empty. *)
Definition stops_digits (rest : string) : Prop :=
  match rest with
  | EmptyString => True
  | String c _ => chr_isdigit c = false
  end.

(** [c] is one of the eight symbols. *)
Definition is_allowed (c : ascii) : bool :=
  existsb (String.eqb (chr c)) Lexer.ALLOWED_SYMBOLS.

(** [tok] is a token made of one of the eight symbols. *)
Definition symbol_token (tok : option string) : Prop :=
  exists c, tok = Some (chr c) /\ is_allowed c = true.

(** The cursor is at or behind the end of the text: the condition of the
    loop of [next_token] is false. *)
Definition exhausted (self : Lexer.t) : Prop :=
  String.length (Lexer.source self) <= Lexer.index self.

(** [n] calls of [next_token] in a row, and what each returned. *)
Fixpoint next_tokens (n : nat) : M Lexer.t (list (option string)) :=
  match n with
  | O => ret []
  | S n' =>
      tok <- Lexer.next_token ;;
      toks <- next_tokens n' ;;
      ret (tok :: toks)
  end.

(** What a call of [next_token] at cursor [i] of [src] can produce: a
    token, with the cursor moved forward; [None], with the cursor at or
    behind the end; or a [LexicalError]. *)
Definition token_outcome (src : string) (i : nat)
    (r : result (option string * Lexer.t)) : Prop :=
  match r with
  | Ok (Some _, self') =>
      Lexer.source self' = src
      /\ i < Lexer.index self' <= String.length src
  | Ok (None, self') =>
      Lexer.source self' = src /\ i <= Lexer.index self'
      /\ String.length src <= Lexer.index self'
  | Raise (LexicalError _) => True
  | _ => False
  end.

(** ** Runs of the state monad *)

(** [ensures c s Q]: run from [s], the computation [c] does not run out
    of fuel, and when it returns a value the postcondition [Q] holds of the
    value and the final state.  A raised exception satisfies it. *)
Definition ensures {St A} (c : M St A) (s : St) (Q : A -> St -> Prop) : Prop :=
  match c s with
  | Ok (a, s') => Q a s'
  | Raise _ => True
  | OutOfFuel => False
  end.

(** [approx r r']: the run [r'], with more fuel, agrees with the run [r]
    unless [r] ran out. *)
Definition approx {A} (r r' : result A) : Prop := r = OutOfFuel \/ r = r'.

(** ** The parser *)

(** Every rule with fuel [f'] agrees with the rule with fuel [f]. *)
Definition rules_approx (f f' : nat) : Prop :=
  (forall p, approx (Parser.parse f p) (Parser.parse f' p))
  /\ (forall p, approx (Parser.parse_relation f p) (Parser.parse_relation f' p))
  /\ (forall p, approx (Parser.parse_term f p) (Parser.parse_term f' p))
  /\ (forall l r t p,
        approx (Parser.parse_term_while f l r t p)
          (Parser.parse_term_while f' l r t p))
  /\ (forall p, approx (Parser.parse_factor f p) (Parser.parse_factor f' p))
  /\ (forall l r t p,
        approx (Parser.parse_factor_while f l r t p)
          (Parser.parse_factor_while f' l r t p))
  /\ (forall p, approx (Parser.parse_primary f p) (Parser.parse_primary f' p)).

(** The characters the scanner has not read yet. *)
Definition rem (p : Parser.t) : nat := Lexer.remaining (Parser.lexer p).

Definition shrinks (p : Parser.t) : Expression -> Parser.t -> Prop :=
  fun _ p' => rem p' < rem p.

Definition keeps (p : Parser.t) : Expression -> Parser.t -> Prop :=
  fun _ p' => rem p' <= rem p.

(** Every rule returns or raises when [fuel] is at least its bound, and
    leaves less text unread ([shrinks]) or no more ([keeps]). *)
Definition rules_total (fuel : nat) : Prop :=
  (forall p, 6 * rem p + 5 <= fuel ->
     ensures (Parser.parse fuel) p (shrinks p))
  /\ (forall p, 6 * rem p + 4 <= fuel ->
        ensures (Parser.parse_relation fuel) p (shrinks p))
  /\ (forall p, 6 * rem p + 3 <= fuel ->
        ensures (Parser.parse_term fuel) p (shrinks p))
  /\ (forall l r t p, 6 * rem p + 3 <= fuel ->
        ensures (Parser.parse_term_while fuel l r t) p (keeps p))
  /\ (forall p, 6 * rem p + 2 <= fuel ->
        ensures (Parser.parse_factor fuel) p (shrinks p))
  /\ (forall l r t p, 6 * rem p + 2 <= fuel ->
        ensures (Parser.parse_factor_while fuel l r t) p (keeps p))
  /\ (forall p, 6 * rem p + 1 <= fuel ->
        ensures (Parser.parse_primary fuel) p (shrinks p)).

(** The parser with the text [pre] behind the scanner's cursor and the
    text [rest] in front of it. *)
Definition cursor (es pre rest : string) (tok : option string) : Parser.t :=
  Parser.mk es (Lexer.mk (pre ++ rest) (String.length pre)) tok.

(** The outcome [r] is the tree [tree], with [None] in the lookahead. *)
Definition ends_with (tree : Expression) (r : result (Expression * Parser.t))
  : Prop :=
  match r with
  | Ok (e, p) => e = tree /\ Parser.token p = None
  | _ => False
  end.

(** *** Parsing a text and parsing a longer one *)

(** The parser [q] reads the text [src ++ rest], and is otherwise where
    the parser [p] is. *)
Definition sim (src rest : string) (p q : Parser.t) : Prop :=
  Parser.lexer q
  = Lexer.mk (src ++ rest) (Lexer.index (Parser.lexer p))
  /\ Parser.token q = Parser.token p.

(** The lookahead of [p] does not depend on what follows [src]: the
    cursor is inside [src], or the lookahead is a symbol. *)
Definition settled (src : string) (p : Parser.t) : Prop :=
  Lexer.index (Parser.lexer p) < String.length src
  \/ symbol_token (Parser.token p).

(** How a rule moves the parser from [p] to [p']: not at all, or forward
    within [src], or to the end with [None] in the lookahead. *)
Definition moved (src : string) (p p' : Parser.t) : Prop :=
  Lexer.source (Parser.lexer p') = Lexer.source (Parser.lexer p)
  /\ (p' = p
      \/ Lexer.index (Parser.lexer p) < Lexer.index (Parser.lexer p')
         <= String.length src
      \/ (Parser.token p' = None
          /\ String.length src <= Lexer.index (Parser.lexer p'))).

(** The computation [c] on the text [src] is followed step by step by
    [c] on [src ++ rest], as long as its final lookahead is settled. *)
Definition tracks (src rest : string) {A} (c : M Parser.t A) : Prop :=
  forall p,
    Lexer.source (Parser.lexer p) = src ->
    match c p with
    | Ok (a, p') =>
        moved src p p'
        /\ (settled src p' ->
            forall q, sim src rest p q ->
                 exists q', c q = Ok (a, q') /\ sim src rest p' q')
    | _ => True
    end.

Definition rules_track (src rest : string) (fuel : nat) : Prop :=
  tracks src rest (Parser.parse fuel)
  /\ tracks src rest (Parser.parse_relation fuel)
  /\ tracks src rest (Parser.parse_term fuel)
  /\ (forall l r tk, tracks src rest (Parser.parse_term_while fuel l r tk))
  /\ tracks src rest (Parser.parse_factor fuel)
  /\ (forall l r tk, tracks src rest (Parser.parse_factor_while fuel l r tk))
  /\ tracks src rest (Parser.parse_primary fuel).

(** ** The scanner, token by token *)

(** The structural scanner: the next token of the unread text [u] and the
    text that is left unread after it. *)
Fixpoint lex (u : string) : result (option string * string) :=
  match u with
  | EmptyString => Ok (None, EmptyString)
  | String c u' =>
      if chr_isdigit c then Ok (Some (take_digits u), drop_digits u)
      else if is_allowed c then Ok (Some (chr c), u')
      else if Ascii.eqb c " " then lex u'
      else Raise (LexicalError ("Invalid symbol: " ++ chr c))
  end.

(** The scanner's state after it has read all of [pre ++ u] but [u']. *)
Definition lexer_at (pre u u' : string) : Lexer.t :=
  Lexer.mk (pre ++ u) (String.length (pre ++ u) - String.length u').

Definition lex_outcome (pre u : string) : result (option string * Lexer.t) :=
  match lex u with
  | Ok (tok, u') => Ok (tok, lexer_at pre u u')
  | Raise e => Raise e
  | OutOfFuel => OutOfFuel
  end.

(** All the tokens of a text: [next_token] is called until it returns
    [None]. *)
Fixpoint tokenize (fuel : nat) : M Lexer.t (list string) :=
  match fuel with
  | O => timeout
  | S fuel' =>
      tok <- Lexer.next_token ;;
      match tok with
      | None => ret []
      | Some t => ts <- tokenize fuel' ;; ret (t :: ts)
      end
  end.

Definition tokens (s : string) : result (list string) :=
  match tokenize (S (String.length s)) (Lexer.__init__ s) with
  | Ok (ts, _) => Ok ts
  | Raise e => Raise e
  | OutOfFuel => OutOfFuel
  end.

Fixpoint remove_spaces (s : string) : string :=
  match s with
  | EmptyString => EmptyString
  | String c s' =>
      if Ascii.eqb c " " then remove_spaces s' else String c (remove_spaces s')
  end.

(** A character the scanner accepts: a digit, a symbol or a space. *)
Definition chr_valid (c : ascii) : bool :=
  chr_isdigit c || is_allowed c || Ascii.eqb c " ".

(** A token: a run of digits or one of the eight symbols. *)
Definition is_token (t : string) : Prop :=
  str_isdigit t = true \/ symbol_token (Some t).

(** The first character of a text that is not a space. *)
Fixpoint first_char (u : string) : option ascii :=
  match u with
  | EmptyString => None
  | String c u' => if Ascii.eqb c " " then first_char u' else Some c
  end.

Fixpoint join (ts : list string) : string :=
  match ts with
  | [] => EmptyString
  | t :: ts' => t ++ join ts'
  end.

(** ** The trees of the parser *)

(** The trees the parser builds.  A primary is a literal or a
    parenthesized relation; the left operand of a product is a primary or
    a product ([shape_fleft]); a factor is a product or a primary in
    [SingleFactor]; the left operand of a sum is a factor or a sum
    ([shape_tleft]); a term is a sum or a factor in [SingleTerm]; a
    relation is a comparison of two terms or a term in [SingleRelation]. *)
Fixpoint shape_primary (e : Expression) : bool :=
  match e with
  | Integer _ => true
  | Parenthesized r => shape_relation r
  | _ => false
  end
with shape_fleft (e : Expression) : bool :=
  match e with
  | Integer _ => true
  | Parenthesized r => shape_relation r
  | Factor l r => shape_fleft l && shape_primary r
  | _ => false
  end
with shape_factor (e : Expression) : bool :=
  match e with
  | SingleFactor p => shape_primary p
  | Factor l r => shape_fleft l && shape_primary r
  | _ => false
  end
with shape_tleft (e : Expression) : bool :=
  match e with
  | SingleFactor p => shape_primary p
  | Factor l r => shape_fleft l && shape_primary r
  | AddTerm l r | SubTerm l r => shape_tleft l && shape_factor r
  | _ => false
  end
with shape_term (e : Expression) : bool :=
  match e with
  | SingleTerm f => shape_factor f
  | AddTerm l r | SubTerm l r => shape_tleft l && shape_factor r
  | _ => false
  end
with shape_relation (e : Expression) : bool :=
  match e with
  | SingleRelation t => shape_term t
  | Less l r | Greater l r | Equal l r => shape_term l && shape_term r
  | _ => false
  end.

(** Every literal of the tree satisfies [lit]. *)
Fixpoint literals (lit : string -> bool) (e : Expression) : bool :=
  match e with
  | Integer number => lit number
  | Parenthesized e' | SingleRelation e' | SingleTerm e' | SingleFactor e' =>
      literals lit e'
  | Less l r | Greater l r | Equal l r | AddTerm l r | SubTerm l r
  | Factor l r => literals lit l && literals lit r
  end.

(** A non-empty run of [0]..[9], as a test. *)
Definition is_numeral (d : string) : bool :=
  match d with
  | EmptyString => false
  | _ => all_chars is_decimal d
  end.

(** A literal that [int] converts: a numeral of at most
    [int_max_str_digits] digits. *)
Definition convertible (d : string) : bool :=
  is_numeral d && (String.length d <=? int_max_str_digits).

(** Every digit of the text is one of [0]..[9]. *)
Definition plain_digits (s : string) : bool :=
  all_chars (fun c => implb (chr_isdigit c) (is_decimal c)) s.

(** The exceptions of the parser. *)
Definition parse_exn (e : exn) : Prop :=
  match e with
  | LexicalError _ | SyntaxError _ | AttributeError _ => True
  | _ => False
  end.

(** [meets src lit c p Q]: from a parser [p] on the text [src], the
    computation [c] returns a value and a parser, still on [src], that
    satisfy [Q], or raises one of the exceptions of the parser. *)
Definition meets (src : string) {A} (c : M Parser.t A) (p : Parser.t)
    (Q : A -> Prop) : Prop :=
  Lexer.source (Parser.lexer p) = src ->
  match c p with
  | Ok (a, p') => Lexer.source (Parser.lexer p') = src /\ Q a
  | Raise e => parse_exn e
  | OutOfFuel => True
  end.

(** What the loops expect of their accumulator [left]. *)
Definition factor_left (lit : string -> bool) (left : Expression)
    (right : option Expression) : Prop :=
  literals lit left = true
  /\ match right with
     | None => shape_primary left = true
     | Some _ => shape_fleft left = true /\ isinstance_Factor left = true
     end.

Definition term_left (lit : string -> bool) (left : Expression)
    (right : option Expression) : Prop :=
  literals lit left = true
  /\ match right with
     | None => shape_factor left = true
     | Some _ => shape_tleft left = true /\ isinstance_Term left = true
     end.

Definition good (lit : string -> bool) (shape : Expression -> bool)
    (e : Expression) : Prop :=
  shape e = true /\ literals lit e = true.

Definition rules_meet (src : string) (lit : string -> bool) (fuel : nat)
  : Prop :=
  (forall p, meets src (Parser.parse fuel) p (good lit shape_relation))
  /\ (forall p, meets src (Parser.parse_relation fuel) p (good lit shape_relation))
  /\ (forall p, meets src (Parser.parse_term fuel) p (good lit shape_term))
  /\ (forall l r tk p,
        term_left lit l r ->
        meets src (Parser.parse_term_while fuel l r tk) p (good lit shape_term))
  /\ (forall p, meets src (Parser.parse_factor fuel) p (good lit shape_factor))
  /\ (forall l r tk p,
        factor_left lit l r ->
        meets src (Parser.parse_factor_while fuel l r tk) p
          (good lit shape_factor))
  /\ (forall p, meets src (Parser.parse_primary fuel) p (good lit shape_primary)).

(** ** The text of a tree *)

(** The text of a tree: its literals and operators in order, without
    spaces; the pass-through nodes add nothing. *)
Fixpoint text (e : Expression) : string :=
  match e with
  | Integer number => number
  | Parenthesized e' => "(" ++ text e' ++ ")"
  | Less l r => text l ++ "<" ++ text r
  | Greater l r => text l ++ ">" ++ text r
  | Equal l r => text l ++ "=" ++ text r
  | AddTerm l r => text l ++ "+" ++ text r
  | SubTerm l r => text l ++ "-" ++ text r
  | Factor l r => text l ++ "*" ++ text r
  | SingleRelation l | SingleTerm l | SingleFactor l => text l
  end.

(** The token at the start of a text made of symbols. *)
Definition peek (rest : string) : option string :=
  match rest with
  | EmptyString => None
  | String c _ => Some (chr c)
  end.

(** The parser after it has taken its lookahead from [rest]. *)
Definition ahead (es pre rest : string) : Parser.t :=
  match rest with
  | EmptyString => cursor es pre EmptyString None
  | String c rest' => cursor es (pre ++ chr c) rest' (Some (chr c))
  end.

(** The text [rest] is empty or starts with a symbol, and that symbol is
    none of [stop]. *)
Definition follows (stop : list string) (rest : string) : Prop :=
  match rest with
  | EmptyString => True
  | String c _ => is_allowed c = true
  end
  /\ tok_in (peek rest) stop = false.

(** The three comparisons. *)
Inductive relop : Type := LessThan | GreaterThan | EqualTo.

Definition relop_text (o : relop) : string :=
  match o with LessThan => "<" | GreaterThan => ">" | EqualTo => "=" end.

Definition relop_node (o : relop) : Expression -> Expression -> Expression :=
  match o with LessThan => Less | GreaterThan => Greater | EqualTo => Equal end.

(** The value of [right] in the loop of [parse_factor], and in the loop
    of [parse_term], when the value of [left] is [e]: the operand folded
    last, or [None] before the first turn. *)
Definition product_operand (e : Expression) : option Expression :=
  match e with
  | Factor _ r => Some r
  | _ => None
  end.

Definition sum_operand (e : Expression) : option Expression :=
  match e with
  | AddTerm _ r | SubTerm _ r => Some r
  | _ => None
  end.

(** [finally c p r]: with enough fuel the rule [c] run from [p] has the
    outcome [r]. *)
Definition finally {A} (c : nat -> M Parser.t A) (p : Parser.t)
    (r : result (A * Parser.t)) : Prop :=
  r <> OutOfFuel /\ exists fuel, c fuel p = r.

(** What the rules do on the text of a tree [e] followed by [rest]. *)
Definition primary_parses (e : Expression) : Prop :=
  forall es pre rest tok,
    follows [] rest ->
    exists tok',
      finally Parser.parse_primary (cursor es pre (text e ++ rest) tok)
        (Ok (e, cursor es (pre ++ text e) rest tok')).

Definition product_resumes (e : Expression) : Prop :=
  forall es pre rest tok r,
    follows [] rest ->
    finally (fun f => Parser.parse_factor_while f e (product_operand e) (peek rest))
      (ahead es (pre ++ text e) rest) r ->
    finally Parser.parse_factor (cursor es pre (text e ++ rest) tok) r.

Definition factor_parses (e : Expression) : Prop :=
  forall es pre rest tok,
    follows ["*"] rest ->
    finally Parser.parse_factor (cursor es pre (text e ++ rest) tok)
      (Ok (e, ahead es (pre ++ text e) rest)).

Definition sum_resumes (e : Expression) : Prop :=
  forall es pre rest tok r,
    follows ["*"] rest ->
    finally (fun f => Parser.parse_term_while f e (sum_operand e) (peek rest))
      (ahead es (pre ++ text e) rest) r ->
    finally Parser.parse_term (cursor es pre (text e ++ rest) tok) r.

Definition term_parses (e : Expression) : Prop :=
  forall es pre rest tok,
    follows ["*"; "+"; "-"] rest ->
    finally Parser.parse_term (cursor es pre (text e ++ rest) tok)
      (Ok (e, ahead es (pre ++ text e) rest)).

Definition relation_parses (e : Expression) : Prop :=
  forall es pre rest tok,
    follows ["*"; "+"; "-"; "<"; ">"; "="] rest ->
    finally Parser.parse (cursor es pre (text e ++ rest) tok)
      (Ok (e, ahead es (pre ++ text e) rest)).

Definition text_parses (e : Expression) : Prop :=
  literals str_isdigit e = true ->
  (shape_primary e = true -> primary_parses e)
  /\ (shape_fleft e = true -> product_resumes e)
  /\ (shape_factor e = true -> factor_parses e)
  /\ (shape_tleft e = true -> sum_resumes e)
  /\ (shape_term e = true -> term_parses e)
  /\ (shape_relation e = true -> relation_parses e).

(** * Properties *)

(** ** Strings *)

Lemma length_app (a b : string) :
  String.length (a ++ b) = String.length a + String.length b.
Proof. induction a as [|c a IH]; simpl; [reflexivity | now rewrite IH]. Qed.

Lemma app_assoc (a b c : string) : (a ++ b) ++ c = a ++ b ++ c.
Proof. induction a as [|x a IH]; simpl; [reflexivity | now rewrite IH]. Qed.

Lemma app_empty_r (a : string) : a ++ EmptyString = a.
Proof. induction a as [|x a IH]; simpl; [reflexivity | now rewrite IH]. Qed.

Lemma get_app_length (pre : string) (c : ascii) (rest : string) :
  String.get (String.length pre) (pre ++ String c rest) = Some c.
Proof. induction pre as [|x pre IH]; simpl; [reflexivity | exact IH]. Qed.

Lemma get_beyond (s : string) (i : nat) :
  String.length s <= i -> String.get i s = None.
Proof.
  revert i; induction s as [|c s IH]; intros i Hi; simpl.
  - reflexivity.
  - destruct i as [|i]; simpl in Hi; [lia | apply IH; lia].
Qed.

Lemma get_within (s : string) (i : nat) :
  i < String.length s -> exists c, String.get i s = Some c.
Proof.
  revert i; induction s as [|c s IH]; intros i Hi; simpl in *.
  - lia.
  - destruct i as [|i]; [now exists c | apply IH; lia].
Qed.

Lemma snoc_app (pre : string) (c : ascii) (rest : string) :
  pre ++ String c rest = (pre ++ chr c) ++ rest.
Proof. now rewrite app_assoc. Qed.

Lemma length_snoc (pre : string) (c : ascii) :
  String.length (pre ++ chr c) = String.length pre + 1.
Proof. now rewrite length_app. Qed.

Lemma decimal_isdigit (c : ascii) : is_decimal c = true -> chr_isdigit c = true.
Proof. unfold chr_isdigit; now intros ->. Qed.

Lemma all_chars_impl (f g : ascii -> bool) (s : string) :
  (forall c, f c = true -> g c = true) ->
  all_chars f s = true -> all_chars g s = true.
Proof.
  intros Hfg; induction s as [|c s IH]; simpl; [reflexivity|].
  rewrite andb_true_iff; intros [Hc Hs]; now rewrite (Hfg c Hc), IH.
Qed.

(** ** The scanner *)

Module LexerFacts.
Import Lexer.

Lemma in_range_at (pre : string) (c : ascii) (rest : string) :
  (String.length pre <? String.length (pre ++ String c rest)) = true.
Proof. apply Nat.ltb_lt; rewrite length_app; simpl; lia. Qed.

(** One turn of each loop, on an explicit state. *)
Lemma next_number_loop_step (fuel : nat) (number src : string) (i : nat) :
  next_number_loop (S fuel) number (mk src i) =
  if i <? String.length src then
    match String.get i src with
    | Some c =>
        if chr_isdigit c
        then next_number_loop fuel (number ++ chr c) (mk src (i + 1))
        else Ok (number, mk src i)
    | None => Raise (IndexError "string index out of range")
    end
  else Ok (number, mk src i).
Proof.
  cbn [next_number_loop].
  unfold bind, in_range, is_digit, bind, current_char, advance, ret.
  cbn [source index].
  destruct (i <? String.length src); [|reflexivity].
  cbn [source index].
  destruct (String.get i src) as [c|] eqn:Hget; [|reflexivity].
  destruct (chr_isdigit c); [|reflexivity].
  cbn [source index]. now rewrite Hget.
Qed.

Lemma next_token_loop_step (fuel : nat) (src : string) (i : nat) :
  next_token_loop (S fuel) (mk src i) =
  if i <? String.length src then
    match String.get i src with
    | Some c =>
        if chr_isdigit c then
          match next_number (mk src i) with
          | Ok (n, self) => Ok (Some n, self)
          | Raise e => Raise e
          | OutOfFuel => OutOfFuel
          end
        else if is_allowed c then Ok (Some (chr c), mk src (i + 1))
        else if Ascii.eqb c " " then next_token_loop fuel (mk src (i + 1))
        else Raise (LexicalError ("Invalid symbol: " ++ chr c))
    | None => Raise (IndexError "string index out of range")
    end
  else Ok (None, mk src i).
Proof.
  cbn [next_token_loop].
  unfold bind, in_range, is_digit, is_symbol, next_symbol, bind,
    current_char, advance, ret, raise, is_allowed.
  cbn [source index].
  destruct (i <? String.length src); [|reflexivity].
  cbn [source index].
  destruct (String.get i src) as [c|] eqn:Hget; [|reflexivity].
  destruct (chr_isdigit c).
  - destruct (next_number (mk src i)) as [[n self]| |]; reflexivity.
  - cbn [source index]. rewrite Hget.
    destruct (existsb (String.eqb (chr c)) ALLOWED_SYMBOLS).
    + cbn [source index]. now rewrite Hget.
    + cbn [source index]. rewrite Hget.
      destruct (Ascii.eqb c " "); reflexivity.
Qed.

(** [next_number] from the start of a digit run [d]: the run is the
    token, and the cursor is left just behind it. *)
Lemma next_number_loop_run (d : string) :
  forall (pre rest number : string) (fuel : nat),
    all_chars chr_isdigit d = true ->
    stops_digits rest ->
    String.length d < fuel ->
    next_number_loop fuel number (mk (pre ++ d ++ rest) (String.length pre))
    = Ok (number ++ d,
          mk (pre ++ d ++ rest) (String.length pre + String.length d)).
Proof.
  induction d as [|c d IH]; intros pre rest number fuel Hd Hrest Hfuel;
    (destruct fuel as [|fuel]; [simpl in Hfuel; lia|]);
    rewrite next_number_loop_step.
  - cbn [append String.length]. rewrite app_empty_r, Nat.add_0_r.
    destruct rest as [|x rest].
    + rewrite app_empty_r, Nat.ltb_irrefl. reflexivity.
    + rewrite in_range_at, get_app_length. simpl in Hrest. now rewrite Hrest.
  - simpl in Hd; apply andb_true_iff in Hd as [Hc Hd].
    cbn [append]. rewrite in_range_at, get_app_length, Hc.
    rewrite (snoc_app pre c (d ++ rest)), <- (length_snoc pre c).
    rewrite (IH (pre ++ chr c) rest (number ++ chr c) fuel Hd Hrest)
      by (simpl in Hfuel; lia).
    rewrite app_assoc, length_snoc. cbn [append String.length].
    do 3 f_equal. lia.
Qed.

Lemma get_in_range (src : string) (i : nat) (c : ascii) :
  String.get i src = Some c -> (i <? String.length src) = true.
Proof.
  intros Hget. apply Nat.ltb_lt.
  destruct (Nat.lt_ge_cases i (String.length src)) as [H|H]; [exact H|].
  rewrite (get_beyond _ _ H) in Hget. discriminate.
Qed.

(** None of the eight symbols is a digit or a space. *)
Lemma allowed_not_digit (c : ascii) :
  is_allowed c = true -> chr_isdigit c = false /\ Ascii.eqb c " " = false.
Proof.
  destruct c as [[] [] [] [] [] [] [] []]; vm_compute;
    first [discriminate | split; reflexivity].
Qed.

(** The end of the input: [None], and the scanner is left as it was. *)
Lemma next_token_exhausted (src : string) (i : nat) :
  String.length src <= i -> next_token (mk src i) = Ok (None, mk src i).
Proof.
  intros H. unfold next_token. rewrite next_token_loop_step.
  apply Nat.ltb_ge in H. now rewrite H.
Qed.

Lemma next_token_symbol (src : string) (i : nat) (c : ascii) :
  String.get i src = Some c -> is_allowed c = true ->
  next_token (mk src i) = Ok (Some (chr c), mk src (i + 1)).
Proof.
  intros Hget Hc. unfold next_token. rewrite next_token_loop_step.
  rewrite (get_in_range _ _ _ Hget), Hget.
  destruct (allowed_not_digit c Hc) as [-> _]. now rewrite Hc.
Qed.

Lemma next_token_space (src : string) (i : nat) :
  String.get i src = Some " "%char ->
  next_token (mk src i) = next_token (mk src (i + 1)).
Proof.
  intros Hget. unfold next_token at 1. rewrite next_token_loop_step.
  pose proof (get_in_range _ _ _ Hget) as Hin. rewrite Hin, Hget.
  apply Nat.ltb_lt in Hin.
  unfold next_token, remaining; cbn [source index chr_isdigit].
  replace (String.length src - i) with (S (String.length src - (i + 1)))
    by lia.
  reflexivity.
Qed.

(** A character that is no digit, no symbol and no space. *)
Lemma next_token_invalid (src : string) (i : nat) (c : ascii) :
  String.get i src = Some c ->
  chr_isdigit c = false -> is_allowed c = false -> c <> " "%char ->
  next_token (mk src i) = Raise (LexicalError ("Invalid symbol: " ++ chr c)).
Proof.
  intros Hget Hd Hs Hsp. unfold next_token. rewrite next_token_loop_step.
  rewrite (get_in_range _ _ _ Hget), Hget, Hd, Hs.
  apply Ascii.eqb_neq in Hsp. now rewrite Hsp.
Qed.

(** A digit run [d] followed by something that is not a digit. *)
Lemma next_token_number (pre d rest : string) :
  d <> EmptyString -> all_chars chr_isdigit d = true -> stops_digits rest ->
  next_token (mk (pre ++ d ++ rest) (String.length pre))
  = Ok (Some d, mk (pre ++ d ++ rest) (String.length pre + String.length d)).
Proof.
  intros Hne Hd Hrest. unfold next_token. rewrite next_token_loop_step.
  destruct d as [|c d]; [congruence|].
  cbn [append]. rewrite in_range_at, get_app_length.
  pose proof Hd as Hd'. simpl in Hd'. apply andb_true_iff in Hd' as [-> _].
  unfold next_number.
  change (pre ++ String c (d ++ rest)) with (pre ++ String c d ++ rest).
  rewrite (next_number_loop_run (String c d) pre rest EmptyString _ Hd Hrest).
  - reflexivity.
  - unfold remaining; cbn [source index]. rewrite !length_app. lia.
Qed.

(** *** The scanner always answers, and its cursor only moves forward *)

(** From a digit in range, [next_number] returns a token and moves the
    cursor forward, within the text. *)
Lemma next_number_loop_progress (fuel : nat) :
  forall (number src : string) (i : nat) (c : ascii),
    String.length src - i < fuel ->
    String.get i src = Some c -> chr_isdigit c = true ->
    exists n j,
      next_number_loop fuel number (mk src i) = Ok (n, mk src j)
      /\ i < j <= String.length src.
Proof.
  induction fuel as [|fuel IH]; intros number src i c Hfuel Hget Hc; [lia|].
  rewrite next_number_loop_step.
  pose proof (get_in_range _ _ _ Hget) as Hin. rewrite Hin, Hget, Hc.
  apply Nat.ltb_lt in Hin.
  destruct fuel as [|fuel']; [lia|].
  destruct (String.get (i + 1) src) as [c'|] eqn:Hget'.
  - destruct (chr_isdigit c') eqn:Hc'.
    + destruct (IH (number ++ chr c) src (i + 1) c') as (n & j & Heq & Hj);
        [lia | assumption | assumption |].
      exists n, j. split; [exact Heq | lia].
    + rewrite next_number_loop_step, Hget', Hc'.
      rewrite (get_in_range _ _ _ Hget').
      exists (number ++ chr c), (i + 1). split; [reflexivity | lia].
  - assert (Hend : String.length src <= i + 1).
    { destruct (Nat.lt_ge_cases (i + 1) (String.length src)) as [H|H];
        [|exact H].
      destruct (get_within _ _ H) as [x Hx]. congruence. }
    rewrite next_number_loop_step, (proj2 (Nat.ltb_ge _ _) Hend).
    exists (number ++ chr c), (i + 1). split; [reflexivity | lia].
Qed.

Lemma next_token_loop_outcome (fuel : nat) :
  forall (src : string) (i : nat),
    String.length src - i < fuel ->
    token_outcome src i (next_token_loop fuel (mk src i)).
Proof.
  induction fuel as [|fuel IH]; intros src i Hfuel; [lia|].
  rewrite next_token_loop_step.
  destruct (i <? String.length src) eqn:Hin.
  - apply Nat.ltb_lt in Hin.
    destruct (get_within _ _ Hin) as [c Hget]. rewrite Hget.
    destruct (chr_isdigit c) eqn:Hc.
    + unfold next_number.
      destruct (next_number_loop_progress (S (remaining (mk src i))) EmptyString
                  src i c) as (n & j & -> & Hj);
        [unfold remaining; cbn [source index]; lia | assumption | assumption |].
      cbn. split; [reflexivity | lia].
    + destruct (is_allowed c).
      * cbn. split; [reflexivity | lia].
      * destruct (Ascii.eqb c " "); [|exact I].
        specialize (IH src (i + 1) ltac:(lia)).
        destruct (next_token_loop fuel (mk src (i + 1)))
          as [[[tok|] self']|[]|]; cbn in IH |- *; try exact IH;
          intuition lia.
  - apply Nat.ltb_ge in Hin. cbn. split; [reflexivity | lia].
Qed.

Lemma next_token_outcome (src : string) (i : nat) :
  token_outcome src i (next_token (mk src i)).
Proof.
  apply next_token_loop_outcome. unfold remaining; cbn [source index]. lia.
Qed.

(** The fuel [next_token] computes for its loop is enough. *)
Lemma next_token_terminates (self : t) : next_token self <> OutOfFuel.
Proof.
  destruct self as [src i]. pose proof (next_token_outcome src i) as H.
  intros Heq. rewrite Heq in H. exact H.
Qed.

End LexerFacts.

(** ** A program logic for the state monad *)

Lemma ensures_ret {St A} (a : A) (s : St) (Q : A -> St -> Prop) :
  Q a s -> ensures (ret a) s Q.
Proof. exact (fun H => H). Qed.

Lemma ensures_raise {St A} (e : exn) (s : St) (Q : A -> St -> Prop) :
  ensures (raise e) s Q.
Proof. exact I. Qed.

Lemma ensures_bind {St A B} (c : M St A) (k : A -> M St B) (s : St)
    (Q : B -> St -> Prop) :
  ensures c s (fun a s' => ensures (k a) s' Q) -> ensures (bind c k) s Q.
Proof.
  unfold ensures, bind. destruct (c s) as [[a s']| |]; intros H; exact H.
Qed.

Lemma ensures_weaken {St A} (c : M St A) (s : St) (Q Q' : A -> St -> Prop) :
  ensures c s Q -> (forall a s', Q a s' -> Q' a s') -> ensures c s Q'.
Proof.
  unfold ensures. destruct (c s) as [[a s']| |]; intros H HQ; auto.
Qed.

Lemma ensures_new {St A} (b : bool) (a : A) (s : St) (Q : A -> St -> Prop) :
  Q a s -> ensures (new (asserting b a)) s Q.
Proof. unfold ensures, new, asserting. destruct b; intros H; [exact H | exact I]. Qed.

Lemma ensures_isdigit {St} (tok : option string) (s : St)
    (Q : bool -> St -> Prop) :
  (forall t, tok = Some t -> Q (str_isdigit t) s) -> ensures (isdigit tok) s Q.
Proof. destruct tok as [t|]; intros H; [now apply H | exact I]. Qed.

Lemma approx_refl {A} (r : result A) : approx r r.
Proof. now right. Qed.

Lemma approx_bind {St A B} (c c' : M St A) (k k' : A -> M St B) (s : St) :
  approx (c s) (c' s) ->
  (forall a s', approx (k a s') (k' a s')) ->
  approx (bind c k s) (bind c' k' s).
Proof.
  unfold bind. intros [H|H] Hk; rewrite H; [now left|].
  destruct (c' s) as [[a s']| |]; [apply Hk | now right | now right].
Qed.

(** ** The parser *)

Module ParserFacts.
Import Parser.

(** *** One unfolding of each rule *)

Lemma parse_S fuel : parse (S fuel) = parse_relation fuel.
Proof. reflexivity. Qed.

Lemma parse_relation_S fuel :
  parse_relation (S fuel) =
  (left <- parse_term fuel ;;
   token <- current_token ;;
   if tok_eq token "<" then
     right <- parse_term fuel ;; new (Less_new left right)
   else if tok_eq token ">" then
     right <- parse_term fuel ;; new (Greater_new left right)
   else if tok_eq token "=" then
     right <- parse_term fuel ;; new (Equal_new left right)
   else new (SingleRelation_new left)).
Proof. reflexivity. Qed.

Lemma parse_term_S fuel :
  parse_term (S fuel) =
  (left <- parse_factor fuel ;;
   token <- current_token ;;
   parse_term_while fuel left None token).
Proof. reflexivity. Qed.

Lemma parse_term_while_S fuel left right token :
  parse_term_while (S fuel) left right token =
  if tok_in token ["+"; "-"] then
    right' <- parse_factor fuel ;;
    left' <- (if tok_eq token "+" then new (AddTerm_new left right')
              else if tok_eq token "-" then new (SubTerm_new left right')
              else ret left) ;;
    token' <- current_token ;;
    parse_term_while fuel left' (Some right') token'
  else
    match right with
    | None => new (SingleTerm_new left)
    | Some _ => ret left
    end.
Proof. reflexivity. Qed.

Lemma parse_factor_S fuel :
  parse_factor (S fuel) =
  (left <- parse_primary fuel ;;
   token <- next_token ;;
   parse_factor_while fuel left None token).
Proof. reflexivity. Qed.

Lemma parse_factor_while_S fuel left right token :
  parse_factor_while (S fuel) left right token =
  if tok_eq token "*" then
    right' <- parse_primary fuel ;;
    left' <- new (Factor_new left right') ;;
    token' <- next_token ;;
    parse_factor_while fuel left' (Some right') token'
  else
    match right with
    | None => new (SingleFactor_new left)
    | Some _ => ret left
    end.
Proof. reflexivity. Qed.

Lemma parse_primary_S fuel :
  parse_primary (S fuel) =
  (token <- next_token ;;
   d <- isdigit token ;;
   if d then new (Integer_new (tok_str token))
   else if tok_eq token "(" then
     expression <- parse fuel ;;
     token' <- current_token ;;
     if negb (tok_eq token' ")") then
       raise (SyntaxError ("Expected ')', got '" ++ tok_str token' ++ "'"))
     else new (Parenthesized_new expression)
   else
     raise (SyntaxError
              ("Expected integer or parenthesis, got '" ++ tok_str token ++ "'"))).
Proof. reflexivity. Qed.

Ltac approx_step :=
  first
    [ apply approx_refl
    | apply approx_bind; [|intros ? ?]
    | match goal with
      | |- approx ((if ?b then _ else _) _) _ => destruct b
      | |- approx (match ?r with None => _ | Some _ => _ end _) _ =>
          destruct r
      | H : forall p, approx (_ ?f p) _ |- approx (_ ?f _) _ => apply H
      | H : forall l r t p, approx (_ ?f l r t p) _ |- approx (_ ?f _ _ _ _) _ =>
          apply H
      end ].

Lemma fuel_mono (f : nat) : forall f', f <= f' -> rules_approx f f'.
Proof.
  induction f as [|f IH]; intros f' Hle.
  - repeat split; intros; now left.
  - destruct f' as [|f']; [lia|].
    destruct (IH f' ltac:(lia)) as (Hp & Hr & Ht & Htw & Hf & Hfw & Hpr).
    repeat split; intros.
    + rewrite !parse_S. apply Hr.
    + rewrite !parse_relation_S. repeat approx_step.
    + rewrite !parse_term_S. repeat approx_step.
    + rewrite !parse_term_while_S. repeat approx_step.
    + rewrite !parse_factor_S. repeat approx_step.
    + rewrite !parse_factor_while_S. repeat approx_step.
    + rewrite !parse_primary_S. repeat approx_step.
Qed.

Lemma parse_fuel_mono (f f' : nat) (p : t) (r : result (Expression * t)) :
  f <= f' -> parse f p = r -> r <> OutOfFuel -> parse f' p = r.
Proof.
  intros Hle Hr Hne.
  destruct (fuel_mono f f' Hle) as (Hp & _).
  destruct (Hp p) as [H|H]; congruence.
Qed.

(** *** The fuel of [fuel_for] is enough *)

Lemma ensures_current_token (p : t) (Q : option string -> t -> Prop) :
  Q (token p) p -> ensures current_token p Q.
Proof. exact (fun H => H). Qed.

Lemma ensures_next_token (p : t) (Q : option string -> t -> Prop) :
  (forall tok p',
      rem p' <= rem p -> (tok <> None -> rem p' < rem p) -> Q tok p') ->
  ensures next_token p Q.
Proof.
  intros HQ. unfold ensures, next_token.
  destruct p as [es [src i] tk]; cbn [lexer expression_string].
  pose proof (LexerFacts.next_token_outcome src i) as H.
  destruct (Lexer.next_token (Lexer.mk src i)) as [[[tok|] [src' j]]|[]|];
    cbn in H; try exact I; try contradiction.
  - destruct H as (-> & Hj). apply HQ; unfold rem, Lexer.remaining; cbn; lia.
  - destruct H as (-> & Hj). apply HQ; unfold rem, Lexer.remaining; cbn;
      [lia | congruence].
Qed.

Ltac finish := unfold shrinks, keeps in *; lia.

(** A call of a rule whose bound is known, followed by the rest. *)
Tactic Notation "call" constr(H) "as" ident(x) ident(q) ident(Hq) :=
  apply ensures_bind; eapply ensures_weaken;
  [apply H; finish |]; cbv beta; intros x q Hq.

Ltac tail_call H :=
  eapply ensures_weaken; [apply H; finish | cbv beta; intros; finish].

Lemma fuel_enough (fuel : nat) : rules_total fuel.
Proof.
  induction fuel as [|fuel IH].
  - repeat split; intros; lia.
  - destruct IH as (Hp & Hr & Ht & Htw & Hf & Hfw & Hpr).
    repeat split;
      [ intros p Hfuel | intros p Hfuel | intros p Hfuel
      | intros l r tk p Hfuel | intros p Hfuel
      | intros l r tk p Hfuel | intros p Hfuel ].
    + rewrite parse_S. tail_call Hr.
    + rewrite parse_relation_S. call Ht as left p1 Hp1.
      apply ensures_bind, ensures_current_token.
      repeat match goal with
             | |- ensures (if ?b then _ else _) _ _ => destruct b
             end;
        try (call Ht as right p2 Hp2); apply ensures_new; finish.
    + rewrite parse_term_S. call Hf as left p1 Hp1.
      apply ensures_bind, ensures_current_token.
      tail_call Htw.
    + rewrite parse_term_while_S.
      destruct (tok_in tk ["+"; "-"]).
      * call Hf as right p1 Hp1. apply ensures_bind.
        assert (Hleft : forall (c : M Parser.t Expression),
                   c = new (AddTerm_new l right)
                   \/ c = new (SubTerm_new l right) \/ c = ret l ->
                   ensures c p1 (fun _ p2 => p2 = p1)).
        { intros c [->|[->| ->]];
            [apply ensures_new | apply ensures_new | apply ensures_ret];
            reflexivity. }
        eapply ensures_weaken.
        { apply Hleft. destruct (tok_eq tk "+"); [now left|].
          destruct (tok_eq tk "-"); auto. }
        cbv beta; intros left' ? ->.
        apply ensures_bind, ensures_current_token.
        tail_call Htw.
      * destruct r; [apply ensures_ret | apply ensures_new]; finish.
    + rewrite parse_factor_S. call Hpr as left p1 Hp1.
      apply ensures_bind, ensures_next_token. intros tok p2 Hle _.
      tail_call Hfw.
    + rewrite parse_factor_while_S.
      destruct (tok_eq tk "*").
      * call Hpr as right p1 Hp1. apply ensures_bind, ensures_new.
        apply ensures_bind, ensures_next_token. intros tok p2 Hle _.
        tail_call Hfw.
      * destruct r; [apply ensures_ret | apply ensures_new]; finish.
    + rewrite parse_primary_S.
      apply ensures_bind, ensures_next_token. intros tok p1 Hle Hlt.
      apply ensures_bind, ensures_isdigit. intros s ->.
      specialize (Hlt ltac:(discriminate)).
      destruct (str_isdigit s); [apply ensures_new; finish|].
      destruct (tok_eq (Some s) "("); [|apply ensures_raise].
      call Hp as expression p2 Hp2.
      apply ensures_bind, ensures_current_token.
      destruct (negb _); [apply ensures_raise | apply ensures_new; finish].
Qed.

(** [Parser(expression_string).parse()] always returns or raises. *)
Theorem parse_terminates (expression_string : string) :
  parse (fuel_for expression_string) (__init__ expression_string)
  <> OutOfFuel.
Proof.
  destruct (fuel_enough (fuel_for expression_string)) as (Hp & _).
  specialize (Hp (__init__ expression_string)).
  unfold ensures in Hp. intros Heq. rewrite Heq in Hp. apply Hp.
  unfold rem, Lexer.remaining, fuel_for; cbn. lia.
Qed.

End ParserFacts.

(** ** Whole inputs *)

Theorem parse_string_terminates (expression_string : string) :
  parse_string expression_string <> OutOfFuel.
Proof.
  unfold parse_string.
  pose proof (ParserFacts.parse_terminates expression_string) as H.
  destruct (Parser.parse _ _) as [[tree p]| |]; congruence.
Qed.

(** A run of [parse] with any fuel that does not run out is the run
    [parse_string] makes. *)
Lemma parse_string_of_run (expression_string : string) (fuel : nat)
    (r : result (Expression * Parser.t)) :
  Parser.parse fuel (Parser.__init__ expression_string) = r ->
  r <> OutOfFuel ->
  Parser.parse (Parser.fuel_for expression_string)
    (Parser.__init__ expression_string) = r.
Proof.
  intros Hr Hne.
  destruct (Nat.le_ge_cases fuel (Parser.fuel_for expression_string)) as [H|H].
  - now apply (ParserFacts.parse_fuel_mono fuel).
  - pose proof (ParserFacts.parse_terminates expression_string) as Ht.
    rewrite <- Hr. symmetry.
    now apply (ParserFacts.parse_fuel_mono (Parser.fuel_for expression_string)).
Qed.

Lemma parse_string_Ok (expression_string : string) (fuel : nat)
    (tree : Expression) (p : Parser.t) :
  Parser.parse fuel (Parser.__init__ expression_string) = Ok (tree, p) ->
  parse_string expression_string = Ok tree.
Proof.
  intros H. unfold parse_string.
  now rewrite (parse_string_of_run _ fuel _ H).
Qed.

Lemma parse_string_Raise (expression_string : string) (fuel : nat) (e : exn) :
  Parser.parse fuel (Parser.__init__ expression_string) = Raise e ->
  parse_string expression_string = Raise e.
Proof.
  intros H. unfold parse_string.
  now rewrite (parse_string_of_run _ fuel _ H).
Qed.

Lemma starts_with_app (m post : string) : starts_with m (m ++ post) = true.
Proof.
  induction m as [|a m IH]; simpl; [now destruct post|].
  now rewrite Ascii.eqb_refl, IH.
Qed.

Lemma occurs_app (pre m post : string) : occurs m (pre ++ m ++ post) = true.
Proof.
  induction pre as [|a pre IH].
  - cbn [append]. destruct (m ++ post) eqn:E; cbn [occurs];
      rewrite <- E, starts_with_app; reflexivity.
  - cbn [append occurs]. rewrite IH. apply orb_true_r.
Qed.

Lemma occurs_in (s pre m post : string) :
  s = pre ++ m ++ post -> occurs m s = true.
Proof. intros ->. apply occurs_app. Qed.

(** ** Running the parser on a text with unknown parts *)

Lemma bind_Ok {St A B} (c : M St A) (k : A -> M St B) (s s' : St) (a : A) :
  c s = Ok (a, s') -> bind c k s = k a s'.
Proof. unfold bind. now intros ->. Qed.

Lemma bind_Raise {St A B} (c : M St A) (k : A -> M St B) (s : St) (e : exn) :
  c s = Raise e -> bind c k s = Raise e.
Proof. unfold bind. now intros ->. Qed.

Lemma numeral_digits (d : string) :
  numeral d -> all_chars chr_isdigit d = true.
Proof. intros [_ H]. exact (all_chars_impl _ _ d decimal_isdigit H). Qed.

Lemma numeral_isdigit (d : string) : numeral d -> str_isdigit d = true.
Proof.
  intros H. pose proof (numeral_digits d H) as Hd.
  destruct H as [Hne _]. destruct d; [congruence | exact Hd].
Qed.

Lemma numeral_int (d : string) :
  numeral d -> within_limit d -> int d = Ok (int_loop 0 d).
Proof.
  intros [Hne Hd] Hl. unfold int. destruct d; [congruence|]. rewrite Hd.
  now apply Nat.ltb_ge in Hl as ->.
Qed.

Lemma numeral_int_beyond (d : string) :
  numeral d -> ~ within_limit d ->
  int d
  = Raise (ValueError
             ("Exceeds the limit (" ++ str_nat int_max_str_digits
              ++ " digits) for integer string conversion: value has "
              ++ str_nat (String.length d)
              ++ " digits; use sys.set_int_max_str_digits() to increase the limit")).
Proof.
  intros [Hne Hd] Hl. unfold int. destruct d; [congruence|]. rewrite Hd.
  apply Nat.nle_gt, Nat.ltb_lt in Hl. now rewrite Hl.
Qed.

Module Run.
Import Parser ParserFacts.

Lemma init_cursor (es : string) : __init__ es = cursor es EmptyString es None.
Proof. reflexivity. Qed.

Lemma cursor_number es pre d rest tok :
  numeral d -> stops_digits rest ->
  next_token (cursor es pre (d ++ rest) tok)
  = Ok (Some d, cursor es (pre ++ d) rest (Some d)).
Proof.
  intros Hd Hrest. unfold next_token, cursor; cbn [lexer expression_string].
  rewrite LexerFacts.next_token_number;
    [| apply Hd | now apply numeral_digits | exact Hrest].
  now rewrite (app_assoc pre d rest), (length_app pre d).
Qed.

Lemma cursor_number_end es pre d tok :
  numeral d ->
  next_token (cursor es pre d tok) = Ok (Some d, cursor es (pre ++ d) EmptyString (Some d)).
Proof.
  intros Hd. rewrite <- (app_empty_r d) at 1.
  now apply cursor_number.
Qed.

Lemma cursor_symbol es pre c rest tok :
  is_allowed c = true ->
  next_token (cursor es pre (String c rest) tok)
  = Ok (Some (chr c), cursor es (pre ++ chr c) rest (Some (chr c))).
Proof.
  intros Hc. unfold next_token, cursor; cbn [lexer expression_string].
  rewrite (LexerFacts.next_token_symbol _ _ c);
    [| apply get_app_length | exact Hc].
  now rewrite (snoc_app pre c rest), (length_snoc pre c).
Qed.

Lemma cursor_space es pre rest tok :
  next_token (cursor es pre (String " " rest) tok)
  = next_token (cursor es (pre ++ chr " ") rest tok).
Proof.
  unfold next_token, cursor; cbn [lexer expression_string].
  rewrite LexerFacts.next_token_space by apply get_app_length.
  now rewrite (snoc_app pre " " rest), (length_snoc pre " ").
Qed.

Lemma cursor_end es pre tok :
  next_token (cursor es pre EmptyString tok) = Ok (None, cursor es pre EmptyString None).
Proof.
  unfold next_token, cursor; cbn [lexer expression_string].
  rewrite LexerFacts.next_token_exhausted; [reflexivity|].
  rewrite app_empty_r. lia.
Qed.

Lemma cursor_invalid es pre c rest tok :
  chr_isdigit c = false -> is_allowed c = false ->
  Ascii.eqb c " " = false ->
  next_token (cursor es pre (String c rest) tok)
  = Raise (LexicalError ("Invalid symbol: " ++ chr c)).
Proof.
  intros Hd Hs Hsp. unfold next_token, cursor; cbn [lexer expression_string].
  rewrite (LexerFacts.next_token_invalid _ _ c);
    [reflexivity | apply get_app_length | exact Hd | exact Hs |].
  now apply Ascii.eqb_neq.
Qed.

(** Use what is known of the unknown parts of the text and of the trees
    built from them. *)
Ltac known :=
  repeat match goal with
    | H : numeral ?d |- context [str_isdigit ?d] =>
        rewrite (numeral_isdigit d H)
    | H : ?x = true |- context [?x] => rewrite H
    end.

(** Decide a test of the program on known data. *)
Ltac eval_bool b :=
  let v := eval vm_compute in b in
  match v with
  | true => change b with true
  | false => change b with false
  end;
  cbv iota.

Ltac side :=
  solve [ assumption | reflexivity | exact I
        | match goal with H : numeral _ |- _ => exact H end ].

Ltac unfold_new :=
  unfold Integer_new, Parenthesized_new, Less_new, Greater_new,
    Equal_new, SingleRelation_new, AddTerm_new, SubTerm_new,
    SingleTerm_new, Factor_new, SingleFactor_new, tok_str,
    Relation_init, Term_init, Factor_init.

(** Run the program text on the left of the equation to its outcome. *)
Ltac run :=
  cbv beta;
  lazymatch goal with
  | |- bind ?c ?k ?s = _ =>
      first [ erewrite (bind_Ok c k s) by run
            | erewrite (bind_Raise c k s) by run ];
      run
  | |- parse (S _) _ = _ => rewrite parse_S; run
  | |- parse_relation (S _) _ = _ => rewrite parse_relation_S; run
  | |- parse_term (S _) _ = _ => rewrite parse_term_S; run
  | |- parse_term_while (S _) _ _ _ _ = _ => rewrite parse_term_while_S; run
  | |- parse_factor (S _) _ = _ => rewrite parse_factor_S; run
  | |- parse_factor_while (S _) _ _ _ _ = _ =>
      rewrite parse_factor_while_S; run
  | |- parse_primary (S _) _ = _ => rewrite parse_primary_S; run
  | |- next_token (cursor _ _ (String " " _) _) = _ =>
      rewrite cursor_space; run
  | |- next_token (cursor _ _ (String ?c ?r) _) = _ =>
      let d := eval vm_compute in (take_digits (String c r)) in
      let r' := eval vm_compute in (drop_digits (String c r)) in
      lazymatch d with
      | EmptyString =>
          first [ apply cursor_symbol; side | apply cursor_invalid; side ]
      | _ =>
          change (String c r) with (d ++ r');
          apply cursor_number;
          [ split; [discriminate | reflexivity]
          | first [exact I | reflexivity] ]
      end
  | |- next_token (cursor _ _ _ _) = _ =>
      first [ apply cursor_end
            | apply cursor_number_end; side
            | apply cursor_number; side ]
  | |- (if _ then _ else _) _ = _ =>
      try known;
      lazymatch goal with
      | |- (if ?b then _ else _) _ = _ => eval_bool b; run
      | |- _ => run
      end
  | |- match ?r with None => _ | Some _ => _ end _ = _ => cbv iota; run
  | |- new _ _ = _ =>
      unfold_new; known;
      try lazymatch goal with
          | |- new (asserting ?b _) _ = _ => eval_bool b
          end;
      reflexivity
  | |- _ => reflexivity
  end.

(** The outcome of the computation [c] from the state [s], as an
    equation to rewrite with. *)
Ltac outcome c s :=
  let H := fresh "Hrun" in
  first [ eassert (H : c s = Ok (_, _)) by run
        | eassert (H : c s = Raise _) by run ];
  rewrite H; clear H.

(** Reduce a statement on [parse_string] to a run from the start of the
    text, with fuel [n]. *)
Ltac from_start n :=
  lazymatch goal with
  | |- parse_string ?s = Ok _ =>
      eapply (parse_string_Ok s n); rewrite init_cursor; cbn [append]
  | |- parse_string ?s = Raise _ =>
      eapply (parse_string_Raise s n); rewrite init_cursor; cbn [append]
  end.

End Run.

(** ** Numerals and their values *)

Lemma int_loop_value (d : string) :
  forall acc : Z,
    int_loop acc d = (acc * 10 ^ Z.of_nat (String.length d) + decimal_value d)%Z.
Proof.
  induction d as [|c d IH]; intros acc; cbn [int_loop decimal_value String.length].
  - cbn. lia.
  - rewrite IH, Nat2Z.inj_succ, Z.pow_succ_r by lia. ring.
Qed.

Lemma numeral_int_value (d : string) :
  numeral d -> within_limit d -> int d = Ok (decimal_value d).
Proof.
  intros H Hl. rewrite (numeral_int d H Hl), int_loop_value. reflexivity.
Qed.

(** The numerals that [str] prints. *)
Lemma string_of_uint_decimal (u : Decimal.uint) :
  all_chars is_decimal (NilEmpty.string_of_uint u) = true.
Proof. induction u; cbn [NilEmpty.string_of_uint all_chars]; auto. Qed.

Lemma string_of_uint_nonempty (u : Decimal.uint) :
  u <> Decimal.Nil -> NilEmpty.string_of_uint u <> EmptyString.
Proof. destruct u; cbn; congruence. Qed.

Lemma int_loop_string_of_uint (u : Decimal.uint) :
  forall acc : Z,
    int_loop acc (NilEmpty.string_of_uint u)
    = (acc * 10 ^ Z.of_N (Unsigned.usize u)
       + Z.of_N (Unsigned.of_lu (Decimal.rev u)))%Z.
Proof.
  induction u; intros acc;
    cbn [NilEmpty.string_of_uint int_loop Unsigned.usize];
    [cbn; lia | ..];
    rewrite IHu; unfold Decimal.rev at 2; cbn [Decimal.revapp];
    rewrite Unsigned.of_lu_revapp, N2Z.inj_succ, Z.pow_succ_r,
      N2Z.inj_add, N2Z.inj_mul, N2Z.inj_pow by lia;
    cbn [Unsigned.of_lu]; unfold digit_value;
    change (Z.of_N 10) with 10%Z;
    generalize (10 ^ Z.of_N (Unsigned.usize u))%Z
      (Z.of_N (Unsigned.of_lu (Decimal.rev u)));
    intros x y;
    repeat match goal with
      | |- context [Z.of_nat (nat_of_ascii ?c)] =>
          let v := eval vm_compute in (Z.of_nat (nat_of_ascii c)) in
          change (Z.of_nat (nat_of_ascii c)) with v
      | |- context [Z.of_N ?n] =>
          let v := eval vm_compute in (Z.of_N n) in
          change (Z.of_N n) with v
      end;
    ring.
Qed.

Lemma decimal_string_numeral (n : Z) : (0 <= n)%Z -> numeral (decimal_string n).
Proof.
  intros Hn. unfold decimal_string. destruct n as [|p|p]; [| |lia].
  - cbn. split; [discriminate | reflexivity].
  - cbn [Z.to_int NilZero.string_of_int]. unfold NilZero.string_of_uint.
    pose proof (Unsigned.to_uint_nonnil p) as Hnil.
    destruct (Pos.to_uint p) eqn:E; try congruence;
      rewrite <- E in *;
      (split; [now apply string_of_uint_nonempty
              | apply string_of_uint_decimal]).
Qed.

Lemma decimal_string_value (n : Z) :
  (0 <= n)%Z -> int_loop 0 (decimal_string n) = n.
Proof.
  intros Hn. unfold decimal_string. destruct n as [|p|p]; [reflexivity| |lia].
  cbn [Z.to_int NilZero.string_of_int]. unfold NilZero.string_of_uint.
  pose proof (Unsigned.to_uint_nonnil p) as Hnil.
  assert (H : int_loop 0 (NilEmpty.string_of_uint (Pos.to_uint p)) = Z.pos p).
  { rewrite int_loop_string_of_uint, <- Unsigned.of_uint_alt, Unsigned.of_to.
    cbn. reflexivity. }
  destruct (Pos.to_uint p) eqn:E; try congruence; rewrite <- E; exact H.
Qed.

(** *** How long the numeral of a number is *)

Lemma digit_value_range (c : ascii) :
  is_decimal c = true -> (0 <= digit_value c <= 9)%Z.
Proof.
  destruct c as [[] [] [] [] [] [] [] []]; vm_compute;
    first [discriminate | intros _; split; discriminate].
Qed.

Lemma decimal_value_range (d : string) :
  all_chars is_decimal d = true ->
  (0 <= decimal_value d < 10 ^ Z.of_nat (String.length d))%Z.
Proof.
  induction d as [|c d IH]; cbn [all_chars decimal_value String.length].
  - intros _. cbn. lia.
  - rewrite andb_true_iff. intros [Hc Hd].
    pose proof (digit_value_range c Hc). specialize (IH Hd).
    rewrite Nat2Z.inj_succ, Z.pow_succ_r by lia. nia.
Qed.

(** The numeral of a positive number does not start with a zero. *)
Lemma to_uint_head (p : positive) (u : Decimal.uint) :
  Pos.to_uint p <> Decimal.D0 u.
Proof.
  pose proof (Unsigned.to_of (Pos.to_uint p)) as H.
  rewrite Unsigned.of_to in H. cbn [N.to_uint] in H.
  unfold Decimal.unorm in H.
  pose proof (DecimalFacts.nzhead_nonzero (Pos.to_uint p) u) as Hnz.
  destruct (Decimal.nzhead (Pos.to_uint p)) eqn:E; try congruence.
  exfalso. now apply (Unsigned.to_uint_nonzero p).
Qed.

Lemma leading_digit_value (u : Decimal.uint) :
  u <> Decimal.Nil -> (forall u', u <> Decimal.D0 u') ->
  (10 ^ Z.of_nat (String.length (NilEmpty.string_of_uint u) - 1)
   <= decimal_value (NilEmpty.string_of_uint u))%Z.
Proof.
  intros Hnil H0.
  destruct u as [|u|u|u|u|u|u|u|u|u|u]; try congruence;
    try (now exfalso; apply (H0 u));
    cbn [NilEmpty.string_of_uint decimal_value String.length];
    rewrite Nat.sub_succ, Nat.sub_0_r;
    pose proof (decimal_value_range _ (string_of_uint_decimal u)) as Hr;
    match goal with
    | |- context [digit_value ?c] =>
        let v := eval vm_compute in (digit_value c) in
        change (digit_value c) with v
    end;
    nia.
Qed.

Lemma decimal_string_value_of (n : Z) :
  (0 <= n)%Z -> decimal_value (decimal_string n) = n.
Proof.
  intros Hn. pose proof (decimal_string_value n Hn) as H.
  rewrite int_loop_value in H. lia.
Qed.

(** A number below [10 ^ k] has at most [k] digits, and a number from
    [10 ^ k] on has more. *)
Lemma decimal_string_short (n : Z) (k : nat) :
  (0 <= n < 10 ^ Z.of_nat k)%Z -> 0 < k ->
  String.length (decimal_string n) <= k.
Proof.
  intros Hn Hk. destruct n as [|p|p]; [cbn; lia| |lia].
  pose proof (decimal_string_value_of (Z.pos p) ltac:(lia)) as Hv.
  unfold decimal_string in *.
  cbn [Z.to_int NilZero.string_of_int] in *.
  unfold NilZero.string_of_uint in *.
  pose proof (Unsigned.to_uint_nonnil p) as Hnil.
  pose proof (to_uint_head p) as H0.
  pose proof (leading_digit_value (Pos.to_uint p) Hnil H0) as Hlead.
  destruct (Pos.to_uint p) eqn:E; try congruence; rewrite <- E in *;
    rewrite Hv in Hlead;
    (destruct (Nat.le_gt_cases
                 (String.length (NilEmpty.string_of_uint (Pos.to_uint p))) k)
      as [Hle|Hgt]; [exact Hle|]);
    exfalso;
    assert (Hpow : (10 ^ Z.of_nat k
                    <= 10 ^ Z.of_nat
                         (String.length
                            (NilEmpty.string_of_uint (Pos.to_uint p)) - 1))%Z)
      by (apply Z.pow_le_mono_r; lia);
    lia.
Qed.

Lemma decimal_string_long (n : Z) (k : nat) :
  (10 ^ Z.of_nat k <= n)%Z -> k < String.length (decimal_string n).
Proof.
  intros Hn. assert (H0 : (0 <= n)%Z).
  { pose proof (Z.pow_nonneg 10 (Z.of_nat k)). lia. }
  pose proof (decimal_string_value_of n H0) as Hv.
  destruct (decimal_string_numeral n H0) as [_ Hd].
  pose proof (decimal_value_range _ Hd) as Hr. rewrite Hv in Hr.
  destruct (Nat.le_gt_cases (String.length (decimal_string n)) k)
    as [Hle|Hgt]; [|exact Hgt].
  exfalso.
  assert (Hpow : (10 ^ Z.of_nat (String.length (decimal_string n))
                  <= 10 ^ Z.of_nat k)%Z)
    by (apply Z.pow_le_mono_r; lia).
  lia.
Qed.

(** [str] prints the numbers of at most [int_max_str_digits] digits, and
    no others. *)
Lemma str_Ok (n : Z) :
  (Z.abs n < 10 ^ Z.of_nat int_max_str_digits)%Z ->
  str n = Ok (decimal_string n).
Proof.
  intros Hn. unfold str.
  assert (H : String.length (decimal_string (Z.abs n)) <= int_max_str_digits).
  { apply decimal_string_short; [lia | unfold int_max_str_digits; lia]. }
  now apply Nat.ltb_ge in H as ->.
Qed.

Lemma str_Raise (n : Z) :
  (10 ^ Z.of_nat int_max_str_digits <= Z.abs n)%Z ->
  str n
  = Raise (ValueError
             ("Exceeds the limit (" ++ str_nat int_max_str_digits
              ++ " digits) for integer string conversion; "
              ++ "use sys.set_int_max_str_digits() to increase the limit")).
Proof.
  intros Hn. unfold str.
  pose proof (decimal_string_long (Z.abs n) int_max_str_digits Hn) as H.
  now apply Nat.ltb_lt in H as ->.
Qed.

(** ** Single numerals *)

Lemma parse_string_numeral (d : string) :
  numeral d ->
  parse_string d = Ok (SingleRelation (SingleTerm (SingleFactor (Integer d)))).
Proof. intros Hd. Run.from_start 6. Run.run. Qed.

Lemma evaluate_numeral (d : string) :
  numeral d -> within_limit d -> evaluate d = Ok (decimal_value d).
Proof.
  intros Hd Hl. unfold evaluate. rewrite (parse_string_numeral d Hd).
  cbn [bind_result calculate]. now apply numeral_int_value.
Qed.

Lemma evaluate_numeral_beyond (d : string) :
  numeral d -> ~ within_limit d ->
  evaluate d
  = Raise (ValueError
             ("Exceeds the limit (" ++ str_nat int_max_str_digits
              ++ " digits) for integer string conversion: value has "
              ++ str_nat (String.length d)
              ++ " digits; use sys.set_int_max_str_digits() to increase the limit")).
Proof.
  intros Hd Hl. unfold evaluate. rewrite (parse_string_numeral d Hd).
  cbn [bind_result calculate]. now apply numeral_int_beyond.
Qed.

Lemma numeral_cons_zero (d : string) : numeral d -> numeral (String "0" d).
Proof.
  intros [_ Hd]. split; [discriminate|]. cbn [all_chars]. now rewrite Hd.
Qed.

Lemma decimal_value_cons_zero (d : string) :
  decimal_value (String "0" d) = decimal_value d.
Proof. cbn [decimal_value]. change (digit_value "0") with 0%Z. lia. Qed.

Lemma literal_within_limit (d : string) :
  (String.length d <=? 100) = true -> within_limit d.
Proof.
  intros H. apply Nat.leb_le in H. unfold within_limit, int_max_str_digits.
  apply (Nat.le_trans _ 100); [exact H|]. apply Nat.leb_le. reflexivity.
Qed.

(** *** Runs of zeros *)

Lemma length_replicate (n : nat) (c : ascii) :
  String.length (replicate n c) = n.
Proof. induction n as [|n IH]; cbn; [reflexivity | now rewrite IH]. Qed.

Lemma numeral_zeros (n : nat) (d : string) :
  numeral d -> numeral (replicate n "0" ++ d).
Proof.
  intros Hd. induction n as [|n IH]; [exact Hd|].
  cbn [replicate append]. now apply numeral_cons_zero.
Qed.

Lemma decimal_value_zeros (n : nat) (d : string) :
  decimal_value (replicate n "0" ++ d) = decimal_value d.
Proof.
  induction n as [|n IH]; [reflexivity|].
  cbn [replicate append]. now rewrite decimal_value_cons_zero.
Qed.

Lemma all_decimal_zeros (n : nat) :
  all_chars is_decimal (replicate n "0") = true.
Proof. induction n as [|n IH]; [reflexivity | exact IH]. Qed.

(** The numeral of [10 ^ n]: a one and [n] zeros. *)
Lemma numeral_power_of_ten (n : nat) :
  numeral (String "1" (replicate n "0"))
  /\ decimal_value (String "1" (replicate n "0")) = (10 ^ Z.of_nat n)%Z.
Proof.
  split.
  - split; [discriminate|]. exact (all_decimal_zeros n).
  - cbn [decimal_value]. rewrite length_replicate.
    change (digit_value "1") with 1%Z.
    pose proof (decimal_value_zeros n EmptyString) as H.
    rewrite app_empty_r in H. cbn [decimal_value] in H. lia.
Qed.

(** ** Chains of additions and subtractions *)

Module ChainFacts.
Import Parser ParserFacts Run.

Lemma chain_tree_Term items o l r :
  isinstance_Term (chain_tree items (addop_node o l r)) = true.
Proof.
  revert o l r. induction items as [|[o' a'] items IH]; intros o l r.
  - now destruct o.
  - cbn [chain_tree fold_left]. apply IH.
Qed.

(** One statement of the program text, anywhere in the goal. *)
Ltac step :=
  cbv beta;
  match goal with
  | |- context [bind ?c ?k ?s] => erewrite (bind_Ok c k s) by run
  | |- context [(if ?b then _ else _) _] => eval_bool b
  end.

(** The loop of [parse_term], entered with an operator in the lookahead
    and the rest of a chain in front of the cursor, folds the chain to the
    left, one operand at a time, in the order of the text. *)
Lemma parse_term_while_chain (items : list (addop * string)) :
  forall es pre left right o a fuel,
    numeral a -> numerals items ->
    isinstance_Term left || isinstance_Factor left = true ->
    4 + List.length items <= fuel ->
    ends_with (chain_tree items (addop_node o left (SingleFactor (Integer a))))
      (parse_term_while fuel left right (Some (addop_text o))
         (cursor es pre (a ++ chain_text items) (Some (addop_text o)))).
Proof.
  induction items as [|[o' a'] items IH];
    intros es pre left right o a fuel Ha Hitems Hleft Hfuel;
    destruct fuel as [|[|[|[|fuel]]]]; cbn [List.length] in Hfuel; try lia.
  - cbn [chain_text chain_tree fold_left].
    destruct o; cbn [addop_text addop_node];
      (match goal with
       | |- ends_with _ (?c ?s) => outcome c s
       end);
      split; reflexivity.
  - inversion Hitems as [|i l Ha' Hitems']; subst. cbn [snd] in Ha'.
    cbn [chain_text chain_tree fold_left].
    rewrite parse_term_while_S.
    destruct o, o'; cbn [addop_text addop_node append]; do 4 step.
    all: cbv beta;
      first [ apply (IH es _ _ _ Plus a') | apply (IH es _ _ _ Minus a') ];
      first [ assumption | reflexivity | lia ].
Qed.

Lemma chain_value_calculate (items : list (addop * string)) :
  forall left v,
    numerals items -> limited items -> calculate left = Ok v ->
    calculate (chain_tree items left) = Ok (chain_value items v).
Proof.
  induction items as [|[o a] items IH]; intros left v Hitems Hlim Hleft.
  - exact Hleft.
  - inversion Hitems as [|i l Ha Hitems']; subst. cbn [snd] in Ha.
    inversion Hlim as [|i l Hl Hlim']; subst. cbn [snd] in Hl.
    cbn [chain_tree chain_value fold_left].
    apply IH; [exact Hitems' | exact Hlim' |].
    destruct o; cbn [addop_node addop_fun calculate];
      rewrite Hleft, (numeral_int_value a Ha Hl); reflexivity.
Qed.

Lemma parse_string_chain (a : string) (items : list (addop * string)) :
  numeral a -> numerals items ->
  parse_string (a ++ chain_text items)
  = Ok (SingleRelation
          match items with
          | [] => SingleTerm (SingleFactor (Integer a))
          | _ => chain_tree items (SingleFactor (Integer a))
          end).
Proof.
  intros Ha Hitems. destruct items as [|[o a'] items].
  - cbn [chain_text]. rewrite app_empty_r. now apply parse_string_numeral.
  - inversion Hitems as [|i l Ha' Hitems']; subst. cbn [snd] in Ha'.
    pose proof (parse_term_while_chain items
                  (a ++ chain_text ((o, a') :: items))
                  ((EmptyString ++ a) ++ addop_text o)
                  (SingleFactor (Integer a)) None o a'
                  (4 + List.length items) Ha' Hitems' eq_refl (le_n _))
      as H.
    unfold ends_with in H.
    destruct (parse_term_while _ _ _ _ _) as [[e p]| |] eqn:E;
      try contradiction.
    destruct H as [-> Htok].
    eapply (parse_string_Ok _ (7 + List.length items)).
    rewrite init_cursor. cbn [Nat.add].
    rewrite parse_S, parse_relation_S.
    destruct o; cbn [chain_text addop_text append] in *.
    all: erewrite bind_Ok;
      [| rewrite parse_term_S; do 2 (erewrite bind_Ok by run); exact E].
    all: cbv beta; unfold bind, current_token; rewrite Htok.
    all: cbn [tok_eq]; unfold new, SingleRelation_new, Relation_init, asserting.
    all: cbn [chain_tree fold_left]; rewrite chain_tree_Term; reflexivity.
Qed.

Lemma evaluate_chain (a : string) (items : list (addop * string)) :
  numeral a -> numerals items -> within_limit a -> limited items ->
  evaluate (a ++ chain_text items) = Ok (chain_value items (decimal_value a)).
Proof.
  intros Ha Hitems Hl Hlim. unfold evaluate.
  rewrite (parse_string_chain a items Ha Hitems). cbn [bind_result calculate].
  destruct items as [|i items].
  - cbn [calculate chain_value fold_left]. now apply numeral_int_value.
  - apply chain_value_calculate; [exact Hitems | exact Hlim |].
    cbn [calculate]. now apply numeral_int_value.
Qed.

End ChainFacts.

(** ** What follows the lookahead is never read *)

Lemma get_app_left (s rest : string) (i : nat) :
  i < String.length s -> String.get i (s ++ rest) = String.get i s.
Proof.
  revert i; induction s as [|c s IH]; intros i Hi; simpl in *; [lia|].
  destruct i as [|i]; [reflexivity | apply IH; lia].
Qed.

Module ExtendFacts.
Import Lexer LexerFacts.

Section Extend.
Variables src rest : string.

Lemma next_number_loop_shape (fuel : nat) :
  forall number i n self',
    next_number_loop fuel number (mk src i) = Ok (n, self') ->
    exists m j, n = number ++ m /\ self' = mk src j /\ i <= j.
Proof.
  induction fuel as [|fuel IH]; intros number i n self' H; [discriminate|].
  rewrite next_number_loop_step in H.
  destruct (i <? String.length src).
  - destruct (String.get i src) as [c|]; [|discriminate].
    destruct (chr_isdigit c).
    + destruct (IH _ _ _ _ H) as (m & j & -> & -> & Hj).
      exists (chr c ++ m), j. rewrite app_assoc. repeat split. lia.
    + injection H as <- <-. exists EmptyString, i. now rewrite app_empty_r.
  - injection H as <- <-. exists EmptyString, i. now rewrite app_empty_r.
Qed.

(** A number that ends inside [src] is scanned the same way in the
    longer text. *)
Lemma next_number_loop_extend (fuel : nat) :
  forall number i n j fuel',
    next_number_loop fuel number (mk src i) = Ok (n, mk src j) ->
    j < String.length src -> j - i < fuel' ->
    next_number_loop fuel' number (mk (src ++ rest) i)
    = Ok (n, mk (src ++ rest) j).
Proof.
  induction fuel as [|fuel IH]; intros number i n j fuel' H Hj Hfuel;
    [discriminate|].
  destruct fuel' as [|fuel']; [lia|].
  rewrite next_number_loop_step in H. rewrite next_number_loop_step.
  destruct (i <? String.length src) eqn:Hin.
  - apply Nat.ltb_lt in Hin.
    rewrite (get_app_left src rest i Hin).
    assert (Hin' : (i <? String.length (src ++ rest)) = true)
      by (apply Nat.ltb_lt; rewrite length_app; lia).
    rewrite Hin'.
    destruct (String.get i src) as [c|]; [|discriminate].
    destruct (chr_isdigit c).
    + destruct (next_number_loop_shape _ _ _ _ _ H) as (m & j' & _ & E & Hle).
      injection E as <-.
      apply (IH _ _ _ _ fuel' H Hj). lia.
    + injection H as <- <-. reflexivity.
  - injection H as <- <-. apply Nat.ltb_ge in Hin. lia.
Qed.

Lemma next_token_loop_extend (fuel : nat) :
  forall i tok j fuel',
    next_token_loop fuel (mk src i) = Ok (Some tok, mk src j) ->
    j < String.length src \/ symbol_token (Some tok) ->
    String.length (src ++ rest) - i < fuel' ->
    next_token_loop fuel' (mk (src ++ rest) i)
    = Ok (Some tok, mk (src ++ rest) j).
Proof.
  induction fuel as [|fuel IH]; intros i tok j fuel' H Hj Hfuel;
    [discriminate|].
  destruct fuel' as [|fuel']; [lia|].
  rewrite next_token_loop_step in H. rewrite next_token_loop_step.
  destruct (i <? String.length src) eqn:Hin; [|discriminate].
  apply Nat.ltb_lt in Hin.
  rewrite (get_app_left src rest i Hin).
  assert (Hin' : (i <? String.length (src ++ rest)) = true)
    by (apply Nat.ltb_lt; rewrite length_app; lia).
  rewrite Hin'.
  destruct (String.get i src) as [c|] eqn:Hget; [|discriminate].
  destruct (chr_isdigit c) eqn:Hc.
  - unfold next_number in *.
    destruct (next_number_loop _ EmptyString (mk src i)) as [[n self']| |] eqn:E;
      try discriminate.
    injection H as -> ->.
    assert (Hlt : j < String.length src).
    { destruct Hj as [Hj|(c' & Hc' & Hallowed)]; [exact Hj|].
      exfalso.
      unfold remaining in E; cbn [source index] in E.
      rewrite next_number_loop_step in E.
      rewrite (proj2 (Nat.ltb_lt _ _) Hin), Hget, Hc in E.
      destruct (next_number_loop_shape _ _ _ _ _ E) as (m & j' & Hn & _).
      injection Hc' as Hc'. rewrite Hn in Hc'. cbn in Hc'.
      injection Hc' as -> _.
      destruct (allowed_not_digit c' Hallowed) as [Hd _]. congruence. }
    rewrite (next_number_loop_extend _ _ _ _ _ _ E Hlt); [reflexivity|].
    unfold remaining; cbn [source index]. rewrite length_app. lia.
  - destruct (is_allowed c); [injection H as <- <-; reflexivity|].
    destruct (Ascii.eqb c " "); [|discriminate].
    apply (IH _ _ _ fuel' H Hj). rewrite length_app in *. lia.
Qed.

(** A token that ends inside [src], or is a symbol, is the token the
    scanner returns on the longer text. *)
Lemma next_token_extend (i : nat) (tok : string) (j : nat) :
  next_token (mk src i) = Ok (Some tok, mk src j) ->
  j < String.length src \/ symbol_token (Some tok) ->
  next_token (mk (src ++ rest) i) = Ok (Some tok, mk (src ++ rest) j).
Proof.
  intros H Hj. unfold next_token in *.
  apply (next_token_loop_extend _ _ _ _ _ H Hj).
  unfold remaining; cbn [source index]. lia.
Qed.

End Extend.
End ExtendFacts.

Module IgnoreFacts.
Import Parser ParserFacts.

Section Ignore.
Variables src rest : string.

Lemma moved_refl p : moved src p p.
Proof. split; auto. Qed.

Lemma moved_trans p p1 p2 : moved src p p1 -> moved src p1 p2 -> moved src p p2.
Proof.
  intros [Hs1 H1] [Hs2 H2]. split; [congruence|].
  destruct H1 as [->|[H1|H1]]; [exact H2|..];
    (destruct H2 as [->|[H2|H2]]; [auto | right; left; lia | auto]).
Qed.

Lemma settled_back p p' : moved src p p' -> settled src p' -> settled src p.
Proof.
  intros [_ [->|[H|[Htok H]]]] Hs; [exact Hs|..].
  - left. destruct Hs as [Hs|Hs]; lia.
  - destruct Hs as [Hs|(c & Hc & _)]; [lia | congruence].
Qed.

Lemma tracks_ret {A} (a : A) : tracks src rest (ret a).
Proof.
  intros p _. cbn. split; [apply moved_refl|]. intros _ q Hq. now exists q.
Qed.

Lemma tracks_raise {A} (e : exn) : tracks src rest (@raise t A e).
Proof. intros p _. exact I. Qed.

Lemma tracks_new {A} (r : result A) : tracks src rest (new r).
Proof.
  intros p _. unfold new. destruct r as [a| |]; try exact I.
  split; [apply moved_refl|]. intros _ q Hq. now exists q.
Qed.

Lemma tracks_isdigit (tok : option string) : tracks src rest (isdigit tok).
Proof. destruct tok; [apply tracks_ret | apply tracks_raise]. Qed.

Lemma tracks_current_token : tracks src rest current_token.
Proof.
  intros p _. unfold current_token. split; [apply moved_refl|].
  intros _ q [Hl Ht]. exists q. rewrite Ht. repeat split; assumption.
Qed.

Lemma tracks_bind {A B} (c : M t A) (k : A -> M t B) :
  tracks src rest c -> (forall a, tracks src rest (k a)) ->
  tracks src rest (bind c k).
Proof.
  intros Hc Hk p Hsrc. specialize (Hc p Hsrc). unfold bind.
  destruct (c p) as [[a p1]| |] eqn:Ec; try exact I.
  destruct Hc as [Hm1 Hsim1].
  assert (Hsrc1 : Lexer.source (lexer p1) = src)
    by (destruct Hm1 as [-> _]; exact Hsrc).
  specialize (Hk a p1 Hsrc1).
  destruct (k a p1) as [[b p2]| |] eqn:Ek; try exact I.
  destruct Hk as [Hm2 Hsim2].
  split; [exact (moved_trans _ _ _ Hm1 Hm2)|].
  intros Hs q Hq.
  destruct (Hsim1 (settled_back _ _ Hm2 Hs) q Hq) as (q1 & Eq1 & Hq1).
  destruct (Hsim2 Hs q1 Hq1) as (q2 & Eq2 & Hq2).
  exists q2. now rewrite Eq1.
Qed.

Lemma tracks_next_token : tracks src rest next_token.
Proof.
  intros [es [s i] tk] Hsrc. cbn [lexer Lexer.source] in Hsrc. subst s.
  unfold next_token; cbn [lexer expression_string].
  pose proof (LexerFacts.next_token_outcome src i) as Ho.
  destruct (Lexer.next_token (Lexer.mk src i)) as [[[tok|] [s' j]]| |] eqn:E;
    try exact I; cbn in Ho; destruct Ho as (-> & Hj).
  - split; [split; [reflexivity | right; left; cbn; lia]|].
    intros Hs [es' lq tq] [Hl _]. cbn [lexer token Lexer.index] in *. subst lq.
    rewrite (ExtendFacts.next_token_extend src rest i tok j E Hs).
    eexists. split; [reflexivity|]. split; reflexivity.
  - split; [split; [reflexivity | right; right; cbn; split; [reflexivity|lia]]|].
    intros [Hs|(c & Hc & _)]; cbn in *; [lia | discriminate].
Qed.

Ltac tracks_step :=
  first
    [ apply tracks_bind; [|intros ?]
    | apply tracks_new | apply tracks_ret | apply tracks_raise
    | apply tracks_isdigit | apply tracks_current_token
    | apply tracks_next_token
    | assumption
    | match goal with
      | |- tracks _ _ (if ?b then _ else _) => destruct b
      | |- tracks _ _ (match ?r with None => _ | Some _ => _ end) => destruct r
      | H : forall l r tk, tracks _ _ (_ l r tk) |- _ => apply H
      end ].

Lemma rules_tracked (fuel : nat) : rules_track src rest fuel.
Proof.
  induction fuel as [|fuel IH].
  - repeat split; intros; intros p _; exact I.
  - destruct IH as (Hp & Hr & Ht & Htw & Hf & Hfw & Hpr).
    repeat split; intros.
    + rewrite parse_S. exact Hr.
    + rewrite parse_relation_S. repeat tracks_step.
    + rewrite parse_term_S. repeat tracks_step.
    + rewrite parse_term_while_S. repeat tracks_step.
    + rewrite parse_factor_S. repeat tracks_step.
    + rewrite parse_factor_while_S. repeat tracks_step.
    + rewrite parse_primary_S. repeat tracks_step.
Qed.

End Ignore.

(** If parsing [s] leaves a lookahead that does not depend on what
    follows [s], then parsing [s ++ rest] yields the same tree: the text
    behind the lookahead token is never read. *)
Theorem parse_ignores_rest (s rest : string) (tree : Expression) (p : t) :
  parse (fuel_for s) (__init__ s) = Ok (tree, p) ->
  settled s p ->
  parse_string (s ++ rest) = Ok tree.
Proof.
  intros Hrun Hs.
  destruct (rules_tracked s rest (fuel_for s)) as (Hp & _).
  specialize (Hp (__init__ s) eq_refl). rewrite Hrun in Hp.
  destruct Hp as [_ Hsim].
  destruct (Hsim Hs (__init__ (s ++ rest))) as (q' & Hq & _).
  { split; reflexivity. }
  exact (parse_string_Ok _ _ _ _ Hq).
Qed.

End IgnoreFacts.

(** ** Sums, products and comparisons of numerals *)

Lemma numeral_literal (d : string) :
  match d with EmptyString => false | _ => all_chars is_decimal d end = true ->
  numeral d.
Proof.
  destruct d as [|c d]; [discriminate|]. intros H. split; [discriminate | exact H].
Qed.

Lemma parse_sum_with_product (a b c : string) :
  numeral a -> numeral b -> numeral c ->
  parse_string (a ++ "+" ++ b ++ "*" ++ c)
  = Ok (SingleRelation
          (AddTerm (SingleFactor (Integer a))
                   (Factor (Integer b) (Integer c)))).
Proof. intros Ha Hb Hc. Run.from_start 9. Run.run. Qed.

Lemma parse_product_of_sum (a b c : string) :
  numeral a -> numeral b -> numeral c ->
  parse_string ("(" ++ a ++ "+" ++ b ++ ")*" ++ c)
  = Ok (SingleRelation
          (SingleTerm
             (Factor
                (Parenthesized
                   (SingleRelation
                      (AddTerm (SingleFactor (Integer a))
                               (SingleFactor (Integer b)))))
                (Integer c)))).
Proof. intros Ha Hb Hc. Run.from_start 14. Run.run. Qed.

Lemma parse_comparison (sym : ascii) (node : Expression -> Expression -> Expression)
    (a b : string) :
  (sym = "<"%char /\ node = Less) \/ (sym = ">"%char /\ node = Greater)
  \/ (sym = "="%char /\ node = Equal) ->
  numeral a -> numeral b ->
  parse_string (a ++ String sym b)
  = Ok (node (SingleTerm (SingleFactor (Integer a)))
             (SingleTerm (SingleFactor (Integer b)))).
Proof.
  intros [[-> ->]|[[-> ->]|[-> ->]]] Ha Hb; Run.from_start 9; Run.run.
Qed.

(** After the second term of a comparison nothing is read: a second
    relational operator stays in the lookahead, and the text behind it is
    never scanned. *)
Lemma relation_stops_after_second_term (a b rest : string) :
  numeral a -> numeral b ->
  parse_string (a ++ "<" ++ b ++ "<" ++ rest)
  = Ok (Less (SingleTerm (SingleFactor (Integer a)))
             (SingleTerm (SingleFactor (Integer b)))).
Proof. intros Ha Hb. Run.from_start 9. Run.run. Qed.

(** ** The end of the input *)

Lemma next_tokens_exhausted (n : nat) (self : Lexer.t) :
  exhausted self -> next_tokens n self = Ok (repeat None n, self).
Proof.
  intros H. induction n as [|n IH]; [reflexivity|].
  cbn [next_tokens repeat]. unfold bind.
  destruct self as [src i]. unfold exhausted in H; cbn in H.
  rewrite (LexerFacts.next_token_exhausted src i H), IH. reflexivity.
Qed.

Lemma exhausted_after_None (self0 self : Lexer.t) :
  Lexer.next_token self0 = Ok (None, self) -> exhausted self.
Proof.
  intros H. destruct self0 as [src i].
  pose proof (LexerFacts.next_token_outcome src i) as Ho.
  rewrite H in Ho. cbn in Ho. destruct Ho as (Hs & _ & Hlen).
  unfold exhausted. now rewrite Hs.
Qed.

(** Whatever was parsed before, [parse_primary] on an exhausted scanner
    raises the [AttributeError] of [None.isdigit()]. *)
Lemma parse_primary_exhausted (fuel : nat) (self : Parser.t) :
  exhausted (Parser.lexer self) ->
  Parser.parse_primary (S fuel) self
  = Raise (AttributeError "'NoneType' object has no attribute 'isdigit'").
Proof.
  intros H. rewrite ParserFacts.parse_primary_S.
  destruct self as [es [src i] tok]. unfold exhausted in H; cbn in H.
  unfold bind, Parser.next_token; cbn [Parser.lexer Parser.expression_string].
  now rewrite (LexerFacts.next_token_exhausted src i H).
Qed.

(** * The claims *)

(** C1, as amended.  Rendering the parse of [1+2*3] yields exactly
    [AddTerm(SingleFactor(Integer(1)),Factor(Integer(2),Integer(3)))]
    inside the top-level [SingleRelation(...)] wrapper: the first operand
    of a product is the bare primary, and [SingleFactor] wraps a primary
    only when no [*] follows it. *)
Theorem C1_render_sum_with_product :
  render "1+2*3"
  = Ok "SingleRelation(AddTerm(SingleFactor(Integer(1)),Factor(Integer(2),Integer(3))))".
Proof. vm_compute. reflexivity. Qed.

(** C1, as stated, fails: the rendering of the parse of [1+2*3] is not
    the golden string in its [SingleRelation(...)] wrapper, and the golden
    string occurs nowhere in it, whatever is put around it. *)
Lemma C1_golden_string_not_rendered :
  render "1+2*3"
  <> Ok "SingleRelation(AddTerm(SingleFactor(Integer(1)),Factor(SingleFactor(Integer(2)),Integer(3))))"
  /\ ~ (exists pre post : string,
          render "1+2*3"
          = Ok (pre
                ++ "AddTerm(SingleFactor(Integer(1)),Factor(SingleFactor(Integer(2)),Integer(3)))"
                ++ post)).
Proof.
  split.
  - vm_compute. discriminate.
  - intros (pre & post & H).
    assert (Hr : render "1+2*3"
                 = Ok "SingleRelation(AddTerm(SingleFactor(Integer(1)),Factor(Integer(2),Integer(3))))")
      by (vm_compute; reflexivity).
    rewrite Hr in H.
    assert (Ho : occurs
                   "AddTerm(SingleFactor(Integer(1)),Factor(SingleFactor(Integer(2)),Integer(3)))"
                   "SingleRelation(AddTerm(SingleFactor(Integer(1)),Factor(Integer(2),Integer(3))))"
                 = true)
      by (apply (occurs_in _ pre _ post); congruence).
    vm_compute in Ho. discriminate.
Qed.

(** C2, on the code.  With the input exhausted where a primary must
    start, in [1+] and in the empty text, parsing stops with the
    [AttributeError] of [None.isdigit()], not with a [SyntaxError]; the
    sibling test for the closing parenthesis does report an exhausted
    input as a [SyntaxError]. *)
Theorem C2_exhausted_primary_raises_AttributeError :
  parse_string "1+"
  = Raise (AttributeError "'NoneType' object has no attribute 'isdigit'")
  /\ parse_string EmptyString
     = Raise (AttributeError "'NoneType' object has no attribute 'isdigit'")
  /\ parse_string "(1" = Raise (SyntaxError "Expected ')', got 'None'").
Proof. repeat split; vm_compute; reflexivity. Qed.

(** C3.  Multiplication binds tighter than addition and parentheses
    override it: [2+3*4] evaluates to 14 and [(2+3)*4] to 20; for all
    numerals [a], [b], [c] the text [a+b*c] parses to the sum of [a] and
    the product [b*c], and the text [(a+b)*c] to the product of the
    parenthesized sum and [c]; and when [int] converts the three numerals
    (none is longer than [int_max_str_digits]) the first evaluates to
    [a + b * c] and the second to [(a + b) * c]. *)
Theorem C3_precedence :
  (evaluate "2+3*4" = Ok 14%Z /\ evaluate "(2+3)*4" = Ok 20%Z)
  /\ (forall a b c : string,
        numeral a -> numeral b -> numeral c ->
        (parse_string (a ++ "+" ++ b ++ "*" ++ c)
         = Ok (SingleRelation
                 (AddTerm (SingleFactor (Integer a))
                          (Factor (Integer b) (Integer c))))
         /\ parse_string ("(" ++ a ++ "+" ++ b ++ ")*" ++ c)
            = Ok (SingleRelation
                    (SingleTerm
                       (Factor
                          (Parenthesized
                             (SingleRelation
                                (AddTerm (SingleFactor (Integer a))
                                         (SingleFactor (Integer b)))))
                          (Integer c)))))
        /\ (within_limit a -> within_limit b -> within_limit c ->
            evaluate (a ++ "+" ++ b ++ "*" ++ c)
            = Ok (decimal_value a + decimal_value b * decimal_value c)%Z
            /\ evaluate ("(" ++ a ++ "+" ++ b ++ ")*" ++ c)
               = Ok ((decimal_value a + decimal_value b) * decimal_value c)%Z)).
Proof.
  split; [split; vm_compute; reflexivity|].
  intros a b c Ha Hb Hc.
  pose proof (parse_sum_with_product a b c Ha Hb Hc) as H1.
  pose proof (parse_product_of_sum a b c Ha Hb Hc) as H2.
  split; [split; assumption|].
  intros La Lb Lc. unfold evaluate. rewrite H1, H2.
  cbn [bind_result calculate].
  rewrite !numeral_int_value by assumption. split; reflexivity.
Qed.

Lemma C3_precedence_witness :
  numeral "5" /\ numeral "6" /\ numeral "7"
  /\ within_limit "5" /\ within_limit "6" /\ within_limit "7"
  /\ evaluate "5+6*7" = Ok 47%Z /\ evaluate "(5+6)*7" = Ok 77%Z.
Proof.
  assert (H5 : numeral "5") by (apply numeral_literal; reflexivity).
  assert (H6 : numeral "6") by (apply numeral_literal; reflexivity).
  assert (H7 : numeral "7") by (apply numeral_literal; reflexivity).
  assert (L5 : within_limit "5") by (apply literal_within_limit; reflexivity).
  assert (L6 : within_limit "6") by (apply literal_within_limit; reflexivity).
  assert (L7 : within_limit "7") by (apply literal_within_limit; reflexivity).
  split; [exact H5 | split; [exact H6 | split; [exact H7 |]]].
  split; [exact L5 | split; [exact L6 | split; [exact L7 |]]].
  exact (proj2 (proj2 C3_precedence "5" "6" "7" H5 H6 H7) L5 L6 L7).
Defined.

(** C4.  Additive chains are folded to the left in the order of the
    text: [10-3-2] evaluates to 5, not 9; every chain
    [a op1 a1 op2 a2 ...] of numerals with [+] and [-] parses to the left
    fold of its operands; and when [int] converts the numerals (none is
    longer than [int_max_str_digits]) the chain evaluates to the left fold
    of their values. *)
Theorem C4_left_associative :
  (evaluate "10-3-2" = Ok 5%Z /\ evaluate "10-3-2" <> Ok 9%Z)
  /\ (forall (a : string) (items : list (addop * string)),
        numeral a -> numerals items ->
        parse_string (a ++ chain_text items)
        = Ok (SingleRelation
                match items with
                | [] => SingleTerm (SingleFactor (Integer a))
                | _ => chain_tree items (SingleFactor (Integer a))
                end)
        /\ (within_limit a -> limited items ->
            evaluate (a ++ chain_text items)
            = Ok (chain_value items (decimal_value a)))).
Proof.
  split; [split; vm_compute; [reflexivity | discriminate]|].
  intros a items Ha Hitems. split.
  - now apply ChainFacts.parse_string_chain.
  - intros Hl Hlim. now apply ChainFacts.evaluate_chain.
Qed.

Lemma C4_left_associative_witness :
  numeral "10" /\ numerals [(Minus, "3"); (Minus, "2")]
  /\ within_limit "10" /\ limited [(Minus, "3"); (Minus, "2")]
  /\ evaluate "10-3-2" = Ok ((10 - 3) - 2)%Z.
Proof.
  assert (H10 : numeral "10") by (apply numeral_literal; reflexivity).
  assert (Hitems : numerals [(Minus, "3"); (Minus, "2")])
    by (repeat constructor; apply numeral_literal; reflexivity).
  assert (L10 : within_limit "10") by (apply literal_within_limit; reflexivity).
  assert (Litems : limited [(Minus, "3"); (Minus, "2")])
    by (repeat constructor; apply literal_within_limit; reflexivity).
  split; [exact H10 | split; [exact Hitems |]].
  split; [exact L10 | split; [exact Litems |]].
  exact (proj2 (proj2 C4_left_associative "10" [(Minus, "3"); (Minus, "2")]
                  H10 Hitems) L10 Litems).
Defined.

(** C5.  A [Less], [Greater] or [Equal] node whose operands evaluate to
    [a] and [b] evaluates to the integer 1 when the comparison of [a] and
    [b] holds and to the integer 0 when it does not; [3<5] evaluates to 1,
    [3>5] to 0 and [4=4] to 1, and so does every comparison of two
    numerals that [int] converts (neither is longer than
    [int_max_str_digits]). *)
Theorem C5_relation_truth_flag :
  (evaluate "3<5" = Ok 1%Z /\ evaluate "3>5" = Ok 0%Z /\ evaluate "4=4" = Ok 1%Z)
  /\ (forall (l r : Expression) (a b : Z),
        calculate l = Ok a -> calculate r = Ok b ->
        ((a < b)%Z -> calculate (Less l r) = Ok 1%Z)
        /\ (~ (a < b)%Z -> calculate (Less l r) = Ok 0%Z)
        /\ ((a > b)%Z -> calculate (Greater l r) = Ok 1%Z)
        /\ (~ (a > b)%Z -> calculate (Greater l r) = Ok 0%Z)
        /\ (a = b -> calculate (Equal l r) = Ok 1%Z)
        /\ (a <> b -> calculate (Equal l r) = Ok 0%Z))
  /\ (forall x y : string,
        numeral x -> numeral y -> within_limit x -> within_limit y ->
        evaluate (x ++ "<" ++ y)
        = Ok (if (decimal_value x <? decimal_value y)%Z then 1 else 0)%Z
        /\ evaluate (x ++ ">" ++ y)
           = Ok (if (decimal_value x >? decimal_value y)%Z then 1 else 0)%Z
        /\ evaluate (x ++ "=" ++ y)
           = Ok (if (decimal_value x =? decimal_value y)%Z then 1 else 0)%Z).
Proof.
  split; [repeat split; vm_compute; reflexivity|]. split.
  - intros l r a b Hl Hr. cbn [calculate]. rewrite Hl, Hr.
    cbn [binary bind_result]. unfold flag.
    repeat split; intros H.
    + now rewrite (proj2 (Z.ltb_lt a b) H).
    + now rewrite (proj2 (Z.ltb_nlt a b) H).
    + rewrite Z.gtb_ltb. apply Z.gt_lt in H. now rewrite (proj2 (Z.ltb_lt b a) H).
    + rewrite Z.gtb_ltb.
      assert (H' : ~ (b < a)%Z) by (intros Hlt; apply H; now apply Z.lt_gt).
      now rewrite (proj2 (Z.ltb_nlt b a) H').
    + now rewrite (proj2 (Z.eqb_eq a b) H).
    + now rewrite (proj2 (Z.eqb_neq a b) H).
  - intros x y Hx Hy Lx Ly. unfold evaluate. cbn [append].
    rewrite (parse_comparison "<" Less x y) by auto.
    rewrite (parse_comparison ">" Greater x y) by auto.
    rewrite (parse_comparison "=" Equal x y) by auto.
    cbn [bind_result calculate].
    rewrite !numeral_int_value by assumption.
    repeat split; reflexivity.
Qed.

Lemma C5_relation_truth_flag_witness :
  calculate (Integer "3") = Ok 3%Z /\ calculate (Integer "5") = Ok 5%Z
  /\ (3 < 5)%Z /\ calculate (Less (Integer "3") (Integer "5")) = Ok 1%Z.
Proof.
  assert (H3 : calculate (Integer "3") = Ok 3%Z) by reflexivity.
  assert (H5 : calculate (Integer "5") = Ok 5%Z) by reflexivity.
  assert (Hlt : (3 < 5)%Z) by lia.
  split; [exact H3 | split; [exact H5 | split; [exact Hlt |]]].
  exact (proj1 (proj1 (proj2 C5_relation_truth_flag)
                  (Integer "3") (Integer "5") 3%Z 5%Z H3 H5) Hlt).
Defined.

(** C6, as amended.  For every integer [n] with [0 <= n < 10 ^ 4300],
    that is, of at most [int_max_str_digits] digits, [str(n)] is a string,
    and parsing it and evaluating the tree returns [n]. *)
Theorem C6_str_round_trip (n : Z) :
  (0 <= n < 10 ^ Z.of_nat int_max_str_digits)%Z ->
  exists s, str n = Ok s /\ evaluate s = Ok n.
Proof.
  intros Hn. exists (decimal_string n). split.
  - apply str_Ok. lia.
  - rewrite evaluate_numeral.
    + now rewrite decimal_string_value_of by lia.
    + apply decimal_string_numeral. lia.
    + apply decimal_string_short; [exact Hn | unfold int_max_str_digits; lia].
Qed.

Lemma C6_str_round_trip_witness :
  (0 <= 2026 < 10 ^ Z.of_nat int_max_str_digits)%Z
  /\ exists s, str 2026 = Ok s /\ evaluate s = Ok 2026%Z.
Proof.
  assert (H : (0 <= 2026 < 10 ^ Z.of_nat int_max_str_digits)%Z).
  { split; [lia|]. apply Z.lt_le_trans with (10 ^ 4)%Z; [reflexivity|].
    apply Z.pow_le_mono_r; [lia|]. apply (inj_le 4). apply Nat.leb_le.
    reflexivity. }
  split; [exact H | exact (C6_str_round_trip 2026%Z H)].
Defined.

(** C6, as stated, fails: [10 ^ 4300] is a non-negative integer, yet
    [str] raises on it; and its decimal numeral, a one and 4300 zeros,
    parses, but the evaluation of the tree raises the [ValueError] of
    [int]. *)
Lemma C6_round_trip_fails_beyond_the_limit :
  (0 <= 10 ^ Z.of_nat int_max_str_digits)%Z
  /\ bind_result (str (10 ^ Z.of_nat int_max_str_digits)) evaluate
     <> Ok (10 ^ Z.of_nat int_max_str_digits)%Z
  /\ numeral (String "1" (replicate int_max_str_digits "0"))
  /\ decimal_value (String "1" (replicate int_max_str_digits "0"))
     = (10 ^ Z.of_nat int_max_str_digits)%Z
  /\ evaluate (String "1" (replicate int_max_str_digits "0"))
     = Raise (ValueError "Exceeds the limit (4300 digits) for integer string conversion: value has 4301 digits; use sys.set_int_max_str_digits() to increase the limit").
Proof.
  destruct (numeral_power_of_ten int_max_str_digits) as [Hnum Hval].
  pose proof (Z.pow_nonneg 10 (Z.of_nat int_max_str_digits)) as Hpos.
  split; [lia|]. split; [|split; [exact Hnum | split; [exact Hval|]]].
  - rewrite str_Raise by (rewrite Z.abs_eq; lia). discriminate.
  - rewrite (evaluate_numeral_beyond _ Hnum).
    + cbn [String.length]. rewrite length_replicate. vm_compute. reflexivity.
    + unfold within_limit. cbn [String.length]. rewrite length_replicate. lia.
Qed.

(** C7.  Tokens left over after a complete top-level expression are
    ignored without an error: parsing [1<2<3] succeeds with the tree of
    [1<2]; the parser stops with the second [<] in the lookahead and the
    cursor in front of [3], which is never scanned; and whatever text
    follows [1<2<], the tree is the same. *)
Theorem C7_trailing_tokens_ignored :
  parse_string "1<2<3"
  = Ok (Less (SingleTerm (SingleFactor (Integer "1")))
             (SingleTerm (SingleFactor (Integer "2"))))
  /\ parse_string "1<2" = parse_string "1<2<3"
  /\ render "1<2<3"
     = Ok "Less(SingleTerm(SingleFactor(Integer(1))),SingleTerm(SingleFactor(Integer(2))))"
  /\ Parser.parse (Parser.fuel_for "1<2<3") (Parser.__init__ "1<2<3")
     = Ok (Less (SingleTerm (SingleFactor (Integer "1")))
                (SingleTerm (SingleFactor (Integer "2"))),
           Parser.mk "1<2<3" (Lexer.mk "1<2<3" 4) (Some "<"))
  /\ (forall rest : string,
        parse_string ("1<2<" ++ rest)
        = Ok (Less (SingleTerm (SingleFactor (Integer "1")))
                   (SingleTerm (SingleFactor (Integer "2"))))).
Proof.
  repeat split; try (vm_compute; reflexivity).
  intros rest. apply (IgnoreFacts.parse_ignores_rest "1<2<" rest _
    (Parser.mk "1<2<" (Lexer.mk "1<2<" 4) (Some "<"))).
  - vm_compute. reflexivity.
  - right. exists "<"%char. split; reflexivity.
Qed.

(** C8, on the code.  The superscript two (code point 178) is not a
    decimal digit, not one of the eight symbols and not a space, yet the
    scanner raises no [LexicalError] on it: [str.isdigit] holds of it,
    [next_token] returns it as a number token, the parser builds an
    [Integer] from it, and the evaluation fails in [int] with a
    [ValueError]. *)
Theorem C8_superscript_digit_scanned_as_number :
  is_decimal "178" = false /\ is_allowed "178" = false
  /\ Ascii.eqb "178" " " = false
  /\ Lexer.next_token (Lexer.__init__ (String "178" EmptyString))
     = Ok (Some (String "178" EmptyString),
           Lexer.mk (String "178" EmptyString) 1)
  /\ parse_string (String "178" EmptyString)
     = Ok (SingleRelation
             (SingleTerm (SingleFactor (Integer (String "178" EmptyString)))))
  /\ evaluate (String "178" EmptyString)
     = Raise (ValueError
                ("invalid literal for int() with base 10: '"
                 ++ String "178" EmptyString ++ "'")).
Proof. repeat split; vm_compute; reflexivity. Qed.

(** What the scanner does on the other characters: a character on which
    [str.isdigit] is false, that is no symbol and no space, raises a
    [LexicalError] that carries it, as soon as the cursor reaches it. *)
Lemma scanner_rejects_other_characters (src : string) (i : nat) (c : ascii) :
  String.get i src = Some c ->
  chr_isdigit c = false -> is_allowed c = false -> c <> " "%char ->
  Lexer.next_token (Lexer.mk src i)
  = Raise (LexicalError ("Invalid symbol: " ++ chr c)).
Proof. apply LexerFacts.next_token_invalid. Qed.

Lemma parse_rejects_ampersand :
  parse_string "1&2" = Raise (LexicalError "Invalid symbol: &").
Proof. vm_compute. reflexivity. Qed.

(** C9.  Once the input is exhausted (the cursor is at or behind the
    end of the text, or a call has returned [None]), any number [n] of
    further calls of [next_token] return [None] each, raise nothing, and
    leave the scanner as it is. *)
Theorem C9_end_of_input_idempotent (self : Lexer.t) (n : nat) :
  exhausted self
  \/ (exists self0, Lexer.next_token self0 = Ok (None, self)) ->
  next_tokens n self = Ok (repeat None n, self).
Proof.
  intros [H|(self0 & H)]; apply next_tokens_exhausted;
    [exact H | exact (exhausted_after_None self0 self H)].
Qed.

Lemma C9_end_of_input_idempotent_witness :
  exhausted (Lexer.mk "1+" 2)
  /\ next_tokens 3 (Lexer.mk "1+" 2)
     = Ok ([None; None; None], Lexer.mk "1+" 2).
Proof.
  assert (H : exhausted (Lexer.mk "1+" 2)) by (unfold exhausted; simpl; lia).
  split; [exact H |].
  exact (C9_end_of_input_idempotent (Lexer.mk "1+" 2) 3 (or_introl H)).
Defined.

(** C10, as amended.  For every non-empty run [d] of the characters
    [0]..[9], leading zeros included, parsing [d] succeeds with the tree
    of the one [Integer] literal [d].  When [d] has at most
    [int_max_str_digits] characters, leading zeros counted, evaluating the
    tree returns the decimal value of [d], and a leading zero does not
    change it: [007] evaluates to 7.  When [d] has more, the evaluation
    raises a [ValueError]. *)
Theorem C10_digit_runs :
  evaluate "007" = Ok 7%Z
  /\ (forall d : string,
        numeral d ->
        parse_string d
        = Ok (SingleRelation (SingleTerm (SingleFactor (Integer d))))
        /\ (within_limit d -> evaluate d = Ok (decimal_value d))
        /\ (within_limit (String "0" d) ->
            evaluate (String "0" d) = evaluate d)
        /\ (~ within_limit d -> exists msg, evaluate d = Raise (ValueError msg))).
Proof.
  split; [vm_compute; reflexivity|].
  intros d Hd. split; [|split; [|split]].
  - now apply parse_string_numeral.
  - intros Hl. now apply evaluate_numeral.
  - intros Hl.
    assert (Hl' : within_limit d)
      by (unfold within_limit in *; cbn [String.length] in Hl; lia).
    rewrite (evaluate_numeral _ (numeral_cons_zero d Hd) Hl),
      (evaluate_numeral d Hd Hl').
    now rewrite decimal_value_cons_zero.
  - intros Hl. eexists. now apply evaluate_numeral_beyond.
Qed.

Lemma C10_digit_runs_witness :
  numeral "0042" /\ within_limit "0042" /\ within_limit "00042"
  /\ evaluate "0042" = Ok 42%Z /\ evaluate "00042" = Ok 42%Z.
Proof.
  assert (H : numeral "0042") by (apply numeral_literal; reflexivity).
  assert (L : within_limit "0042") by (apply literal_within_limit; reflexivity).
  assert (L0 : within_limit "00042") by (apply literal_within_limit; reflexivity).
  split; [exact H | split; [exact L | split; [exact L0 |]]].
  destruct (proj2 C10_digit_runs "0042" H) as (_ & Hv & Hz & _).
  split; [exact (Hv L) | exact (eq_trans (Hz L0) (Hv L))].
Defined.

(** C10, as stated, fails: leading zeros do cause an error.  The run of
    4300 zeros and a seven is a non-empty run of decimal digits of value
    7, and [7] alone evaluates to 7, yet the evaluation of the run raises
    the [ValueError] of [int]. *)
Lemma C10_leading_zeros_raise :
  numeral (replicate int_max_str_digits "0" ++ "7")
  /\ decimal_value (replicate int_max_str_digits "0" ++ "7") = 7%Z
  /\ evaluate "7" = Ok 7%Z
  /\ evaluate (replicate int_max_str_digits "0" ++ "7")
     = Raise (ValueError "Exceeds the limit (4300 digits) for integer string conversion: value has 4301 digits; use sys.set_int_max_str_digits() to increase the limit")
  /\ evaluate (replicate int_max_str_digits "0" ++ "7")
     <> Ok (decimal_value (replicate int_max_str_digits "0" ++ "7")).
Proof.
  assert (H7 : numeral "7") by (apply numeral_literal; reflexivity).
  pose proof (numeral_zeros int_max_str_digits "7" H7) as Hnum.
  assert (Hraise :
    evaluate (replicate int_max_str_digits "0" ++ "7")
    = Raise (ValueError "Exceeds the limit (4300 digits) for integer string conversion: value has 4301 digits; use sys.set_int_max_str_digits() to increase the limit")).
  { rewrite (evaluate_numeral_beyond _ Hnum).
    - rewrite length_app, length_replicate. vm_compute. reflexivity.
    - unfold within_limit. rewrite length_app, length_replicate.
      cbn [String.length]. lia. }
  split; [exact Hnum | split; [|split; [|split]]].
  - now rewrite decimal_value_zeros.
  - vm_compute. reflexivity.
  - exact Hraise.
  - rewrite Hraise. discriminate.
Qed.

(** * Further properties *)

(** ** The scanner against its structural description *)

Module ScanFacts.
Import Lexer LexerFacts.

Lemma take_drop_digits (u : string) : take_digits u ++ drop_digits u = u.
Proof.
  induction u as [|c u IH]; [reflexivity|]. cbn.
  destruct (chr_isdigit c); [cbn; now rewrite IH | reflexivity].
Qed.

Lemma length_drop_digits (u : string) :
  String.length (take_digits u) + String.length (drop_digits u) = String.length u.
Proof. rewrite <- length_app, take_drop_digits. reflexivity. Qed.

Lemma take_digits_all (u : string) : all_chars chr_isdigit (take_digits u) = true.
Proof.
  induction u as [|c u IH]; [reflexivity|]. cbn.
  destruct (chr_isdigit c) eqn:E; [cbn; now rewrite E, IH | reflexivity].
Qed.

Lemma drop_digits_stops (u : string) : stops_digits (drop_digits u).
Proof.
  induction u as [|c u IH]; [exact I|]. cbn.
  destruct (chr_isdigit c) eqn:E; [exact IH | exact E].
Qed.

(** [next_number] reads exactly the digits in front of the cursor. *)
Lemma next_number_loop_digits (u : string) :
  forall (pre number : string) (fuel : nat),
    String.length u < fuel ->
    next_number_loop fuel number (mk (pre ++ u) (String.length pre))
    = Ok (number ++ take_digits u, lexer_at pre u (drop_digits u)).
Proof.
  intros pre number fuel Hfuel.
  pose proof (next_number_loop_run (take_digits u) pre (drop_digits u) number
                fuel (take_digits_all u) (drop_digits_stops u)) as H.
  rewrite take_drop_digits in H. rewrite H.
  - unfold lexer_at. do 3 f_equal. rewrite length_app.
    pose proof (length_drop_digits u). lia.
  - pose proof (length_drop_digits u). lia.
Qed.

(** The scanner of the program, at a cursor with the text [u] unread, is
    the structural scanner on [u]. *)
Lemma next_token_loop_lex (u : string) :
  forall (pre : string) (fuel : nat),
    String.length u < fuel ->
    next_token_loop fuel (mk (pre ++ u) (String.length pre)) = lex_outcome pre u.
Proof.
  induction u as [|c u IH]; intros pre fuel Hfuel;
    (destruct fuel as [|fuel]; [cbn in Hfuel; lia|]);
    rewrite next_token_loop_step.
  - rewrite app_empty_r, Nat.ltb_irrefl. unfold lex_outcome, lexer_at. cbn.
    now rewrite app_empty_r, Nat.sub_0_r.
  - rewrite in_range_at, get_app_length. unfold lex_outcome. cbn [lex].
    destruct (chr_isdigit c) eqn:Hc.
    + unfold next_number.
      rewrite next_number_loop_digits; [reflexivity|].
      unfold remaining; cbn [source index]. rewrite length_app. lia.
    + destruct (is_allowed c) eqn:Ha.
      * unfold lexer_at. do 3 f_equal. rewrite length_app. cbn. lia.
      * destruct (Ascii.eqb c " ") eqn:Hs; [|reflexivity].
        rewrite (snoc_app pre c u), <- (length_snoc pre c).
        rewrite IH by (cbn in Hfuel; lia).
        unfold lex_outcome. destruct (lex u) as [[tok u']| |]; try reflexivity.
        unfold lexer_at. now rewrite <- (snoc_app pre c u).
Qed.

Theorem next_token_is_lex (pre u : string) :
  Lexer.next_token (mk (pre ++ u) (String.length pre)) = lex_outcome pre u.
Proof.
  unfold next_token. apply next_token_loop_lex.
  unfold remaining; cbn [source index]. rewrite length_app. lia.
Qed.

Lemma all_chars_app (f : ascii -> bool) (a b : string) :
  all_chars f (a ++ b) = all_chars f a && all_chars f b.
Proof.
  induction a as [|c a IH]; [reflexivity|]. cbn. now rewrite IH, andb_assoc.
Qed.

Lemma remove_spaces_digits (d : string) :
  all_chars chr_isdigit d = true -> remove_spaces d = d.
Proof.
  induction d as [|c d IH]; [reflexivity|]. cbn.
  rewrite andb_true_iff. intros [Hc Hd].
  destruct (Ascii.eqb c " ") eqn:E.
  - apply Ascii.eqb_eq in E. subst c. discriminate.
  - now rewrite IH.
Qed.

(** What one step of the structural scanner consumes: the text [x] in
    front of the unread rest [u'] is the token, behind spaces only. *)
Lemma lex_split (u : string) :
  forall tok u',
    lex u = Ok (tok, u') ->
    exists x,
      u = x ++ u'
      /\ remove_spaces x = match tok with Some t => t | None => EmptyString end
      /\ all_chars chr_valid x = true
      /\ match tok with
         | Some t =>
             (str_isdigit t = true /\ stops_digits u') \/ symbol_token (Some t)
         | None => u' = EmptyString
         end.
Proof.
  induction u as [|c u IH]; intros tok u' H.
  - injection H as <- <-. exists EmptyString. repeat split.
  - cbn [lex] in H. destruct (chr_isdigit c) eqn:Hc.
    + injection H as <- <-. exists (take_digits (String c u)).
      pose proof (take_digits_all (String c u)) as Hall.
      repeat split.
      * now rewrite take_drop_digits.
      * now apply remove_spaces_digits.
      * apply (all_chars_impl chr_isdigit); [|exact Hall].
        intros x Hx. unfold chr_valid. now rewrite Hx.
      * left. split; [|exact (drop_digits_stops (String c u))].
        cbn [take_digits] in *. rewrite Hc in *. exact Hall.
    + destruct (is_allowed c) eqn:Ha.
      * injection H as <- <-. exists (chr c).
        destruct (allowed_not_digit c Ha) as [_ Hsp].
        repeat split.
        -- cbn. now rewrite Hsp.
        -- cbn. unfold chr_valid. now rewrite Ha, orb_true_r.
        -- right. now exists c.
      * destruct (Ascii.eqb c " ") eqn:Hs; [|discriminate].
        destruct (IH _ _ H) as (x & -> & Hrm & Hv & Htok).
        exists (String c x). repeat split.
        -- cbn. now rewrite Hs.
        -- cbn. unfold chr_valid at 1. now rewrite Hs, orb_true_r.
        -- exact Htok.
Qed.

Lemma lex_raise (u : string) (e : exn) :
  lex u = Raise e ->
  all_chars chr_valid u = false
  /\ exists c, e = LexicalError ("Invalid symbol: " ++ chr c)
              /\ chr_valid c = false.
Proof.
  induction u as [|c u IH]; [discriminate|]. cbn [lex all_chars].
  unfold chr_valid at 1.
  destruct (chr_isdigit c) eqn:Hc; [discriminate|].
  destruct (is_allowed c) eqn:Ha; [discriminate|].
  destruct (Ascii.eqb c " ") eqn:Hs.
  - intros H. destruct (IH H) as [Hv Hex]. cbn. now rewrite Hv.
  - intros [= <-]. split; [reflexivity|]. exists c. split; [reflexivity|].
    unfold chr_valid. now rewrite Hc, Ha, Hs.
Qed.

Lemma lex_raise_at (u : string) (e : exn) :
  lex u = Raise e <->
  exists c, first_char u = Some c /\ chr_valid c = false
            /\ e = LexicalError ("Invalid symbol: " ++ chr c).
Proof.
  induction u as [|c u IH].
  - split; [discriminate | intros (c & H & _); discriminate].
  - cbn [lex first_char]. destruct (Ascii.eqb c " ") eqn:Hs.
    + apply Ascii.eqb_eq in Hs as ->.
      change (chr_isdigit " ") with false. change (is_allowed " ") with false.
      cbv iota. exact IH.
    + destruct (chr_isdigit c) eqn:Hc.
      { split; [discriminate|]. intros (c' & [= <-] & Hv & _).
        unfold chr_valid in Hv. now rewrite Hc in Hv. }
      destruct (is_allowed c) eqn:Ha.
      { split; [discriminate|]. intros (c' & [= <-] & Hv & _).
        unfold chr_valid in Hv. now rewrite Ha, orb_true_r in Hv. }
      split.
      * intros [= <-]. exists c. repeat split.
        unfold chr_valid. now rewrite Hc, Ha, Hs.
      * intros (c' & [= <-] & _ & ->). reflexivity.
Qed.

Lemma first_char_spaces (u : string) :
  first_char u = None <-> remove_spaces u = EmptyString.
Proof.
  induction u as [|c u IH]; [split; reflexivity|]. cbn.
  destruct (Ascii.eqb c " "); [exact IH|]. split; discriminate.
Qed.

Lemma lex_never_out_of_fuel (u : string) : lex u <> OutOfFuel.
Proof.
  induction u as [|c u IH]; [discriminate|]. cbn [lex].
  destruct (chr_isdigit c); [discriminate|].
  destruct (is_allowed c); [discriminate|].
  destruct (Ascii.eqb c " "); [exact IH | discriminate].
Qed.

Lemma token_nonempty (t u' : string) :
  (str_isdigit t = true /\ stops_digits u') \/ symbol_token (Some t) ->
  t <> EmptyString.
Proof.
  intros [[H _]|(c & [= ->] & _)]; [|discriminate].
  destruct t; [discriminate | discriminate].
Qed.

Lemma remove_spaces_app (a b : string) :
  remove_spaces (a ++ b) = remove_spaces a ++ remove_spaces b.
Proof.
  induction a as [|c a IH]; [reflexivity|]. cbn.
  destruct (Ascii.eqb c " "); cbn; now rewrite IH.
Qed.

Lemma remove_spaces_length (a : string) :
  String.length (remove_spaces a) <= String.length a.
Proof.
  induction a as [|c a IH]; [cbn; lia|]. cbn.
  destruct (Ascii.eqb c " "); cbn; lia.
Qed.

Lemma tokenize_spec (fuel : nat) :
  forall pre u,
    String.length u < fuel ->
    match tokenize fuel (mk (pre ++ u) (String.length pre)) with
    | Ok (ts, _) =>
        join ts = remove_spaces u /\ all_chars chr_valid u = true
        /\ Forall is_token ts
    | Raise e =>
        all_chars chr_valid u = false
        /\ exists c, e = LexicalError ("Invalid symbol: " ++ chr c)
                    /\ chr_valid c = false
    | OutOfFuel => False
    end.
Proof.
  induction fuel as [|fuel IH]; intros pre u Hfuel; [lia|].
  cbn [tokenize]. unfold bind at 1. rewrite next_token_is_lex.
  unfold lex_outcome.
  destruct (lex u) as [[[t|] u']|e|] eqn:E.
  - destruct (lex_split u _ _ E) as (x & -> & Hrm & Hv & Htok).
    pose proof (token_nonempty _ _ Htok) as Hne.
    assert (Hx : 0 < String.length x).
    { pose proof (remove_spaces_length x) as Hl. rewrite Hrm in Hl.
      destruct t; [congruence | cbn in Hl; lia]. }
    unfold lexer_at. rewrite <- (app_assoc pre x u').
    replace (String.length ((pre ++ x) ++ u') - String.length u')
      with (String.length (pre ++ x)) by (rewrite (length_app (pre ++ x)); lia).
    rewrite length_app in Hfuel.
    specialize (IH (pre ++ x) u' ltac:(lia)). unfold bind.
    destruct (tokenize fuel _) as [[ts p]|e|]; cbn.
    + destruct IH as (Hj & Hv' & Hts). split; [|split].
      * cbn. now rewrite remove_spaces_app, Hrm, Hj.
      * now rewrite all_chars_app, Hv, Hv'.
      * constructor; [|exact Hts].
        destruct Htok as [[Hd _]|Hsym]; [now left | now right].
    + destruct IH as [Hv' Hex]. split; [|exact Hex].
      now rewrite all_chars_app, Hv', andb_false_r.
    + exact IH.
  - destruct (lex_split u _ _ E) as (x & -> & Hrm & Hv & ->). cbn.
    rewrite app_empty_r. split; [now rewrite Hrm | split; [exact Hv | constructor]].
  - exact (lex_raise u e E).
  - exact (lex_never_out_of_fuel u E).
Qed.

End ScanFacts.

(** ** The shape of the trees and the exceptions of the parser *)

Module ShapeFacts.
Import Parser ParserFacts.

Lemma shape_primary_fleft e : shape_primary e = true -> shape_fleft e = true.
Proof. destruct e; cbn; congruence. Qed.

Lemma shape_primary_isinstance e :
  shape_primary e = true -> isinstance_Primary e = true.
Proof. destruct e; cbn; congruence. Qed.

Lemma shape_fleft_isinstance e :
  shape_fleft e = true -> isinstance_Factor e || isinstance_Primary e = true.
Proof. destruct e; cbn; congruence. Qed.

Lemma shape_factor_isinstance e :
  shape_factor e = true -> isinstance_Factor e = true.
Proof. destruct e; cbn; congruence. Qed.

Lemma shape_factor_tleft e : shape_factor e = true -> shape_tleft e = true.
Proof. destruct e; cbn; congruence. Qed.

Lemma shape_tleft_isinstance e :
  shape_tleft e = true -> isinstance_Term e || isinstance_Factor e = true.
Proof. destruct e; cbn; congruence. Qed.

Lemma shape_term_isinstance e : shape_term e = true -> isinstance_Term e = true.
Proof. destruct e; cbn; congruence. Qed.

Lemma shape_fleft_factor e :
  shape_fleft e = true -> isinstance_Factor e = true -> shape_factor e = true.
Proof. destruct e; cbn; congruence. Qed.

Lemma shape_tleft_term e :
  shape_tleft e = true -> isinstance_Term e = true -> shape_term e = true.
Proof. destruct e; cbn; congruence. Qed.

Section Meets.
Variable src : string.
Variable lit : string -> bool.
(** The number tokens of the text [src] satisfy [lit]. *)
Hypothesis Hlit :
  forall i tok self',
    Lexer.next_token (Lexer.mk src i) = Ok (Some tok, self') ->
    str_isdigit tok = true -> lit tok = true.

Lemma meets_bind {A B} (c : M t A) (k : A -> M t B) p
    (Q1 : A -> Prop) (Q : B -> Prop) :
  meets src c p Q1 ->
  (forall a p', Q1 a -> meets src (k a) p' Q) ->
  meets src (bind c k) p Q.
Proof.
  intros Hc Hk Hsrc. specialize (Hc Hsrc). unfold bind.
  destruct (c p) as [[a p1]|e|]; [|exact Hc|exact I].
  destruct Hc as [Hsrc1 Ha]. exact (Hk a p1 Ha Hsrc1).
Qed.

Lemma meets_ret {A} (a : A) p (Q : A -> Prop) : Q a -> meets src (ret a) p Q.
Proof. intros H Hsrc. cbn. auto. Qed.

Lemma meets_raise {A} (e : exn) p (Q : A -> Prop) :
  parse_exn e -> meets src (@raise t A e) p Q.
Proof. intros H _. exact H. Qed.

Lemma meets_new {A} (b : bool) (a : A) p (Q : A -> Prop) :
  b = true -> Q a -> meets src (new (asserting b a)) p Q.
Proof. intros -> H Hsrc. cbn. auto. Qed.

Lemma meets_current_token p (Q : option string -> Prop) :
  (forall tok, Q tok) -> meets src current_token p Q.
Proof. intros H Hsrc. cbn. auto. Qed.

Lemma meets_next_token p :
  meets src next_token p
    (fun tok => forall s, tok = Some s -> str_isdigit s = true -> lit s = true).
Proof.
  intros Hsrc. destruct p as [es [s i] tk]. cbn in Hsrc. subst s.
  unfold next_token; cbn [lexer expression_string].
  pose proof (LexerFacts.next_token_outcome src i) as Ho.
  pose proof (Hlit i) as Hl.
  destruct (Lexer.next_token (Lexer.mk src i)) as [[tok self']|e|];
    cbn in Ho |- *.
  - split.
    + destruct tok; destruct Ho as [Hs _]; exact Hs.
    + intros s -> Hd. exact (Hl s self' eq_refl Hd).
  - destruct e; try contradiction. exact I.
  - exact I.
Qed.

Lemma meets_isdigit (tok : option string) p (Q : bool -> Prop) :
  (forall s, tok = Some s -> Q (str_isdigit s)) -> meets src (isdigit tok) p Q.
Proof.
  intros H. destruct tok as [s|]; [apply meets_ret; now apply H|].
  apply meets_raise. exact I.
Qed.

Lemma rules_met (fuel : nat) : rules_meet src lit fuel.
Proof.
  induction fuel as [|fuel IH].
  - repeat split; intros; intros _; exact I.
  - destruct IH as (Hp & Hr & Ht & Htw & Hf & Hfw & Hpr).
    repeat split;
      [ intros p | intros p | intros p | intros l r tk p Hl
      | intros p | intros l r tk p Hl | intros p ].
    + rewrite parse_S. apply Hr.
    + rewrite parse_relation_S.
      eapply meets_bind; [apply Ht|]. intros left p1 [Hs1 Hl1].
      eapply meets_bind; [apply meets_current_token; exact (fun _ => I)|].
      intros tok p2 _.
      pose proof (shape_term_isinstance _ Hs1) as Hi1.
      repeat match goal with
             | |- meets _ (if ?b then _ else _) _ _ => destruct b
             end;
        try (eapply meets_bind; [apply Ht|]; intros right p3 [Hs2 Hl2];
             pose proof (shape_term_isinstance _ Hs2) as Hi2);
        (apply meets_new;
         [ unfold Relation_init; now rewrite ?Hi1, ?Hi2
         | split; cbn; now rewrite ?Hs1, ?Hs2, ?Hl1, ?Hl2 ]).
    + rewrite parse_term_S.
      eapply meets_bind; [apply Hf|]. intros left p1 [Hs1 Hl1].
      eapply meets_bind; [apply meets_current_token; exact (fun _ => I)|].
      intros tok p2 _. apply Htw. split; assumption.
    + rewrite parse_term_while_S. destruct Hl as [Hlit_l Hshape].
      assert (Htl : shape_tleft l = true)
        by (destruct r; [apply Hshape | now apply shape_factor_tleft]).
      destruct (tok_in tk ["+"; "-"]) eqn:Hin.
      * eapply meets_bind; [apply Hf|]. intros right p1 [Hs2 Hl2].
        pose proof (shape_tleft_isinstance _ Htl) as Hi1.
        pose proof (shape_factor_isinstance _ Hs2) as Hi2.
        eapply meets_bind with (Q1 := fun left' => term_left lit left' (Some right)).
        { cbn in Hin.
          destruct (tok_eq tk "+"); [|destruct (tok_eq tk "-"); [|discriminate]];
            (apply meets_new; [unfold Term_init; now rewrite Hi1, Hi2|]);
            (split; cbn; [now rewrite Hlit_l, Hl2 | now rewrite Htl, Hs2]). }
        intros left' p2 Hleft'.
        eapply meets_bind; [apply meets_current_token; exact (fun _ => I)|].
        intros tok p3 _. now apply Htw.
      * destruct r as [r|].
        -- apply meets_ret. destruct Hshape as [Hs Hi].
           split; [now apply shape_tleft_term | exact Hlit_l].
        -- apply meets_new.
           ++ unfold Term_init.
              now rewrite (shape_factor_isinstance _ Hshape), orb_true_r.
           ++ split; cbn; assumption.
    + rewrite parse_factor_S.
      eapply meets_bind; [apply Hpr|]. intros left p1 [Hs1 Hl1].
      eapply meets_bind; [apply meets_next_token|]. intros tok p2 _.
      apply Hfw. split; assumption.
    + rewrite parse_factor_while_S. destruct Hl as [Hlit_l Hshape].
      assert (Hfl : shape_fleft l = true)
        by (destruct r; [apply Hshape | now apply shape_primary_fleft]).
      destruct (tok_eq tk "*").
      * eapply meets_bind; [apply Hpr|]. intros right p1 [Hs2 Hl2].
        pose proof (shape_fleft_isinstance _ Hfl) as Hi1.
        pose proof (shape_primary_isinstance _ Hs2) as Hi2.
        eapply meets_bind with (Q1 := fun left' => factor_left lit left' (Some right)).
        { apply meets_new; [unfold Factor_init; now rewrite Hi1, Hi2|].
          split; cbn; [now rewrite Hlit_l, Hl2 | now rewrite Hfl, Hs2]. }
        intros left' p2 Hleft'.
        eapply meets_bind; [apply meets_next_token|]. intros tok p3 _.
        now apply Hfw.
      * destruct r as [r|].
        -- apply meets_ret. destruct Hshape as [Hs Hi].
           split; [now apply shape_fleft_factor | exact Hlit_l].
        -- apply meets_new.
           ++ unfold Factor_init.
              now rewrite (shape_primary_isinstance _ Hshape), orb_true_r.
           ++ split; cbn; assumption.
    + rewrite parse_primary_S.
      eapply meets_bind; [apply meets_next_token|]. intros tok p1 Htok.
      destruct tok as [s|]; cbn [isdigit].
      * eapply meets_bind with (Q1 := fun d => d = str_isdigit s);
          [now apply meets_ret|].
        intros d p2 ->. destruct (str_isdigit s) eqn:Hd.
        -- apply meets_new; [exact Hd|].
           split; [reflexivity | exact (Htok s eq_refl Hd)].
        -- destruct (tok_eq (Some s) "("); [|now apply meets_raise].
           eapply meets_bind; [apply Hp|]. intros e p3 [Hs He].
           eapply meets_bind; [apply meets_current_token; exact (fun _ => I)|].
           intros tok' p4 _.
           destruct (negb _); [now apply meets_raise|].
           apply meets_new; [reflexivity | split; assumption].
      * eapply meets_bind with (Q1 := fun _ => False); [now apply meets_raise|].
        intros d p2 [].
Qed.

End Meets.

(** Every number token satisfies [str.isdigit]. *)
Lemma parse_good_isdigit (src : string) (fuel : nat) :
  rules_meet src str_isdigit fuel.
Proof. apply rules_met. intros i tok self' _ H. exact H. Qed.

Lemma split_at (s : string) (i : nat) :
  i <= String.length s ->
  exists pre u, s = pre ++ u /\ String.length pre = i.
Proof.
  revert i. induction s as [|c s IH]; intros i Hi.
  - exists EmptyString, EmptyString. cbn in *. split; [reflexivity | lia].
  - destruct i as [|i]; [now exists EmptyString, (String c s)|].
    destruct (IH i ltac:(cbn in Hi; lia)) as (pre & u & -> & Hl).
    exists (String c pre), u. cbn. split; [reflexivity | lia].
Qed.

Lemma all_chars_remove_spaces (f : ascii -> bool) (x : string) :
  all_chars f x = true -> all_chars f (remove_spaces x) = true.
Proof.
  induction x as [|c x IH]; [reflexivity|]. cbn.
  rewrite andb_true_iff. intros [Hc Hx].
  destruct (Ascii.eqb c " "); [auto | cbn; now rewrite Hc, IH].
Qed.

Lemma plain_isdigit_numeral (t : string) :
  all_chars (fun c => implb (chr_isdigit c) (is_decimal c)) t = true ->
  str_isdigit t = true -> is_numeral t = true.
Proof.
  intros Hp Hd. destruct t as [|c t]; [discriminate|].
  unfold str_isdigit in Hd. unfold is_numeral.
  revert Hp Hd. generalize (String c t). clear. intros s.
  induction s as [|c s IH]; [reflexivity|]. cbn.
  rewrite !andb_true_iff. intros [Hc Hs] [Hc' Hs']. rewrite Hc' in Hc.
  split; [exact Hc | now apply IH].
Qed.

(** In a text whose digits are all among [0]..[9], every number token
    is a numeral. *)
Lemma plain_tokens (src : string) :
  plain_digits src = true ->
  forall i tok self',
    Lexer.next_token (Lexer.mk src i) = Ok (Some tok, self') ->
    str_isdigit tok = true -> is_numeral tok = true.
Proof.
  intros Hplain i tok self' H Hd.
  destruct (Nat.le_gt_cases i (String.length src)) as [Hi|Hi].
  - destruct (split_at src i Hi) as (pre & u & -> & <-).
    rewrite ScanFacts.next_token_is_lex in H. unfold lex_outcome in H.
    destruct (lex u) as [[tk u']| |] eqn:E; try discriminate.
    injection H as -> _.
    destruct (ScanFacts.lex_split u _ _ E) as (x & -> & Hrm & _).
    apply plain_isdigit_numeral; [|exact Hd].
    rewrite <- Hrm. apply all_chars_remove_spaces.
    unfold plain_digits in Hplain.
    rewrite !ScanFacts.all_chars_app, !andb_true_iff in Hplain. tauto.
  - rewrite LexerFacts.next_token_exhausted in H by lia. discriminate.
Qed.

(** A token is not longer than the text. *)
Lemma token_length (src : string) (i : nat) (tok : string) (self' : Lexer.t) :
  Lexer.next_token (Lexer.mk src i) = Ok (Some tok, self') ->
  String.length tok <= String.length src.
Proof.
  intros H. destruct (Nat.le_gt_cases i (String.length src)) as [Hi|Hi].
  - destruct (split_at src i Hi) as (pre & u & -> & <-).
    rewrite ScanFacts.next_token_is_lex in H. unfold lex_outcome in H.
    destruct (lex u) as [[tk u']| |] eqn:E; try discriminate.
    injection H as -> _.
    destruct (ScanFacts.lex_split u _ _ E) as (x & -> & Hrm & _).
    rewrite <- Hrm. pose proof (ScanFacts.remove_spaces_length x).
    rewrite !length_app. lia.
  - rewrite LexerFacts.next_token_exhausted in H by lia. discriminate.
Qed.

(** In a text of at most [int_max_str_digits] characters whose digits
    are all among [0]..[9], [int] converts every number token. *)
Lemma short_tokens (src : string) :
  plain_digits src = true -> String.length src <= int_max_str_digits ->
  forall i tok self',
    Lexer.next_token (Lexer.mk src i) = Ok (Some tok, self') ->
    str_isdigit tok = true -> convertible tok = true.
Proof.
  intros Hplain Hlen i tok self' H Hd. unfold convertible.
  rewrite (plain_tokens src Hplain i tok self' H Hd). cbn [andb].
  apply Nat.leb_le. pose proof (token_length src i tok self' H). lia.
Qed.

Lemma parse_good_convertible (src : string) (fuel : nat) :
  plain_digits src = true -> String.length src <= int_max_str_digits ->
  rules_meet src convertible fuel.
Proof. intros H Hl. apply rules_met. now apply short_tokens. Qed.

Lemma is_numeral_numeral (d : string) : is_numeral d = true -> numeral d.
Proof. destruct d; [discriminate|]. intros H. split; [discriminate | exact H]. Qed.

Lemma convertible_numeral (d : string) :
  convertible d = true -> numeral d /\ within_limit d.
Proof.
  unfold convertible. rewrite andb_true_iff. intros [Hn Hl].
  split; [now apply is_numeral_numeral | now apply Nat.leb_le].
Qed.

(** [calculate] raises nothing on a tree whose literals [int] converts. *)
Lemma calculate_numerals (e : Expression) :
  literals convertible e = true -> exists v, calculate e = Ok v.
Proof.
  induction e as [number|e IH|l IHl r IHr|l IHl r IHr|l IHl r IHr|l IH
                 |l IHl r IHr|l IHl r IHr|l IH|l IHl r IHr|l IH];
    cbn [literals calculate]; intros H;
    try (now apply IH);
    try (apply andb_true_iff in H as [Hl Hr];
         destruct (IHl Hl) as [vl ->]; destruct (IHr Hr) as [vr ->];
         eexists; reflexivity).
  exists (decimal_value number).
  apply convertible_numeral in H as [Hn Hl]. now apply numeral_int_value.
Qed.


(** [calculate] raises nothing but the [ValueError] of [int]. *)
Lemma calculate_raises_ValueError (e : Expression) (x : exn) :
  calculate e = Raise x -> exists msg, x = ValueError msg.
Proof.
  induction e; cbn [calculate]; try assumption;
    try (unfold binary, bind_result;
         destruct (calculate e1) as [v1|x1|]; [|intros [= <-]; auto|discriminate];
         destruct (calculate e2) as [v2|x2|]; [discriminate|intros [= <-]; auto|discriminate]).
  unfold int. destruct number; [intros [= <-]; eauto|].
  destruct (all_chars _ _); [|intros [= <-]; eauto].
  destruct (_ <? _); [intros [= <-]; eauto | discriminate].
Qed.

Lemma calculate_returns_or_raises (e : Expression) : calculate e <> OutOfFuel.
Proof.
  induction e; cbn [calculate]; try assumption;
    try (unfold binary, bind_result;
         destruct (calculate e1) as [v1|x1|]; [|discriminate|congruence];
         destruct (calculate e2) as [v2|x2|]; [discriminate|discriminate|congruence]).
  unfold int. destruct number; [discriminate|].
  destruct (all_chars _ _); [|discriminate].
  destruct (_ <? _); discriminate.
Qed.

(** What a successful parse has built, and what a failing one raises. *)
Lemma parse_string_shape (s : string) :
  match parse_string s with
  | Ok tree => shape_relation tree = true /\ literals str_isdigit tree = true
  | Raise e => parse_exn e
  | OutOfFuel => False
  end.
Proof.
  unfold parse_string.
  destruct (parse_good_isdigit s (Parser.fuel_for s)) as (Hp & _).
  specialize (Hp (Parser.__init__ s) eq_refl).
  pose proof (parse_terminates s) as Hterm.
  destruct (Parser.parse _ _) as [[e p]|x|]; [|exact Hp|congruence].
  destruct Hp as (_ & Hs & Hl). now split.
Qed.

(** [int] converts the literals of the parse of a text of at most
    [int_max_str_digits] characters whose digits are all among [0]..[9]. *)
Lemma parse_string_convertible (s : string) (tree : Expression) :
  plain_digits s = true -> String.length s <= int_max_str_digits ->
  parse_string s = Ok tree ->
  literals convertible tree = true.
Proof.
  intros Hplain Hlen H. unfold parse_string in H.
  destruct (parse_good_convertible s (Parser.fuel_for s) Hplain Hlen)
    as (Hp & _).
  specialize (Hp (Parser.__init__ s) eq_refl).
  destruct (Parser.parse _ _) as [[e p]| |]; try discriminate.
  injection H as ->. apply Hp.
Qed.

End ShapeFacts.

(** ** Parsing the text of a tree *)

Module TextFacts.
Import Parser ParserFacts Run.

Lemma cursor_pre (es pre1 pre2 rest : string) (tok : option string) :
  pre1 = pre2 -> cursor es pre1 rest tok = cursor es pre2 rest tok.
Proof. now intros ->. Qed.

Lemma ahead_pre (es pre1 pre2 rest : string) :
  pre1 = pre2 -> ahead es pre1 rest = ahead es pre2 rest.
Proof. now intros ->. Qed.

Lemma follows_weaken (stop stop' : list string) (rest : string) :
  (forall x, In x stop' -> In x stop) -> follows stop rest -> follows stop' rest.
Proof.
  intros Hsub [Hs Hin]. split; [exact Hs|].
  unfold tok_in in *. destruct (existsb _ stop') eqn:E; [|reflexivity].
  apply existsb_exists in E as (x & Hx & Hx').
  assert (existsb (tok_eq (peek rest)) stop = true)
    by (apply existsb_exists; exists x; auto).
  congruence.
Qed.

Lemma follows_any (stop : list string) (rest : string) :
  follows stop rest -> follows [] rest.
Proof. apply follows_weaken. intros x []. Qed.

Lemma follows_term_factor (rest : string) :
  follows ["*"; "+"; "-"] rest -> follows ["*"] rest.
Proof. apply follows_weaken. intros x [<-|[]]. now left. Qed.

Lemma follows_not (stop : list string) (rest x : string) :
  follows stop rest -> In x stop -> tok_eq (peek rest) x = false.
Proof.
  intros [_ Hin] Hx. unfold tok_in in Hin.
  destruct (tok_eq (peek rest) x) eqn:E; [|reflexivity].
  assert (existsb (tok_eq (peek rest)) stop = true)
    by (apply existsb_exists; exists x; auto).
  congruence.
Qed.

Lemma follows_stops (stop : list string) (rest : string) :
  follows stop rest -> stops_digits rest.
Proof.
  intros [Hs _]. destruct rest as [|c rest]; [exact I|].
  exact (proj1 (LexerFacts.allowed_not_digit c Hs)).
Qed.

(** The lookahead is taken from a text that starts with a symbol. *)
Lemma look (stop : list string) (es pre rest : string) (tok : option string) :
  follows stop rest ->
  next_token (cursor es pre rest tok) = Ok (peek rest, ahead es pre rest).
Proof.
  intros [Hs _]. destruct rest as [|c rest].
  - apply cursor_end.
  - now apply cursor_symbol.
Qed.

Lemma token_ahead (es pre rest : string) : token (ahead es pre rest) = peek rest.
Proof. now destruct rest. Qed.

Lemma cursor_digits es pre d rest tok :
  str_isdigit d = true -> stops_digits rest ->
  next_token (cursor es pre (d ++ rest) tok)
  = Ok (Some d, cursor es (pre ++ d) rest (Some d)).
Proof.
  intros Hd Hrest. unfold next_token, cursor; cbn [lexer expression_string].
  rewrite LexerFacts.next_token_number; [| | |exact Hrest].
  - now rewrite (app_assoc pre d rest), (length_app pre d).
  - destruct d; [discriminate | discriminate].
  - destruct d; [discriminate | exact Hd].
Qed.

(** *** With enough fuel *)

Lemma finally_mono {A} (c : nat -> M t A) :
  (forall f f' p, f <= f' -> approx (c f p) (c f' p)) ->
  forall p r f f', c f p = r -> r <> OutOfFuel -> f <= f' -> c f' p = r.
Proof.
  intros Hc p r f f' Hr Hne Hle. destruct (Hc f f' p Hle) as [H|H]; congruence.
Qed.

Lemma mono_parse f f' p : f <= f' -> approx (parse f p) (parse f' p).
Proof. intros H. apply (fuel_mono f f' H). Qed.
Lemma mono_relation f f' p :
  f <= f' -> approx (parse_relation f p) (parse_relation f' p).
Proof. intros H. apply (fuel_mono f f' H). Qed.
Lemma mono_term f f' p : f <= f' -> approx (parse_term f p) (parse_term f' p).
Proof. intros H. apply (fuel_mono f f' H). Qed.
Lemma mono_term_while l r tk f f' p :
  f <= f' -> approx (parse_term_while f l r tk p) (parse_term_while f' l r tk p).
Proof. intros H. apply (fuel_mono f f' H). Qed.
Lemma mono_factor f f' p :
  f <= f' -> approx (parse_factor f p) (parse_factor f' p).
Proof. intros H. apply (fuel_mono f f' H). Qed.
Lemma mono_factor_while l r tk f f' p :
  f <= f' ->
  approx (parse_factor_while f l r tk p) (parse_factor_while f' l r tk p).
Proof. intros H. apply (fuel_mono f f' H). Qed.
Lemma mono_primary f f' p :
  f <= f' -> approx (parse_primary f p) (parse_primary f' p).
Proof. intros H. apply (fuel_mono f f' H). Qed.

(** *** The rules, one step at a time *)

Lemma lift {A} (c : nat -> M t A)
    (Hc : forall f f' p, f <= f' -> approx (c f p) (c f' p))
    (p : t) (a : A * t) (f f' : nat) :
  c f p = Ok a -> f <= f' -> c f' p = Ok a.
Proof. intros H Hle. destruct (Hc f f' p Hle) as [E|E]; congruence. Qed.

Lemma primary_literal p d p1 :
  next_token p = Ok (Some d, p1) -> str_isdigit d = true ->
  finally parse_primary p (Ok (Integer d, p1)).
Proof.
  intros H Hd. split; [discriminate|]. exists 1.
  rewrite parse_primary_S. unfold bind. rewrite H. cbn [isdigit ret].
  rewrite Hd. unfold new, Integer_new, asserting. cbn [tok_str].
  now rewrite Hd.
Qed.

Lemma primary_paren p p1 e p2 :
  next_token p = Ok (Some "(", p1) ->
  finally parse p1 (Ok (e, p2)) ->
  finally parse_primary p
    (if tok_eq (token p2) ")" then Ok (Parenthesized e, p2)
     else Raise (SyntaxError ("Expected ')', got '" ++ tok_str (token p2) ++ "'"))).
Proof.
  intros H [_ [f He]]. split; [destruct (tok_eq _ _); discriminate|].
  exists (S f). rewrite parse_primary_S. unfold bind. rewrite H.
  cbn [isdigit ret]. change (str_isdigit "(") with false. cbv iota.
  change (tok_eq (Some "(") "(") with true. cbv iota beta.
  rewrite He. unfold current_token.
  destruct (tok_eq (token p2) ")"); reflexivity.
Qed.

Lemma factor_rule p P p1 tok p2 r :
  finally parse_primary p (Ok (P, p1)) ->
  next_token p1 = Ok (tok, p2) ->
  finally (fun f => parse_factor_while f P None tok) p2 r ->
  finally parse_factor p r.
Proof.
  intros [_ [f1 HP]] Hn [Hne [f2 Hw]]. split; [assumption|].
  exists (S (Nat.max f1 f2)). rewrite parse_factor_S. unfold bind.
  rewrite (lift _ mono_primary _ _ f1 (Nat.max f1 f2) HP) by lia.
  rewrite Hn.
  exact (finally_mono _ (mono_factor_while _ _ _) _ _ f2 (Nat.max f1 f2) Hw Hne ltac:(lia)).
Qed.

Lemma product_step l right tk p P p1 tok' p2 r :
  tok_eq tk "*" = true ->
  finally parse_primary p (Ok (P, p1)) ->
  Factor_init l (Some P) = true ->
  next_token p1 = Ok (tok', p2) ->
  finally (fun f => parse_factor_while f (Factor l P) (Some P) tok') p2 r ->
  finally (fun f => parse_factor_while f l right tk) p r.
Proof.
  intros Htk [_ [f1 HP]] Hinit Hn [Hne [f2 Hw]]. split; [assumption|].
  exists (S (Nat.max f1 f2)). rewrite parse_factor_while_S, Htk. unfold bind.
  rewrite (lift _ mono_primary _ _ f1 (Nat.max f1 f2) HP) by lia.
  unfold new at 1, Factor_new, asserting. rewrite Hinit, Hn.
  exact (finally_mono _ (mono_factor_while _ _ _) _ _ f2 (Nat.max f1 f2) Hw Hne ltac:(lia)).
Qed.

Lemma product_stop l right tk p :
  tok_eq tk "*" = false ->
  match right with None => isinstance_Primary l = true | Some _ => True end ->
  finally (fun f => parse_factor_while f l right tk) p
    (Ok (match right with None => SingleFactor l | Some _ => l end, p)).
Proof.
  intros Htk Hl. split; [discriminate|]. exists 1.
  rewrite parse_factor_while_S, Htk. destruct right; [reflexivity|].
  unfold new, SingleFactor_new, Factor_init, asserting.
  now rewrite Hl, orb_true_r.
Qed.

Lemma term_rule p F p1 r :
  finally parse_factor p (Ok (F, p1)) ->
  finally (fun f => parse_term_while f F None (token p1)) p1 r ->
  finally parse_term p r.
Proof.
  intros [_ [f1 HF]] [Hne [f2 Hw]]. split; [assumption|].
  exists (S (Nat.max f1 f2)). rewrite parse_term_S. unfold bind.
  rewrite (lift _ mono_factor _ _ f1 (Nat.max f1 f2) HF) by lia.
  unfold current_token.
  exact (finally_mono _ (mono_term_while _ _ _) _ _ f2 (Nat.max f1 f2) Hw Hne ltac:(lia)).
Qed.

Lemma sum_step o l right p F p1 r :
  finally parse_factor p (Ok (F, p1)) ->
  Term_init l (Some F) = true ->
  finally (fun f => parse_term_while f (addop_node o l F) (Some F) (token p1))
    p1 r ->
  finally (fun f => parse_term_while f l right (Some (addop_text o))) p r.
Proof.
  intros [_ [f1 HF]] Hinit [Hne [f2 Hw]]. split; [assumption|].
  exists (S (Nat.max f1 f2)). rewrite parse_term_while_S.
  replace (tok_in (Some (addop_text o)) ["+"; "-"]) with true
    by (now destruct o).
  unfold bind.
  rewrite (lift _ mono_factor _ _ f1 (Nat.max f1 f2) HF) by lia.
  assert (Hnew : (if tok_eq (Some (addop_text o)) "+"
                  then new (AddTerm_new l F)
                  else if tok_eq (Some (addop_text o)) "-"
                       then new (SubTerm_new l F) else ret l) p1
                 = Ok (addop_node o l F, p1)).
  { destruct o; cbn; unfold new, AddTerm_new, SubTerm_new, asserting;
      now rewrite Hinit. }
  rewrite Hnew. unfold current_token.
  exact (finally_mono _ (mono_term_while _ _ _) _ _ f2 (Nat.max f1 f2) Hw Hne ltac:(lia)).
Qed.

Lemma sum_stop l right tk p :
  tok_in tk ["+"; "-"] = false ->
  match right with None => isinstance_Factor l = true | Some _ => True end ->
  finally (fun f => parse_term_while f l right tk) p
    (Ok (match right with None => SingleTerm l | Some _ => l end, p)).
Proof.
  intros Htk Hl. split; [discriminate|]. exists 1.
  rewrite parse_term_while_S, Htk. destruct right; [reflexivity|].
  unfold new, SingleTerm_new, Term_init, asserting.
  now rewrite Hl, orb_true_r.
Qed.

Lemma relation_single p T p1 :
  finally parse_term p (Ok (T, p1)) ->
  tok_in (token p1) ["<"; ">"; "="] = false ->
  isinstance_Term T = true ->
  finally parse_relation p (Ok (SingleRelation T, p1)).
Proof.
  intros [_ [f HT]] Htk Hi. split; [discriminate|].
  exists (S f). rewrite parse_relation_S. unfold bind. rewrite HT.
  unfold current_token. cbn in Htk.
  destruct (tok_eq (token p1) "<"); [discriminate|].
  destruct (tok_eq (token p1) ">"); [discriminate|].
  destruct (tok_eq (token p1) "="); [discriminate|].
  unfold new, SingleRelation_new, Relation_init, asserting. now rewrite Hi.
Qed.

Lemma relation_compare o p T1 p1 T2 p2 :
  finally parse_term p (Ok (T1, p1)) ->
  token p1 = Some (relop_text o) ->
  finally parse_term p1 (Ok (T2, p2)) ->
  isinstance_Term T1 = true -> isinstance_Term T2 = true ->
  finally parse_relation p (Ok (relop_node o T1 T2, p2)).
Proof.
  intros [_ [f1 H1]] Htk [_ [f2 H2]] Hi1 Hi2. split; [discriminate|].
  exists (S (Nat.max f1 f2)). rewrite parse_relation_S. unfold bind.
  rewrite (lift _ mono_term _ _ f1 (Nat.max f1 f2) H1) by lia.
  unfold current_token. rewrite Htk.
  destruct o; cbn [relop_text relop_node];
    repeat match goal with
      | |- context [tok_eq (Some ?a) ?b] =>
          let v := eval vm_compute in (tok_eq (Some a) b) in
          change (tok_eq (Some a) b) with v
      end;
    cbv iota beta;
    rewrite (lift _ mono_term _ _ f2 (Nat.max f1 f2) H2) by lia;
    unfold new, Less_new, Greater_new, Equal_new, Relation_init, asserting;
    now rewrite Hi1, Hi2.
Qed.

Lemma parse_rule p r : finally parse_relation p r -> finally parse p r.
Proof.
  intros [Hne [f H]]. split; [assumption|]. exists (S f). now rewrite parse_S.
Qed.

(** *** The text of a tree, rule by rule *)

Ltac assoc :=
  unfold chr; repeat rewrite app_assoc; cbn [append]; reflexivity.

Lemma follows_symbol (stop : list string) (c : ascii) (rest : string) :
  is_allowed c = true -> tok_in (Some (chr c)) stop = false ->
  follows stop (String c rest).
Proof. intros H1 H2. split; assumption. Qed.

Lemma literal_parses (d : string) :
  str_isdigit d = true -> primary_parses (Integer d).
Proof.
  intros Hd es pre rest tok Hf. exists (Some d). cbn [text].
  apply primary_literal; [|exact Hd].
  apply cursor_digits; [exact Hd | exact (follows_stops _ _ Hf)].
Qed.

Lemma paren_parses (e : Expression) :
  relation_parses e -> primary_parses (Parenthesized e).
Proof.
  intros He es pre rest tok Hf. exists (Some ")"). cbn [text append].
  rewrite app_assoc. cbn [append].
  pose proof (primary_paren (cursor es pre (String "(" (text e ++ String ")" rest)) tok)
                (cursor es (pre ++ chr "(") (text e ++ String ")" rest) (Some (chr "(")))
                e (ahead es ((pre ++ chr "(") ++ text e) (String ")" rest))) as H.
  cbn [ahead token cursor] in H. change (tok_eq (Some (chr ")")) ")") with true in H.
  cbv iota in H.
  rewrite (cursor_pre es (pre ++ String "(" (text e ++ ")"))
             (((pre ++ chr "(") ++ text e) ++ chr ")")) by assoc.
  apply H.
  - now apply cursor_symbol.
  - apply He. now apply follows_symbol.
Qed.

Lemma primary_resumes (e : Expression) :
  product_operand e = None -> primary_parses e -> product_resumes e.
Proof.
  intros Hlast He es pre rest tok r Hf Hw. rewrite Hlast in Hw.
  destruct (He es pre rest tok Hf) as [tok' HP].
  exact (factor_rule _ _ _ _ _ _ HP (look [] _ _ _ _ Hf) Hw).
Qed.

Lemma product_resumes_step (l r : Expression) :
  Factor_init l (Some r) = true ->
  product_resumes l -> primary_parses r -> product_resumes (Factor l r).
Proof.
  intros Hinit Hl Hr es pre rest tok res Hf Hw. cbn [text product_operand] in *.
  rewrite !app_assoc. cbn [append].
  apply (Hl es pre (String "*" (text r ++ rest)) tok res);
    [now apply follows_symbol|].
  cbn [peek ahead].
  destruct (Hr es ((pre ++ text l) ++ chr "*") rest (Some (chr "*")) Hf)
    as [tok' HP].
  refine (product_step l (product_operand l) (Some (chr "*")) _ r _ _ _ res
            eq_refl HP Hinit (look [] _ _ _ _ Hf) _).
  rewrite (ahead_pre es _ (pre ++ text l ++ "*" ++ text r)) by assoc.
  exact Hw.
Qed.

Lemma single_factor_parses (p : Expression) :
  isinstance_Primary p = true -> primary_parses p ->
  factor_parses (SingleFactor p).
Proof.
  intros Hi Hp es pre rest tok Hf. cbn [text].
  destruct (Hp es pre rest tok (follows_any _ _ Hf))
    as [tok' HP].
  refine (factor_rule _ _ _ _ _ _ HP (look _ _ _ _ _ Hf) _).
  apply (product_stop p None); [|exact Hi].
  apply (follows_not _ _ _ Hf). now left.
Qed.

Lemma product_parses (l r : Expression) :
  product_resumes (Factor l r) -> factor_parses (Factor l r).
Proof.
  intros H es pre rest tok Hf.
  apply H; [exact (follows_any _ _ Hf)|].
  cbn [product_operand].
  apply (product_stop (Factor l r) (Some r)); [|exact I].
  apply (follows_not _ _ _ Hf). now left.
Qed.

Lemma factor_resumes (e : Expression) :
  sum_operand e = None -> factor_parses e -> sum_resumes e.
Proof.
  intros Hlast He es pre rest tok r Hf Hw. rewrite Hlast in Hw.
  pose proof (He es pre rest tok Hf) as HF.
  refine (term_rule _ _ _ _ HF _). now rewrite token_ahead.
Qed.

Lemma sum_resumes_step (o : addop) (l r : Expression) :
  Term_init l (Some r) = true ->
  sum_resumes l -> factor_parses r -> sum_resumes (addop_node o l r).
Proof.
  intros Hinit Hl Hr es pre rest tok res Hf Hw.
  assert (Htext : text (addop_node o l r) = text l ++ addop_text o ++ text r)
    by now destruct o.
  assert (Hop : sum_operand (addop_node o l r) = Some r) by now destruct o.
  rewrite Htext, Hop in *.
  assert (Hc : exists c, addop_text o = chr c /\ is_allowed c = true
                         /\ tok_in (Some (chr c)) ["*"] = false)
    by (destruct o; eexists; repeat split).
  destruct Hc as (c & Hc & Hallowed & Hstar).
  rewrite !app_assoc. rewrite Hc in *. cbn [append chr].
  apply (Hl es pre (String c (text r ++ rest)) tok res);
    [now apply follows_symbol|].
  cbn [peek ahead].
  pose proof (Hr es ((pre ++ text l) ++ chr c) rest (Some (chr c)) Hf) as HF.
  pose proof (sum_step o l (sum_operand l) _ r _ res HF Hinit) as Hs.
  rewrite Hc in Hs. apply Hs. rewrite token_ahead.
  rewrite (ahead_pre es _ (pre ++ text l ++ chr c ++ text r)) by assoc.
  exact Hw.
Qed.

Lemma single_term_parses (f : Expression) :
  isinstance_Factor f = true -> factor_parses f -> term_parses (SingleTerm f).
Proof.
  intros Hi Hp es pre rest tok Hf. cbn [text].
  pose proof (Hp es pre rest tok
                (follows_term_factor _ Hf))
    as HF.
  refine (term_rule _ _ _ _ HF _). rewrite token_ahead.
  apply (sum_stop f None); [|exact Hi].
  destruct Hf as [_ Hin]. cbn in Hin |- *.
  destruct (tok_eq (peek rest) "*"); [discriminate | exact Hin].
Qed.

Lemma sum_parses (o : addop) (l r : Expression) :
  sum_resumes (addop_node o l r) -> term_parses (addop_node o l r).
Proof.
  intros H es pre rest tok Hf.
  apply H;
    [exact (follows_term_factor _ Hf)|].
  replace (sum_operand (addop_node o l r)) with (Some r) by now destruct o.
  apply (sum_stop (addop_node o l r) (Some r)); [|exact I].
  destruct Hf as [_ Hin]. cbn in Hin |- *.
  destruct (tok_eq (peek rest) "*"); [discriminate | exact Hin].
Qed.

Lemma follows_relation_term (rest : string) :
  follows ["*"; "+"; "-"; "<"; ">"; "="] rest -> follows ["*"; "+"; "-"] rest.
Proof.
  apply follows_weaken. intros x [<-|[<-|[<-|[]]]]; cbn; auto.
Qed.

Lemma single_relation_parses (t : Expression) :
  isinstance_Term t = true -> term_parses t -> relation_parses (SingleRelation t).
Proof.
  intros Hi Ht es pre rest tok Hf. cbn [text]. apply parse_rule.
  pose proof (Ht es pre rest tok (follows_relation_term _ Hf)) as HT.
  apply (relation_single _ _ _ HT); [|exact Hi].
  rewrite token_ahead. destruct Hf as [_ Hin]. cbn in Hin |- *.
  destruct (tok_eq (peek rest) "*"); [discriminate|].
  destruct (tok_eq (peek rest) "+"); [discriminate|].
  destruct (tok_eq (peek rest) "-"); [discriminate | exact Hin].
Qed.

Lemma comparison_parses (o : relop) (l r : Expression) :
  isinstance_Term l = true -> isinstance_Term r = true ->
  term_parses l -> term_parses r -> relation_parses (relop_node o l r).
Proof.
  intros Hil Hir Hl Hr es pre rest tok Hf. apply parse_rule.
  assert (Htext : text (relop_node o l r) = text l ++ relop_text o ++ text r)
    by now destruct o.
  assert (Hc : exists c, relop_text o = chr c /\ is_allowed c = true
                         /\ tok_in (Some (chr c)) ["*"; "+"; "-"] = false)
    by (destruct o; eexists; repeat split).
  destruct Hc as (c & Hc & Hallowed & Hstop).
  rewrite Htext, Hc, !app_assoc. cbn [append chr].
  pose proof (Hl es pre (String c (text r ++ rest)) tok
                (follows_symbol _ _ _ Hallowed Hstop)) as H1.
  cbn [ahead] in H1.
  pose proof (Hr es ((pre ++ text l) ++ chr c) rest (Some (chr c))
                (follows_relation_term _ Hf)) as H2.
  rewrite (ahead_pre es _ (pre ++ text l ++ chr c ++ text r)) in H2 by assoc.
  refine (relation_compare o _ _ _ _ _ H1 _ H2 Hil Hir).
  cbn [cursor token]. now rewrite Hc.
Qed.

Lemma factor_init_shapes (l r : Expression) :
  shape_fleft l = true -> shape_primary r = true ->
  Factor_init l (Some r) = true.
Proof.
  intros Hl Hr. unfold Factor_init.
  now rewrite (ShapeFacts.shape_fleft_isinstance _ Hl),
    (ShapeFacts.shape_primary_isinstance _ Hr).
Qed.

Lemma term_init_shapes (l r : Expression) :
  shape_tleft l = true -> shape_factor r = true ->
  Term_init l (Some r) = true.
Proof.
  intros Hl Hr. unfold Term_init.
  now rewrite (ShapeFacts.shape_tleft_isinstance _ Hl),
    (ShapeFacts.shape_factor_isinstance _ Hr).
Qed.

(** Every rule parses the text of the trees of its shape. *)
Lemma all_text_parses (e : Expression) : text_parses e.
Proof.
  induction e; intros Hlit; cbn [literals] in Hlit;
    try (apply andb_true_iff in Hlit as [Hl1 Hl2];
         destruct (IHe1 Hl1) as (P1 & L1 & F1 & S1 & T1 & R1);
         destruct (IHe2 Hl2) as (P2 & L2 & F2 & S2 & T2 & R2));
    try (destruct (IHe Hlit) as (P1 & L1 & F1 & S1 & T1 & R1));
    refine (conj _ (conj _ (conj _ (conj _ (conj _ _)))));
    cbn [shape_primary shape_fleft shape_factor shape_tleft shape_term
           shape_relation];
    intros Hs; try discriminate;
    try (apply andb_true_iff in Hs as [Hs1 Hs2]).
  - now apply literal_parses.
  - apply primary_resumes; [reflexivity | now apply literal_parses].
  - apply paren_parses; auto.
  - apply primary_resumes; [reflexivity | apply paren_parses; auto].
  - apply (comparison_parses LessThan);
      auto using ShapeFacts.shape_term_isinstance.
  - apply (comparison_parses GreaterThan);
      auto using ShapeFacts.shape_term_isinstance.
  - apply (comparison_parses EqualTo);
      auto using ShapeFacts.shape_term_isinstance.
  - apply single_relation_parses;
      auto using ShapeFacts.shape_term_isinstance.
  - apply (sum_resumes_step Plus); auto using term_init_shapes.
  - apply (sum_parses Plus), (sum_resumes_step Plus);
      auto using term_init_shapes.
  - apply (sum_resumes_step Minus); auto using term_init_shapes.
  - apply (sum_parses Minus), (sum_resumes_step Minus);
      auto using term_init_shapes.
  - apply single_term_parses;
      auto using ShapeFacts.shape_factor_isinstance.
  - apply product_resumes_step; auto using factor_init_shapes.
  - apply product_parses, product_resumes_step; auto using factor_init_shapes.
  - apply factor_resumes; [reflexivity|].
    apply product_parses, product_resumes_step; auto using factor_init_shapes.
  - apply single_factor_parses;
      auto using ShapeFacts.shape_primary_isinstance.
  - apply factor_resumes; [reflexivity|].
    apply single_factor_parses;
      auto using ShapeFacts.shape_primary_isinstance.
Qed.

(** The text of a tree that the parser can build, followed by a symbol
    that continues no rule (or by nothing), parses to that tree; the
    parser stops with that symbol in the lookahead. *)
Lemma text_run (e : Expression) (rest : string) :
  shape_relation e = true -> literals str_isdigit e = true ->
  follows ["*"; "+"; "-"; "<"; ">"; "="] rest ->
  parse (fuel_for (text e ++ rest)) (__init__ (text e ++ rest))
  = Ok (e, ahead (text e ++ rest) (text e) rest).
Proof.
  intros Hs Hl Hf.
  destruct (all_text_parses e Hl) as (_ & _ & _ & _ & _ & HR).
  destruct (HR Hs (text e ++ rest) EmptyString rest None Hf) as [_ [f H]].
  apply (parse_string_of_run _ f); [exact H | discriminate].
Qed.

Lemma text_parses_back (e : Expression) :
  shape_relation e = true -> literals str_isdigit e = true ->
  parse_string (text e) = Ok e.
Proof.
  intros Hs Hl. pose proof (text_run e EmptyString Hs Hl (conj I eq_refl)) as H.
  rewrite app_empty_r in H. unfold parse_string. now rewrite H.
Qed.

End TextFacts.

(** ** Texts that end too early *)

Module ErrorFacts.
Import Parser ParserFacts Run TextFacts.

Lemma raise_factor p e :
  finally parse_primary p (Raise e) -> finally parse_factor p (Raise e).
Proof.
  intros [_ [f H]]. split; [discriminate|]. exists (S f).
  rewrite parse_factor_S. unfold bind. now rewrite H.
Qed.

Lemma raise_term p e :
  finally parse_factor p (Raise e) -> finally parse_term p (Raise e).
Proof.
  intros [_ [f H]]. split; [discriminate|]. exists (S f).
  rewrite parse_term_S. unfold bind. now rewrite H.
Qed.

Lemma raise_relation p e :
  finally parse_term p (Raise e) -> finally parse_relation p (Raise e).
Proof.
  intros [_ [f H]]. split; [discriminate|]. exists (S f).
  rewrite parse_relation_S. unfold bind. now rewrite H.
Qed.

Lemma raise_first_primary p e :
  finally parse_primary p (Raise e) -> finally parse p (Raise e).
Proof.
  intros H. now apply parse_rule, raise_relation, raise_term, raise_factor.
Qed.

Lemma product_raise l right p e :
  finally parse_primary p (Raise e) ->
  finally (fun f => parse_factor_while f l right (Some "*")) p (Raise e).
Proof.
  intros [_ [f H]]. split; [discriminate|]. exists (S f).
  rewrite parse_factor_while_S. change (tok_eq (Some "*") "*") with true.
  unfold bind. now rewrite H.
Qed.

Lemma sum_raise o l right p e :
  finally parse_factor p (Raise e) ->
  finally (fun f => parse_term_while f l right (Some (addop_text o))) p (Raise e).
Proof.
  intros [_ [f H]]. split; [discriminate|]. exists (S f).
  rewrite parse_term_while_S.
  replace (tok_in (Some (addop_text o)) ["+"; "-"]) with true
    by (now destruct o).
  unfold bind. now rewrite H.
Qed.

Lemma relation_raise o p T p1 e :
  finally parse_term p (Ok (T, p1)) ->
  token p1 = Some (relop_text o) ->
  finally parse_term p1 (Raise e) ->
  finally parse_relation p (Raise e).
Proof.
  intros [_ [f1 H1]] Htk [_ [f2 H2]]. split; [discriminate|].
  exists (S (Nat.max f1 f2)). rewrite parse_relation_S. unfold bind.
  rewrite (lift _ mono_term _ _ f1 (Nat.max f1 f2) H1) by lia.
  unfold current_token. rewrite Htk.
  assert (H2' : parse_term (Nat.max f1 f2) p1 = Raise e).
  { apply (finally_mono _ mono_term _ _ f2); [exact H2 | discriminate | lia]. }
  destruct o; cbn [relop_text];
    repeat match goal with
      | |- context [tok_eq (Some ?a) ?b] =>
          let v := eval vm_compute in (tok_eq (Some a) b) in
          change (tok_eq (Some a) b) with v
      end;
    cbv iota beta; now rewrite H2'.
Qed.

(** Where a primary must start and the text is exhausted. *)
Lemma primary_exhausted es pre tok :
  finally parse_primary (cursor es pre EmptyString tok)
    (Raise (AttributeError "'NoneType' object has no attribute 'isdigit'")).
Proof.
  split; [discriminate|]. exists 1. apply parse_primary_exhausted.
  unfold exhausted, cursor; cbn. rewrite app_empty_r. lia.
Qed.

Lemma parse_string_finally (s : string) (e : exn) :
  finally parse (cursor s EmptyString s None) (Raise e) ->
  parse_string s = Raise e.
Proof. intros [_ [f H]]. exact (parse_string_Raise s f e H). Qed.

Lemma allowed_cases (c : ascii) :
  is_allowed c = true ->
  In c ["<"; ">"; "="; "+"; "-"; "*"; "("; ")"]%char.
Proof.
  destruct c as [[] [] [] [] [] [] [] []]; vm_compute;
    first [discriminate | intros _; tauto].
Qed.

End ErrorFacts.

(** ** Renderings *)

Module RenderFacts.

(** A run of digits ends where the closing parenthesis stands. *)
Lemma digits_closed (d1 : string) :
  forall d2 r1 r2,
    all_chars chr_isdigit d1 = true -> all_chars chr_isdigit d2 = true ->
    d1 ++ ")" ++ r1 = d2 ++ ")" ++ r2 -> d1 = d2 /\ r1 = r2.
Proof.
  induction d1 as [|c d1 IH]; intros [|c2 d2] r1 r2 H1 H2 H; cbn in *.
  - injection H as ->. now split.
  - injection H as <- _. discriminate.
  - injection H as -> _. discriminate.
  - injection H as -> H. apply andb_true_iff in H1 as [_ H1].
    apply andb_true_iff in H2 as [_ H2].
    destruct (IH _ _ _ H1 H2 H) as [-> ->]. now split.
Qed.

Lemma isdigit_digits (d : string) :
  str_isdigit d = true -> all_chars chr_isdigit d = true.
Proof. destruct d; [discriminate | exact (fun H => H)]. Qed.

Ltac render_norm :=
  cbn [__str__]; repeat rewrite app_assoc; cbn [append].

Ltac render_binary IHl IHr :=
  match goal with
  | H1 : literals _ _ = true, H2 : literals _ _ = true,
    H : _ = _ |- _ =>
      cbn [literals] in H1, H2;
      apply andb_true_iff in H1 as [? ?];
      apply andb_true_iff in H2 as [? ?];
      injection H as H;
      apply IHl in H; [|assumption|assumption];
      destruct H as [-> H]; cbn [append] in H; injection H as H;
      apply IHr in H; [|assumption|assumption];
      destruct H as [-> H]; cbn [append] in H; injection H as ->;
      now split
  end.

Ltac render_unary IH :=
  match goal with
  | H1 : literals _ _ = true, H2 : literals _ _ = true,
    H : _ = _ |- _ =>
      cbn [literals] in H1, H2;
      injection H as H;
      apply IH in H; [|assumption|assumption];
      destruct H as [-> H]; cbn [append] in H; injection H as ->;
      now split
  end.

(** The rendering of a tree, in front of any text, determines the tree
    and that text. *)
Lemma str_prefix (e1 : Expression) :
  forall e2 r1 r2,
    literals str_isdigit e1 = true -> literals str_isdigit e2 = true ->
    __str__ e1 ++ r1 = __str__ e2 ++ r2 -> e1 = e2 /\ r1 = r2.
Proof.
  induction e1 as [n1|e1 IH|l1 IHl r1' IHr|l1 IHl r1' IHr|l1 IHl r1' IHr|l1 IH
                  |l1 IHl r1' IHr|l1 IHl r1' IHr|l1 IH|l1 IHl r1' IHr|l1 IH];
    intros [n2|e2|l2 r2'|l2 r2'|l2 r2'|l2|l2 r2'|l2 r2'|l2|l2 r2'|l2] r1 r2
      H1 H2;
    render_norm; intros H; try discriminate;
    try (render_binary IHl IHr); try (render_unary IH).
  injection H as H. cbn [literals] in H1, H2.
  apply digits_closed in H; try now apply isdigit_digits.
  destruct H as [-> ->]. now split.
Qed.

Lemma str_injective (e1 e2 : Expression) :
  literals str_isdigit e1 = true -> literals str_isdigit e2 = true ->
  __str__ e1 = __str__ e2 -> e1 = e2.
Proof.
  intros H1 H2 H.
  apply (str_prefix e1 e2 EmptyString EmptyString H1 H2).
  now rewrite !app_empty_r.
Qed.

End RenderFacts.

(** ** What the scanner returns *)

(** X1.  When [next_token] returns a token, the token is the unread
    text [x] it has passed over, without its spaces; the cursor is right
    behind [x]; and the token is either a run of digits that the next
    unread character does not continue, or one of the eight symbols. *)
Theorem next_token_reads_one_token (pre u tok : string) (self' : Lexer.t) :
  Lexer.next_token (Lexer.mk (pre ++ u) (String.length pre))
  = Ok (Some tok, self') ->
  exists x u',
    u = x ++ u' /\ remove_spaces x = tok
    /\ self' = Lexer.mk (pre ++ u) (String.length pre + String.length x)
    /\ ((str_isdigit tok = true /\ stops_digits u')
        \/ symbol_token (Some tok)).
Proof.
  rewrite ScanFacts.next_token_is_lex. unfold lex_outcome.
  destruct (lex u) as [[tk u']| |] eqn:E; try discriminate.
  intros [= -> <-].
  destruct (ScanFacts.lex_split u _ _ E) as (x & -> & Hrm & _ & Htok).
  exists x, u'. repeat split; try assumption.
  unfold lexer_at. f_equal. rewrite !length_app. lia.
Qed.

Lemma next_token_reads_one_token_witness :
  exists x u',
    " 23+" = x ++ u' /\ remove_spaces x = "23"
    /\ Lexer.mk "1 23+" 4 = Lexer.mk ("1" ++ " 23+") (String.length "1" + String.length x)
    /\ ((str_isdigit "23" = true /\ stops_digits u')
        \/ symbol_token (Some "23")).
Proof.
  exact (next_token_reads_one_token "1" " 23+" "23" (Lexer.mk "1 23+" 4) eq_refl).
Defined.

(** X2.  [next_token] returns [None] exactly when nothing but spaces is
    left unread, and then the cursor is at the end of the text; it always
    returns or raises. *)
Theorem next_token_end_of_text (pre u : string) :
  match Lexer.next_token (Lexer.mk (pre ++ u) (String.length pre)) with
  | Ok (None, self') =>
      remove_spaces u = EmptyString
      /\ self' = Lexer.mk (pre ++ u) (String.length (pre ++ u))
  | Ok (Some _, _) | Raise _ => remove_spaces u <> EmptyString
  | OutOfFuel => False
  end.
Proof.
  rewrite ScanFacts.next_token_is_lex. unfold lex_outcome.
  destruct (lex u) as [[[t|] u']|e|] eqn:E.
  - destruct (ScanFacts.lex_split u _ _ E) as (x & -> & Hrm & _ & Htok).
    pose proof (ScanFacts.token_nonempty _ _ Htok) as Hne.
    rewrite ScanFacts.remove_spaces_app, Hrm.
    destruct t; [congruence | discriminate].
  - destruct (ScanFacts.lex_split u _ _ E) as (x & -> & Hrm & _ & ->).
    rewrite app_empty_r. split; [exact Hrm|].
    unfold lexer_at. cbn [String.length].
    now rewrite Nat.sub_0_r.
  - apply ScanFacts.lex_raise_at in E as (c & Hc & _).
    intros H. apply ScanFacts.first_char_spaces in H. congruence.
  - exact (ScanFacts.lex_never_out_of_fuel u E).
Qed.

(** X3.  [next_token] raises exactly when the first unread character
    that is not a space is no digit and no symbol, and the exception is
    the [LexicalError] that carries this character. *)
Theorem next_token_lexical_error (pre u : string) (e : exn) :
  Lexer.next_token (Lexer.mk (pre ++ u) (String.length pre)) = Raise e
  <-> exists c, first_char u = Some c /\ chr_valid c = false
                /\ e = LexicalError ("Invalid symbol: " ++ chr c).
Proof.
  rewrite ScanFacts.next_token_is_lex, <- ScanFacts.lex_raise_at.
  unfold lex_outcome.
  destruct (lex u) as [[tk u']| |]; split; congruence.
Qed.

(** X4.  Calling [next_token] until it returns [None] yields tokens
    that, put end to end, spell the text without its spaces, each a run of
    digits or a symbol, when every character of the text is a digit, a
    symbol or a space; otherwise the calls end in a [LexicalError]. *)
Theorem tokens_spell_the_text (s : string) :
  match tokens s with
  | Ok ts =>
      join ts = remove_spaces s /\ Forall is_token ts
      /\ all_chars chr_valid s = true
  | Raise e =>
      all_chars chr_valid s = false
      /\ exists c, e = LexicalError ("Invalid symbol: " ++ chr c)
                   /\ chr_valid c = false
  | OutOfFuel => False
  end.
Proof.
  pose proof (ScanFacts.tokenize_spec (S (String.length s)) EmptyString s
                (Nat.lt_succ_diag_r _)) as H.
  unfold tokens. change (Lexer.__init__ s)
    with (Lexer.mk (EmptyString ++ s) (String.length EmptyString)).
  destruct (tokenize _ _) as [[ts p]|e|]; [|exact H|exact H].
  tauto.
Qed.

(** ** What the parser builds and what it raises *)

(** X5.  The tree of a successful parse obeys the constructors'
    assertions all the way down: a relation over terms, terms over factors
    ([SingleTerm] on a factor, sums with a factor on the right), factors
    over primaries, parenthesized relations; and every literal satisfies
    [str.isdigit]. *)
Theorem parse_tree_shape (s : string) (tree : Expression) :
  parse_string s = Ok tree ->
  shape_relation tree = true /\ literals str_isdigit tree = true
  /\ isinstance_Relation tree = true.
Proof.
  intros H. pose proof (ShapeFacts.parse_string_shape s) as Hs.
  rewrite H in Hs. destruct Hs as [Hs Hl]. repeat split; try assumption.
  destruct tree; cbn in Hs |- *; congruence.
Qed.

Lemma parse_tree_shape_witness :
  shape_relation (Less (SingleTerm (SingleFactor (Integer "1")))
                       (SingleTerm (SingleFactor (Integer "2")))) = true
  /\ literals str_isdigit (Less (SingleTerm (SingleFactor (Integer "1")))
                               (SingleTerm (SingleFactor (Integer "2")))) = true
  /\ isinstance_Relation (Less (SingleTerm (SingleFactor (Integer "1")))
                               (SingleTerm (SingleFactor (Integer "2")))) = true.
Proof.
  apply (parse_tree_shape "1 < 2"). vm_compute. reflexivity.
Defined.

(** X6.  Parsing returns a tree or raises a [LexicalError], a
    [SyntaxError] or the [AttributeError] of [None.isdigit()]: no
    assertion of a constructor fails, and the scanner never reads outside
    the text. *)
Theorem parse_raises_only (s : string) :
  match parse_string s with
  | Ok _ => True
  | Raise e =>
      (exists msg, e = LexicalError msg) \/ (exists msg, e = SyntaxError msg)
      \/ (exists msg, e = AttributeError msg)
  | OutOfFuel => False
  end.
Proof.
  pose proof (ShapeFacts.parse_string_shape s) as Hs.
  destruct (parse_string s) as [tree|e|]; [exact I| |exact Hs].
  destruct e; cbn in Hs; try contradiction; eauto.
Qed.

(** ** From a tree to its text and back *)

(** X7.  Writing a tree that the parser can build as text (literals,
    operators and parentheses in order, no spaces) and parsing that text
    gives the tree back; so rendering the text gives [__str__] of the tree
    and evaluating it gives [calculate] of the tree. *)
Theorem parse_text_round_trip (e : Expression) :
  shape_relation e = true -> literals str_isdigit e = true ->
  parse_string (text e) = Ok e
  /\ render (text e) = Ok (__str__ e)
  /\ evaluate (text e) = calculate e.
Proof.
  intros Hs Hl. pose proof (TextFacts.text_parses_back e Hs Hl) as H.
  unfold render, evaluate. rewrite H. repeat split.
Qed.

Lemma parse_text_round_trip_witness :
  parse_string "(1+2)*3<4"
  = Ok (Less (SingleTerm
                (Factor (Parenthesized
                           (SingleRelation
                              (AddTerm (SingleFactor (Integer "1"))
                                       (SingleFactor (Integer "2")))))
                        (Integer "3")))
             (SingleTerm (SingleFactor (Integer "4")))).
Proof.
  exact (proj1 (parse_text_round_trip
                  (Less (SingleTerm
                           (Factor (Parenthesized
                                      (SingleRelation
                                         (AddTerm (SingleFactor (Integer "1"))
                                                  (SingleFactor (Integer "2")))))
                                   (Integer "3")))
                        (SingleTerm (SingleFactor (Integer "4"))))
                  eq_refl eq_refl)).
Defined.

(** X8.  The lookahead is carried across the return of a rule: after
    the text of a tree followed by [rest], where [rest] is empty or starts
    with a closing parenthesis or an opening one, [parse] returns the tree
    with the first token of [rest] in the lookahead and the cursor right
    behind that token. *)
Theorem parse_leaves_lookahead (e : Expression) (rest : string) :
  shape_relation e = true -> literals str_isdigit e = true ->
  follows ["*"; "+"; "-"; "<"; ">"; "="] rest ->
  Parser.parse (Parser.fuel_for (text e ++ rest))
    (Parser.__init__ (text e ++ rest))
  = Ok (e, ahead (text e ++ rest) (text e) rest)
  /\ Parser.token (ahead (text e ++ rest) (text e) rest) = peek rest.
Proof.
  intros Hs Hl Hf. split; [now apply TextFacts.text_run|].
  apply TextFacts.token_ahead.
Qed.

Lemma parse_leaves_lookahead_witness :
  Parser.parse (Parser.fuel_for "1+2)*3") (Parser.__init__ "1+2)*3")
  = Ok (SingleRelation (AddTerm (SingleFactor (Integer "1"))
                                (SingleFactor (Integer "2"))),
        Parser.mk "1+2)*3" (Lexer.mk "1+2)*3" 4) (Some ")")).
Proof.
  exact (proj1 (parse_leaves_lookahead
                  (SingleRelation (AddTerm (SingleFactor (Integer "1"))
                                           (SingleFactor (Integer "2"))))
                  ")*3" eq_refl eq_refl (conj eq_refl eq_refl))).
Defined.

(** ** Rejected texts *)

(** X9.  An opening parenthesis and the text of a tree, followed by
    the end of the text or by another opening parenthesis instead of the
    closing one, is rejected with the [SyntaxError] that names the token
    found ([None] at the end of the text). *)
Theorem unclosed_parenthesis (e : Expression) (rest : string) :
  shape_relation e = true -> literals str_isdigit e = true ->
  follows ["*"; "+"; "-"; "<"; ">"; "="] rest ->
  tok_eq (peek rest) ")" = false ->
  parse_string ("(" ++ text e ++ rest)
  = Raise (SyntaxError ("Expected ')', got '" ++ tok_str (peek rest) ++ "'")).
Proof.
  intros Hs Hl Hf Hclose.
  destruct (TextFacts.all_text_parses e Hl) as (_ & _ & _ & _ & _ & HR).
  pose proof (HR Hs ("(" ++ text e ++ rest) (EmptyString ++ chr "(") rest
                (Some (chr "(")) Hf) as He.
  pose proof (TextFacts.primary_paren
                (cursor ("(" ++ text e ++ rest) EmptyString
                   (String "(" (text e ++ rest)) None)
                _ e _ (Run.cursor_symbol _ EmptyString "(" _ None eq_refl) He) as H.
  rewrite TextFacts.token_ahead, Hclose in H.
  destruct (ErrorFacts.raise_first_primary _ _ H) as [_ [f Hrun]].
  exact (parse_string_Raise _ f _ Hrun).
Qed.

Lemma unclosed_parenthesis_witness :
  parse_string "(1+2(" = Raise (SyntaxError "Expected ')', got '('").
Proof.
  exact (unclosed_parenthesis
           (SingleRelation (AddTerm (SingleFactor (Integer "1"))
                                    (SingleFactor (Integer "2"))))
           "(" eq_refl eq_refl (conj eq_refl eq_refl) eq_refl).
Defined.

(** X10.  A text that starts with a symbol other than the opening
    parenthesis is rejected with the [SyntaxError] that names this symbol,
    whatever follows it. *)
Theorem leading_symbol_rejected (c : ascii) (rest : string) :
  is_allowed c = true -> c <> "("%char ->
  parse_string (String c rest)
  = Raise (SyntaxError ("Expected integer or parenthesis, got '" ++ chr c ++ "'")).
Proof.
  intros Hc Hopen. apply ErrorFacts.allowed_cases in Hc. cbn [In] in Hc.
  repeat (destruct Hc as [<-|Hc]); try contradiction; try congruence;
    Run.from_start 5; Run.run.
Qed.

Lemma leading_symbol_rejected_witness :
  parse_string "-1"
  = Raise (SyntaxError "Expected integer or parenthesis, got '-'").
Proof.
  apply (leading_symbol_rejected "-" "1"); [reflexivity | discriminate].
Defined.

(** ** Trailing text, and termination *)

(** X11.  When [parse] on [s] returns with the cursor inside [s] or
    with a symbol in the lookahead, any text appended to [s] changes
    neither the tree nor its rendering nor its value. *)
Theorem trailing_text_ignored (s rest : string) (tree : Expression)
    (p : Parser.t) :
  Parser.parse (Parser.fuel_for s) (Parser.__init__ s) = Ok (tree, p) ->
  settled s p ->
  parse_string (s ++ rest) = parse_string s
  /\ render (s ++ rest) = render s
  /\ evaluate (s ++ rest) = evaluate s.
Proof.
  intros Hrun Hs.
  pose proof (IgnoreFacts.parse_ignores_rest s rest tree p Hrun Hs) as H.
  assert (H0 : parse_string s = Ok tree)
    by (unfold parse_string; now rewrite Hrun).
  unfold render, evaluate. rewrite H, H0. repeat split.
Qed.

Lemma trailing_text_ignored_witness :
  evaluate ("2*3)" ++ "+4") = evaluate "2*3)".
Proof.
  refine (proj2 (proj2 (trailing_text_ignored "2*3)" "+4"
            (SingleRelation (SingleTerm (Factor (Integer "2") (Integer "3"))))
            (Parser.mk "2*3)" (Lexer.mk "2*3)" 4) (Some ")")) _ _))).
  - vm_compute. reflexivity.
  - right. exists ")"%char. split; reflexivity.
Defined.

(** X12.  On every text [parse] returns or raises within the fuel of
    [fuel_for], and when it returns it has read at least one character:
    less text is left unread than the text is long. *)
Theorem parse_returns_or_raises (s : string) :
  match Parser.parse (Parser.fuel_for s) (Parser.__init__ s) with
  | Ok (_, p) => rem p < String.length s
  | Raise _ => True
  | OutOfFuel => False
  end.
Proof.
  destruct (ParserFacts.fuel_enough (Parser.fuel_for s)) as (Hp & _).
  specialize (Hp (Parser.__init__ s)). unfold ensures, shrinks in Hp.
  assert (Hrem : rem (Parser.__init__ s) = String.length s)
    by (unfold rem, Lexer.remaining; cbn; lia).
  rewrite Hrem in Hp. apply Hp. unfold Parser.fuel_for. lia.
Qed.

(** ** Evaluation *)


(** X15.  When the text has at most [int_max_str_digits] characters and
    every character of it on which [str.isdigit] holds is one of
    [0]..[9], then, if the text parses, [int] converts every literal of
    the tree and the evaluation returns an integer. *)
Theorem evaluate_plain_digits (s : string) (tree : Expression) :
  plain_digits s = true -> String.length s <= int_max_str_digits ->
  parse_string s = Ok tree ->
  literals convertible tree = true /\ exists v, evaluate s = Ok v.
Proof.
  intros Hplain Hlen H.
  pose proof (ShapeFacts.parse_string_convertible s tree Hplain Hlen H) as Hl.
  split; [exact Hl|]. unfold evaluate. rewrite H. cbn [bind_result].
  now apply ShapeFacts.calculate_numerals.
Qed.

Lemma evaluate_plain_digits_witness :
  exists v, evaluate "2*(3+4)" = Ok v.
Proof.
  refine (proj2 (evaluate_plain_digits "2*(3+4)"
     (SingleRelation (SingleTerm (Factor (Integer "2")
        (Parenthesized (SingleRelation
           (AddTerm (SingleFactor (Integer "3")) (SingleFactor (Integer "4"))))))))
     eq_refl _ _)).
  - apply (literal_within_limit "2*(3+4)"). reflexivity.
  - vm_compute. reflexivity.
Defined.

(** ** The program *)

(** X16.  What the calls of [print] in [main] write, and how [main]
    ends.  It ends normally exactly when the line parses, the tree
    evaluates and [str] converts the value, having written the
    [Expression:] line and the [Result:] line.  When the parse raises,
    [main] ends with that exception and nothing has been printed.  When
    the evaluation raises, it is a [ValueError], [int] does not convert
    some literal of the tree, and the [Expression:] line has been written
    but nothing of the second [print].  When [str] raises on the value,
    which then has more than [int_max_str_digits] digits, it is a
    [ValueError], and the [Expression:] line and [Result: ] have been
    written, without the value and without a newline. *)
Theorem main_outcome (s : string) :
  match snd (main s) with
  | Ok _ =>
      exists tree v digits,
        parse_string s = Ok tree /\ calculate tree = Ok v
        /\ str v = Ok digits
        /\ fst (main s)
           = "Expression: " ++ __str__ tree ++ newline
             ++ "Result: " ++ digits ++ newline
  | Raise e =>
      (parse_string s = Raise e /\ fst (main s) = EmptyString
       /\ ((exists msg, e = LexicalError msg) \/ (exists msg, e = SyntaxError msg)
           \/ (exists msg, e = AttributeError msg)))
      \/ (exists tree msg,
            parse_string s = Ok tree /\ calculate tree = Raise e
            /\ e = ValueError msg /\ literals convertible tree = false
            /\ fst (main s) = "Expression: " ++ __str__ tree ++ newline)
      \/ (exists tree v msg,
            parse_string s = Ok tree /\ calculate tree = Ok v
            /\ str v = Raise e /\ e = ValueError msg
            /\ (10 ^ Z.of_nat int_max_str_digits <= Z.abs v)%Z
            /\ fst (main s)
               = "Expression: " ++ __str__ tree ++ newline ++ "Result: ")
  | OutOfFuel => False
  end.
Proof.
  unfold main. pose proof (ShapeFacts.parse_string_shape s) as Hs.
  destruct (parse_string s) as [tree|e|] eqn:Hparse; cbn [snd fst].
  - pose proof (ShapeFacts.calculate_returns_or_raises tree) as Hcalc_total.
    destruct (calculate tree) as [v|x|] eqn:Hcalc; cbn [snd fst];
      [| |congruence].
    + destruct (str v) as [digits|x|] eqn:Hstr; cbn [snd fst].
      * exists tree, v, digits.
        refine (conj eq_refl (conj Hcalc (conj Hstr _))).
        now rewrite !app_assoc.
      * right. right.
        destruct (Z.lt_ge_cases (Z.abs v) (10 ^ Z.of_nat int_max_str_digits))
          as [Hlt|Hge]; [rewrite (str_Ok v Hlt) in Hstr; discriminate|].
        pose proof (str_Raise v Hge) as Hmsg. rewrite Hstr in Hmsg.
        injection Hmsg as Hx. eexists tree, v, _.
        refine (conj eq_refl (conj Hcalc (conj Hstr (conj Hx (conj Hge _))))).
        now rewrite !app_assoc.
      * unfold str in Hstr. destruct (_ <? _); discriminate.
    + right. left.
      destruct (ShapeFacts.calculate_raises_ValueError tree x Hcalc)
        as [msg ->].
      exists tree, msg.
      refine (conj eq_refl (conj Hcalc (conj eq_refl (conj _ eq_refl)))).
      destruct (literals convertible tree) eqn:Hl; [|reflexivity].
      destruct (ShapeFacts.calculate_numerals tree Hl) as [v Hv]. congruence.
  - left. repeat split. destruct e; cbn in Hs; try contradiction; eauto.
  - exact Hs.
Qed.

(** X17.  On the text of a tree that the parser can build, whose value
    [calculate] returns and [str] converts, [main] prints the rendering of
    exactly that tree and its value, and ends normally. *)
Theorem main_prints_tree_and_value (e : Expression) (v : Z) (digits : string) :
  shape_relation e = true -> literals str_isdigit e = true ->
  calculate e = Ok v -> str v = Ok digits ->
  main (text e)
  = ("Expression: " ++ __str__ e ++ newline
     ++ "Result: " ++ digits ++ newline, Ok tt).
Proof.
  intros Hs Hl Hv Hd. unfold main.
  rewrite (TextFacts.text_parses_back e Hs Hl), Hv, Hd.
  now rewrite !app_assoc.
Qed.

Lemma main_prints_tree_and_value_witness :
  main "1-2"
  = ("Expression: "
     ++ __str__ (SingleRelation (SubTerm (SingleFactor (Integer "1"))
                                         (SingleFactor (Integer "2"))))
     ++ newline ++ "Result: " ++ "-1" ++ newline, Ok tt).
Proof.
  exact (main_prints_tree_and_value
           (SingleRelation (SubTerm (SingleFactor (Integer "1"))
                                    (SingleFactor (Integer "2"))))
           (-1)%Z "-1" eq_refl eq_refl eq_refl eq_refl).
Defined.

(** ** An operator without its right operand *)

(** X18.  An operator with nothing behind it: the text of a product's
    left operand followed by [*], of a sum's left operand followed by [+]
    or [-], or of a term followed by [<], [>] or [=], makes the parser ask
    [None] for [isdigit], and the parse ends in an [AttributeError]. *)
Theorem missing_operand (e : Expression) :
  literals str_isdigit e = true ->
  (shape_fleft e = true ->
   parse_string (text e ++ "*")
   = Raise (AttributeError "'NoneType' object has no attribute 'isdigit'"))
  /\ (shape_tleft e = true ->
      forall o : addop,
        parse_string (text e ++ addop_text o)
        = Raise (AttributeError "'NoneType' object has no attribute 'isdigit'"))
  /\ (shape_term e = true ->
      forall o : relop,
        parse_string (text e ++ relop_text o)
        = Raise (AttributeError "'NoneType' object has no attribute 'isdigit'")).
Proof.
  intros Hl.
  destruct (TextFacts.all_text_parses e Hl) as (_ & HP & _ & HS & HT & _).
  split; [|split].
  - intros Hs. apply ErrorFacts.parse_string_finally.
    apply TextFacts.parse_rule, ErrorFacts.raise_relation, ErrorFacts.raise_term.
    apply (HP Hs (text e ++ "*") EmptyString "*" None); [now split|].
    apply ErrorFacts.product_raise, ErrorFacts.primary_exhausted.
  - intros Hs o. apply ErrorFacts.parse_string_finally.
    apply TextFacts.parse_rule, ErrorFacts.raise_relation.
    apply (HS Hs (text e ++ addop_text o) EmptyString (addop_text o) None);
      [now destruct o|].
    destruct o; apply (ErrorFacts.sum_raise Plus) || apply (ErrorFacts.sum_raise Minus);
      apply ErrorFacts.raise_factor, ErrorFacts.primary_exhausted.
  - intros Hs o. apply ErrorFacts.parse_string_finally.
    apply TextFacts.parse_rule.
    apply (ErrorFacts.relation_raise o _ e
             (ahead (text e ++ relop_text o) (EmptyString ++ text e) (relop_text o))).
    + apply (HT Hs (text e ++ relop_text o) EmptyString (relop_text o) None).
      now destruct o.
    + now destruct o.
    + destruct o; apply ErrorFacts.raise_term, ErrorFacts.raise_factor,
        ErrorFacts.primary_exhausted.
Qed.

Lemma missing_operand_witness :
  parse_string "(1<2)*3-"
  = Raise (AttributeError "'NoneType' object has no attribute 'isdigit'").
Proof.
  exact (proj1 (proj2 (missing_operand
           (Factor (Parenthesized
                      (Less (SingleTerm (SingleFactor (Integer "1")))
                            (SingleTerm (SingleFactor (Integer "2")))))
                   (Integer "3"))
           eq_refl)) eq_refl Minus).
Defined.

(** ** The rendering as a trace of the tree *)

(** X19.  The rendering is an unambiguous trace of the parse: two texts
    that render to the same string have the same tree, and so the same
    value.  (The literals of a parsed tree are runs of digits, so that no
    literal can imitate a parenthesis or a comma of [__str__].) *)
Theorem rendering_determines_tree (s1 s2 r : string) :
  render s1 = Ok r -> render s2 = Ok r ->
  parse_string s1 = parse_string s2 /\ evaluate s1 = evaluate s2.
Proof.
  unfold render, evaluate. intros H1 H2.
  pose proof (ShapeFacts.parse_string_shape s1) as Hs1.
  pose proof (ShapeFacts.parse_string_shape s2) as Hs2.
  destruct (parse_string s1) as [t1| |]; try discriminate.
  destruct (parse_string s2) as [t2| |]; try discriminate.
  cbn [bind_result] in *. injection H1 as H1. injection H2 as H2.
  destruct Hs1 as [_ Hl1]. destruct Hs2 as [_ Hl2].
  assert (Ht : t1 = t2)
    by (apply RenderFacts.str_injective; [assumption | assumption | congruence]).
  rewrite Ht. now split.
Qed.

Lemma rendering_determines_tree_witness :
  parse_string "1+2" = parse_string " 1 +  2" /\ evaluate "1+2" = evaluate " 1 +  2".
Proof.
  apply (rendering_determines_tree "1+2" " 1 +  2"
           "SingleRelation(AddTerm(SingleFactor(Integer(1)),SingleFactor(Integer(2))))");
    vm_compute; reflexivity.
Defined.
